(** * wifi.py: a discrete-time simulation of packet forwarding

    A shallow embedding of [wifi.py] (classes [Router], [Packet] and
    [Network]) and the properties of its specification.

    Python objects are mutable and compared by identity, so the embedding
    keeps two object stores: one for [Router] objects and one for [Packet]
    objects.  A reference is the object's identity; queues and the
    in-transit sequence hold references, and an assignment such as
    [packet.via = ...] updates the store, visible through every reference
    to that packet.  Unhandled Python exceptions ([KeyError],
    [AttributeError], [IndexError]) end the computation with [Raise].
    The two output streams are kept as lists of lines, oldest first. *)

From Stdlib Require Import QArith.
From stdpp Require Import gmap strings list functions.
Local Close Scope Q_scope.
Local Open Scope Z_scope.

(** ** Constants *)

Definition NEIGHBOUR_DELAY : Z := 1.     (* neighbour lookup delay *)
Definition DISTANT_DELAY : Z := 2.       (* route lookup delay *)

(** ** Objects *)

(** Identity of a [Router] object and of a [Packet] object. *)
Abbreviation rref := nat.
Abbreviation pref := nat.

Record Router := mkRouter {
  id : Z;
  connections : gmap rref Z;      (* neighbour -> delay *)
  input : list pref;
  output : list pref;
  routes : gmap rref rref         (* destination -> neighbour *)
}.

(** [delay] may hold [None] in Python ([Packet.tick] tests for it), [via]
    is [None] until a next hop is assigned, [connection] defaults to
    [None]. *)
Record Packet := mkPacket {
  source : rref;
  destination : rref;
  connection : option string;
  delay : option Z;
  via : option rref;              (* next hop to destination *)
  is_reply : bool;
  lifetime : Z
}.

(** [Router.__init__] *)
Definition Router_init (i : Z) : Router :=
  {| id := i; connections := ∅; input := []; output := []; routes := ∅ |}.

(** [Packet.__init__], with the defaults of the keyword arguments that
    [read_packets] leaves out. *)
Definition Packet_init (src dst : rref) (conn : option string) : Packet :=
  {| source := src; destination := dst; connection := conn;
     delay := Some 0; via := None; is_reply := false; lifetime := 0 |}.

Definition set_input (l : list pref) (r : Router) : Router :=
  {| id := id r; connections := connections r; input := l;
     output := output r; routes := routes r |}.

Definition set_output (l : list pref) (r : Router) : Router :=
  {| id := id r; connections := connections r; input := input r;
     output := l; routes := routes r |}.

(** [Router.add_connection]: the loop [for destination in routes] is a
    left fold over the list. *)
Definition add_connection (self : Router) (neighbour : rref) (d : Z)
    (dests : list rref) : Router :=
  {| id := id self;
     connections := <[neighbour := d]> (connections self);
     input := input self;
     output := output self;
     routes := foldl (λ m destination, <[destination := neighbour]> m)
                     (routes self) dests |}.

(** [Router.get_route_for] *)
Definition get_route_for (self : Router) (dst : rref) : option rref :=
  match routes self !! dst with
  | Some neighbour => Some neighbour
  | None =>
      match connections self !! dst with
      | Some _ => Some dst
      | None => None
      end
  end.

(** [key in d] for a key that may be [None]: [None] is never a key of the
    dictionaries of this program. *)
Definition dict_in {A} (key : option rref) (d : gmap rref A) : bool :=
  match key with
  | Some k => bool_decide (is_Some (d !! k))
  | None => false
  end.

(** ** Output streams *)

Inductive Status := delivered | lost.

(** A line of the standard output,
    [i={} conn={} node={} src={} dest={} status={}]. *)
Record Report := mkReport {
  rep_i : Z;
  rep_conn : option string;
  rep_node : Z;
  rep_src : Z;
  rep_dest : Z;
  rep_status : Status
}.

(** [Packet.__str__]: [Packet(conn={} src={} dest={} via={} D={} T={})]. *)
Record PacketStr := mkPacketStr {
  str_conn : option string;
  str_src : Z;
  str_dest : Z;
  str_via : option Z;
  str_D : option Z;
  str_T : Z
}.

(** [Router.__str__]: [Router(id={} in=[{}] out=[{}])]. *)
Record RouterStr := mkRouterStr {
  str_id : Z;
  str_in : list PacketStr;
  str_out : list PacketStr
}.

(** The lines written to the standard error stream. *)
Inductive ErrLine :=
| err_t (i : Z)                                      (* t = {} *)
| err_pre_deliver (transit : list PacketStr)         (* pre-deliver: transmit: *)
| err_dropped (p : PacketStr)                        (* dropped {} *)
| err_post_deliver (rs : list RouterStr)             (* post-deliver: routers: *)
| err_delivered (reply : bool) (p : PacketStr) (r : RouterStr)
                                                     (* delivered {}{} to {} *)
| err_lost_at (p : PacketStr) (r : RouterStr)        (* {} lost at {} *)
| err_pre_transmit (rs : list RouterStr)             (* pre-transmit: routers: *)
| err_post_transmit (transit : list PacketStr).      (* post-transmit: transmit: *)

(** ** Program state *)

(** Every reference denotes an object: a reference that was never written
    reads as a Router or Packet just constructed. *)
#[global] Instance Router_inhabited : Inhabited Router :=
  populate {| id := 0; connections := ∅; input := []; output := []; routes := ∅ |}.
#[global] Instance Packet_inhabited : Inhabited Packet :=
  populate {| source := 0%nat; destination := 0%nat; connection := None;
              delay := Some 0; via := None; is_reply := false; lifetime := 0 |}.

Record State := mkState {
  rheap : gmap rref Router;       (* the Router objects *)
  pheap : gmap pref Packet;       (* the Packet objects *)
  pnext : pref;                   (* identity of the next Packet created *)
  routers : list rref;            (* Network.routers *)
  packets : list pref;            (* Network.packets, the packets in transit *)
  drawn : nat;                    (* calls of random.random() so far *)
  stdout : list Report;
  stderr : list ErrLine
}.

Definition set_rheap (h : gmap rref Router) (s : State) : State :=
  mkState h (pheap s) (pnext s) (routers s) (packets s) (drawn s)
          (stdout s) (stderr s).

Definition set_pheap (h : gmap pref Packet) (s : State) : State :=
  mkState (rheap s) h (pnext s) (routers s) (packets s) (drawn s)
          (stdout s) (stderr s).

Definition set_pnext (n : pref) (s : State) : State :=
  mkState (rheap s) (pheap s) n (routers s) (packets s) (drawn s)
          (stdout s) (stderr s).

Definition set_routers (l : list rref) (s : State) : State :=
  mkState (rheap s) (pheap s) (pnext s) l (packets s) (drawn s)
          (stdout s) (stderr s).

Definition set_packets (l : list pref) (s : State) : State :=
  mkState (rheap s) (pheap s) (pnext s) (routers s) l (drawn s)
          (stdout s) (stderr s).

Definition set_drawn (n : nat) (s : State) : State :=
  mkState (rheap s) (pheap s) (pnext s) (routers s) (packets s) n
          (stdout s) (stderr s).

Definition set_stdout (l : list Report) (s : State) : State :=
  mkState (rheap s) (pheap s) (pnext s) (routers s) (packets s) (drawn s)
          l (stderr s).

Definition set_stderr (l : list ErrLine) (s : State) : State :=
  mkState (rheap s) (pheap s) (pnext s) (routers s) (packets s) (drawn s)
          (stdout s) l.

(** [Packet.__str__] and [Router.__str__] read the stores.  A line is kept
    as the record of the values printed, not as text: the conversion of
    an integer to text, which CPython refuses with [ValueError] for an
    integer of more than 4300 digits, is not part of the model. *)
Definition Packet_str (s : State) (p : pref) : PacketStr :=
  let pk := pheap s !!! p in
  {| str_conn := connection pk;
     str_src := id (rheap s !!! source pk);
     str_dest := id (rheap s !!! destination pk);
     str_via := (λ v, id (rheap s !!! v)) <$> via pk;
     str_D := delay pk;
     str_T := lifetime pk |}.

Definition Router_str (s : State) (r : rref) : RouterStr :=
  {| str_id := id (rheap s !!! r);
     str_in := Packet_str s <$> input (rheap s !!! r);
     str_out := Packet_str s <$> output (rheap s !!! r) |}.

(** ** Computations that may raise *)

Inductive Exn := KeyError | AttributeError | IndexError | ValueError.

Inductive Res (A : Type) :=
| Ok (a : A) (s : State)
| Raise (e : Exn) (s : State).
Arguments Ok {A} a s.
Arguments Raise {A} e s.

Definition M (A : Type) : Type := State → Res A.

Definition ret {A} (a : A) : M A := λ s, Ok a s.

Definition bind {A B} (m : M A) (k : A → M B) : M B :=
  λ s, match m s with
       | Ok a s' => k a s'
       | Raise e s' => Raise e s'
       end.

#[global] Instance M_ret : MRet M := @ret.
#[global] Instance M_bind : MBind M := λ A B k m, bind m k.

Definition raise {A} (e : Exn) : M A := λ s, Raise e s.
Definition gets {A} (f : State → A) : M A := λ s, Ok (f s) s.
Definition modify (f : State → State) : M unit := λ s, Ok tt (f s).

(** [for _ in range(n): body] *)
Fixpoint repeatM (n : nat) (body : M unit) : M unit :=
  match n with
  | O => ret tt
  | S n' => body ;; repeatM n' body
  end.

(** [for x in l: body x] *)
Fixpoint forM {A} (l : list A) (body : A → M unit) : M unit :=
  match l with
  | [] => ret tt
  | x :: l' => body x ;; forM l' body
  end.

(** The state after [print(..)] and [print(.., file=sys.stderr)]. *)
Definition log_out (line : Report) (s : State) : State :=
  set_stdout (stdout s ++ [line]) s.

Definition log_err (line : ErrLine) (s : State) : State :=
  set_stderr (stderr s ++ [line]) s.

(** The state after an update of the fields of one object. *)
Definition upd_router (r : rref) (f : Router → Router) (s : State) : State :=
  set_rheap (<[r := f (rheap s !!! r)]> (rheap s)) s.

Definition upd_packet (p : pref) (f : Packet → Packet) (s : State) : State :=
  set_pheap (<[p := f (pheap s !!! p)]> (pheap s)) s.

(** The state after the creation of a Packet object. *)
Definition alloc_packet (pk : Packet) (s : State) : State :=
  set_pnext (S (pnext s)) (set_pheap (<[pnext s := pk]> (pheap s)) s).

Arguments Packet_str : simpl never.
Arguments Router_str : simpl never.

Definition print_out (line : Report) : M unit := modify (log_out line).
Definition print_err (line : ErrLine) : M unit := modify (log_err line).

Definition write_router (r : rref) (f : Router → Router) : M unit :=
  modify (upd_router r f).

Definition write_packet (p : pref) (f : Packet → Packet) : M unit :=
  modify (upd_packet p f).

(** [d[key]] *)
Definition dict_get {A} (d : gmap rref A) (key : option rref) : M A :=
  match key ≫= (d !!.) with
  | Some v => ret v
  | None => raise KeyError
  end.

(** Creating a Packet object. *)
Definition new_packet (pk : Packet) : M pref :=
  λ s, Ok (pnext s) (alloc_packet pk s).

Definition set_via (v : option rref) (pk : Packet) : Packet :=
  {| source := source pk; destination := destination pk;
     connection := connection pk; delay := delay pk; via := v;
     is_reply := is_reply pk; lifetime := lifetime pk |}.

Definition set_delay (d : option Z) (pk : Packet) : Packet :=
  {| source := source pk; destination := destination pk;
     connection := connection pk; delay := d; via := via pk;
     is_reply := is_reply pk; lifetime := lifetime pk |}.

Definition set_lifetime (t : Z) (pk : Packet) : Packet :=
  {| source := source pk; destination := destination pk;
     connection := connection pk; delay := delay pk; via := via pk;
     is_reply := is_reply pk; lifetime := t |}.

(** ** Router *)

Definition push_input (packet : pref) (r : Router) : Router :=
  set_input (input r ++ [packet]) r.

Definition push_output (packet : pref) (r : Router) : Router :=
  set_output (output r ++ [packet]) r.

(** [Router.add_incoming_packet] *)
Definition Router_add_incoming_packet (self : rref) (packet : pref) : M unit :=
  write_router self (push_input packet).

(** [Router.add_outgoing_packet]; also [self.output.append(packet)]. *)
Definition Router_add_outgoing_packet (self : rref) (packet : pref) : M unit :=
  write_router self (push_output packet).

(** [self.input.pop(0)] *)
Definition pop_input (self : rref) : M pref :=
  λ s, match input (rheap s !!! self) with
       | [] => Raise IndexError s
       | p :: rest => Ok p (upd_router self (set_input rest) s)
       end.

(** [router.output.pop(0)] *)
Definition pop_output (self : rref) : M pref :=
  λ s, match output (rheap s !!! self) with
       | [] => Raise IndexError s
       | p :: rest => Ok p (upd_router self (set_output rest) s)
       end.

(** One iteration of the loop of [Router.process_incoming_packets]. *)
Definition process_packet (self : rref) (i : Z) : M unit :=
  packet ← pop_input self;
  pk ← gets (λ s, pheap s !!! packet);
  me ← gets (λ s, rheap s !!! self);
  if Nat.eqb (destination pk) self then             (* to ourselves *)
    pstr ← gets (λ s, Packet_str s packet);
    rstr ← gets (λ s, Router_str s self);
    print_err (err_delivered (is_reply pk) pstr rstr) ;;
    if is_reply pk then
      src_id ← gets (λ s, id (rheap s !!! source pk));
      dst_id ← gets (λ s, id (rheap s !!! destination pk));
      print_out (mkReport i (connection pk) (id me) src_id dst_id delivered)
    else          (* not a reply, respond to source router *)
      let next := get_route_for me (source pk) in
      let lookup_delay :=
        if dict_in next (connections me) then NEIGHBOUR_DELAY else DISTANT_DELAY in
      d ← dict_get (connections me) next;
      reply_packet ← new_packet
        {| source := self;
           destination := source pk;
           connection := connection pk;
           via := next;
           delay := Some (d + lookup_delay);
           lifetime := lifetime pk;
           is_reply := true |};
      Router_add_outgoing_packet self reply_packet
  else
    if dict_in (Some (destination pk)) (connections me) then      (* to our neighbour *)
      write_packet packet (set_via (Some (destination pk))) ;;
      d ← dict_get (connections me) (Some (destination pk));
      write_packet packet (set_delay (Some (d + NEIGHBOUR_DELAY))) ;;
      Router_add_outgoing_packet self packet
    else                                            (* to distant router *)
      if dict_in (Some (destination pk)) (routes me) then
        next ← dict_get (routes me) (Some (destination pk));
        write_packet packet (set_via (Some next)) ;;
        d ← dict_get (connections me) (Some next);
        write_packet packet (set_delay (Some (d + DISTANT_DELAY))) ;;
        Router_add_outgoing_packet self packet
      else
        pstr ← gets (λ s, Packet_str s packet);
        rstr ← gets (λ s, Router_str s self);
        print_err (err_lost_at pstr rstr).

(** [Router.process_incoming_packets] *)
Definition Router_process_incoming_packets (self : rref) (i : Z) : M unit :=
  n ← gets (λ s, length (input (rheap s !!! self)));
  repeatM n (process_packet self i).

(** ** Packet *)

(** [Packet.tick] *)
Definition tick_delay (pk : Packet) : Packet :=
  set_delay ((λ d, d - 1) <$> delay pk) pk.

Definition tick_lifetime (pk : Packet) : Packet :=
  set_lifetime (lifetime pk + 1) pk.

Definition Packet_tick (self : pref) : M (option Z) :=
  write_packet self tick_delay ;;           (* only when delay is not None *)
  write_packet self tick_lifetime ;;
  gets (λ s, delay (pheap s !!! self)).

(** ** Network *)

(** [self.packets.pop(0)] *)
Definition pop_packets : M pref :=
  λ s, match packets s with
       | [] => Raise IndexError s
       | p :: rest => Ok p (set_packets rest s)
       end.

Definition append_packets (packet : pref) : M unit :=
  modify (λ s, set_packets (packets s ++ [packet]) s).

(** One iteration of the loop of [Network.__init__]. *)
Definition inject_packet : M unit :=
  packet ← pop_packets;
  src ← gets (λ s, source (pheap s !!! packet));
  Router_add_incoming_packet src packet.

(** [Network.__init__]: the Router and Packet objects are in the stores
    already; the constructor receives the references. *)
Definition Network_init (rs : list rref) (ps : list pref) : M unit :=
  modify (set_routers rs) ;;
  modify (set_packets ps) ;;
  n ← gets (λ s, length (packets s));
  repeatM n inject_packet.

Section Simulation.

(** [Q], the drop ratio: a module-level variable of the program, [0.05]
    in the source. *)
Variable Q : QArith_base.Q.

(** [random k] is the value returned by call number [k] of
    [random.random()]. *)
Variable random : nat → QArith_base.Q.

(** [[packet for packet in l if random.random() <= Q]], where [k] calls
    were made before. *)
Fixpoint draw_dropped (l : list pref) (k : nat) : list pref :=
  match l with
  | [] => []
  | packet :: l' =>
      if Qle_bool (random k) Q
      then packet :: draw_dropped l' (S k)
      else draw_dropped l' (S k)
  end.

(** The body of the loop [for packet in dropped]: [packet.via.id] raises
    when [via] is [None]. *)
Definition report_dropped (i : Z) (packet : pref) : M unit :=
  pstr ← gets (λ s, Packet_str s packet);
  print_err (err_dropped pstr) ;;
  pk ← gets (λ s, pheap s !!! packet);
  match via pk with
  | None => raise AttributeError
  | Some v =>
      node ← gets (λ s, id (rheap s !!! v));
      src_id ← gets (λ s, id (rheap s !!! source pk));
      dst_id ← gets (λ s, id (rheap s !!! destination pk));
      print_out (mkReport i (connection pk) node src_id dst_id lost)
  end.

(** [Network.drop_packets] *)
Definition Network_drop_packets (i : Z) : M unit :=
  ps ← gets packets;
  k ← gets drawn;
  let dropped := draw_dropped ps k in
  modify (set_drawn (k + length ps)%nat) ;;
  forM dropped (report_dropped i) ;;
  modify (λ s, set_packets (filter (λ packet, packet ∉ dropped) (packets s)) s).

(** One iteration of the loop of [Network.deliver_packets]. *)
Definition deliver_packet : M unit :=
  packet ← pop_packets;
  t ← Packet_tick packet;
  match t with
  | Some t =>                                     (* type(t) is int *)
      if t <=? 0 then
        next ← gets (λ s, via (pheap s !!! packet));
        match next with
        | None => raise AttributeError
        | Some v =>
            Router_add_incoming_packet v packet ;;
            write_packet packet (set_via None)
        end
      else append_packets packet
  | None => ret tt
  end.

(** [Network.deliver_packets] *)
Definition Network_deliver_packets (i : Z) : M unit :=
  n ← gets (λ s, length (packets s));
  repeatM n deliver_packet.

(** [Network.process_incoming_packets] *)
Definition Network_process_incoming_packets (i : Z) : M unit :=
  rs ← gets routers;
  forM rs (λ router, Router_process_incoming_packets router i).

(** One iteration of the inner loop of [Network.transmit_packets]. *)
Definition transmit_packet (router : rref) : M unit :=
  packet ← pop_output router;
  append_packets packet.

(** [Network.transmit_packets] *)
Definition Network_transmit_packets (i : Z) : M unit :=
  rs ← gets routers;
  forM rs (λ router,
    n ← gets (λ s, length (output (rheap s !!! router)));
    repeatM n (transmit_packet router)).

(** [Network.tick] *)
Definition Network_tick (i : Z) : M unit :=
  print_err (err_t i) ;;
  (s ← gets (λ s, s); print_err (err_pre_deliver (Packet_str s <$> packets s))) ;;
  Network_drop_packets i ;;
  Network_deliver_packets i ;;
  (s ← gets (λ s, s); print_err (err_post_deliver (Router_str s <$> routers s))) ;;
  Network_process_incoming_packets i ;;
  (s ← gets (λ s, s); print_err (err_pre_transmit (Router_str s <$> routers s))) ;;
  Network_transmit_packets i ;;
  (s ← gets (λ s, s); print_err (err_post_transmit (Packet_str s <$> packets s))).

(** [Network.finished] *)
Definition Network_finished (s : State) : bool :=
  (length (packets s) =? 0)%nat &&
  forallb (λ router, (length (input (rheap s !!! router)) =? 0)%nat &&
                     (length (output (rheap s !!! router)) =? 0)%nat)
          (routers s).

(** [Network.run]: [fuel] bounds the number of iterations of the
    [while True] loop; [None] means that the loop is still running when
    the fuel is used up.  [i] is the value of the counter before the
    iteration. *)
Fixpoint run_loop (fuel : nat) (i : Z) (s : State) : option (Res unit) :=
  match fuel with
  | O => None
  | S fuel' =>
      match Network_tick (i + 1) s with
      | Raise e s' => Some (Raise e s')
      | Ok _ s' =>
          if Network_finished s' then Some (Ok tt s')
          else run_loop fuel' (i + 1) s'
      end
  end.

Definition Network_run (fuel : nat) (s : State) : option (Res unit) :=
  run_loop fuel 0 s.

End Simulation.

(** ** Reading the topology and the scenario *)

(** A text file is given by the list of its lines, as [f.readlines()]
    returns them.  A character is a code point below 256; a string of
    Python is a [string]. *)

From Stdlib Require Import Ascii.

Definition code (c : ascii) : N := N_of_ascii c.

(** The class [[0-9]] of the regular expressions. *)
Definition is_digit (c : ascii) : bool :=
  ((48 <=? code c) && (code c <=? 57))%N.

Definition digit_value (c : ascii) : Z := Z.of_N (code c) - 48.

(** [c.isspace()]: the characters that [str.strip] removes. *)
Definition py_isspace (c : ascii) : bool :=
  ((9 <=? code c) && (code c <=? 13) || (28 <=? code c) && (code c <=? 32) ||
   (code c =? 133) || (code c =? 160))%N.

(** The characters that [int] skips around a number. *)
Definition int_isspace (c : ascii) : bool :=
  ((9 <=? code c) && (code c <=? 13) || (code c =? 32) ||
   (code c =? 133) || (code c =? 160))%N.

(** The longest prefix of characters of a class, and the rest. *)
Fixpoint span (f : ascii → bool) (s : string) : string * string :=
  match s with
  | String c s' =>
      if f c then let (a, b) := span f s' in (String c a, b)
      else (EmptyString, s)
  | EmptyString => (EmptyString, EmptyString)
  end.

(** [s.strip()], and the same for the characters that [int] skips. *)
Definition strip_with (f : ascii → bool) (s : string) : string :=
  String.rev (span f (String.rev (span f s).2)).2.

Definition strip : string → string := strip_with py_isspace.

(** [s.split(' ')] *)
Fixpoint split_space (s : string) : list string :=
  match s with
  | EmptyString => [EmptyString]
  | String c s' =>
      if Ascii.eqb c " " then EmptyString :: split_space s'
      else match split_space s' with
           | w :: ws => String c w :: ws
           | [] => [String c EmptyString]
           end
  end.

(** The value of a string [s] of decimal digits, after the value [acc] of
    the digits read before. *)
Fixpoint int_digits (acc : Z) (s : string) : Z :=
  match s with
  | EmptyString => acc
  | String c s' => int_digits (10 * acc + digit_value c) s'
  end.

(** The digits of a number, with single underscores between digits;
    [need] tells that a digit must come next. *)
Fixpoint int_body (acc : Z) (need : bool) (s : string) : option Z :=
  match s with
  | EmptyString => if need then None else Some acc
  | String c s' =>
      if is_digit c then int_body (10 * acc + digit_value c) false s'
      else if Ascii.eqb c "_" then
        if need then None else int_body acc true s'
      else None
  end.

(** [sys.int_info.default_max_str_digits]: [int] refuses a string with
    more digits, whatever their value; the program does not change the
    limit. *)
Definition INT_MAX_STR_DIGITS : Z := 4300.

(** The number of digits in a string. *)
Fixpoint count_digits (s : string) : Z :=
  match s with
  | EmptyString => 0
  | String c s' => (if is_digit c then 1 else 0) + count_digits s'
  end.

(** The number that the digits and underscores [t] write, unless the
    digits are too many. *)
Definition int_limited (t : string) : option Z :=
  v ← int_body 0 true t;
  if count_digits t <=? INT_MAX_STR_DIGITS then Some v else None.

(** [int(s)] for any string: [None] stands for [ValueError]. *)
Definition py_int (s : string) : option Z :=
  match strip_with int_isspace s with
  | String "+" t => int_limited t
  | String "-" t => Z.opp <$> int_limited t
  | t => int_limited t
  end.

(** [re.match(r"[0-9]+", line)]: the digits at the start of the line,
    [None] when there is none. *)
Definition match_digits (line : string) : option string :=
  match (span is_digit line).1 with
  | EmptyString => None
  | d => Some d
  end.

(** [re.findall(r"[0-9]+", s)]: the maximal runs of digits; [cur] is the
    run being read, its last digit first. *)
Fixpoint digit_runs (cur : string) (s : string) : list string :=
  match s with
  | EmptyString =>
      match cur with EmptyString => [] | _ => [String.rev cur] end
  | String c s' =>
      if is_digit c then digit_runs (String c cur) s'
      else match cur with
           | EmptyString => digit_runs EmptyString s'
           | _ => String.rev cur :: digit_runs EmptyString s'
           end
  end.

(** The rest of [s] after the prefix [p]. *)
Fixpoint after_prefix (p s : string) : option string :=
  match p, s with
  | EmptyString, _ => Some s
  | String a p', String b s' => if Ascii.eqb a b then after_prefix p' s' else None
  | String _ _, EmptyString => None
  end.

(** A match, at the start of [s], of the regular expression of the second
    loop: digits (the neighbour), a space, digits (the delay), a space, an
    opening bracket, digits and spaces (the routes), a closing bracket.
    The result holds the three groups and the number of characters
    matched.  Every repetition is followed by a character outside its
    class, so the longest repetition is the only one that can match. *)
Definition match_link (s : string) : option (string * string * string * nat) :=
  let (g1, r1) := span is_digit s in
  match g1 with
  | EmptyString => None
  | _ =>
      r2 ← after_prefix " " r1;
      let (g2, r3) := span is_digit r2 in
      match g2 with
      | EmptyString => None
      | _ =>
          r4 ← after_prefix " [" r3;
          let (g3, r5) := span (λ c, is_digit c || Ascii.eqb c " ") r4 in
          _ ← after_prefix "]" r5;
          Some (g1, g2, g3,
                (String.length g1 + String.length g2 + String.length g3 + 4)%nat)
      end
  end.

(** [re.findall] of that expression: the matches from left to right, the
    search going on behind each match; [skip] characters are still part of
    the last match. *)
Fixpoint findall_links (skip : nat) (s : string) : list (string * string * string) :=
  match s with
  | EmptyString => []
  | String _ s' =>
      match skip with
      | S k => findall_links k s'
      | O =>
          match match_link s with
          | Some (g, n) => g :: findall_links (n - 1) s'
          | None => findall_links 0 s'
          end
      end
  end.

(** The dictionary [routers] of [read_routers], in the order of
    insertion: node number -> Router. *)
Abbreviation dict := (list (Z * rref)).

Fixpoint dict_lookup (d : dict) (k : Z) : option rref :=
  match d with
  | [] => None
  | (k', v) :: d' => if Z.eqb k k' then Some v else dict_lookup d' k
  end.

(** [routers[k]] *)
Definition dict_item (d : dict) (k : Z) : M rref :=
  match dict_lookup d k with
  | Some v => ret v
  | None => raise KeyError
  end.

(** [routers.values()] *)
Definition dict_values (d : dict) : list rref := d.*2.

(** Creating a Router object: its identity is one that no Router of the
    store has. *)
Definition new_router (i : Z) : M rref :=
  λ s, let r := fresh (dom (rheap s)) in
       Ok r (set_rheap (<[r := Router_init i]> (rheap s)) s).

(** [int(s)] in a computation. *)
Definition int_of (s : string) : M Z :=
  match py_int s with
  | Some n => ret n
  | None => raise ValueError
  end.

(** [int(re.match(r"[0-9]+", line).group(0))]: without a match, [group]
    is looked up on [None]. *)
Definition line_node (line : string) : M Z :=
  match match_digits line with
  | Some d => int_of d
  | None => raise AttributeError
  end.

(** The body of the first loop of [read_routers]. *)
Definition read_node (routers : dict) (line : string) : M dict :=
  node ← line_node line;
  match dict_lookup routers node with
  | Some _ => ret routers
  | None => r ← new_router node; ret (routers ++ [(node, r)])
  end.

Fixpoint read_nodes (routers : dict) (lines : list string) : M dict :=
  match lines with
  | [] => ret routers
  | line :: lines' => routers' ← read_node routers line; read_nodes routers' lines'
  end.

(** The body of the inner loop of the second loop. *)
Definition connect (routers : dict) (node : Z) (g : string * string * string)
    : M unit :=
  neighbour ← int_of g.1.1;
  d ← int_of g.1.2;
  router ← dict_item routers node;
  other ← dict_item routers neighbour;
  dests ← mapM (λ route, k ← int_of route; dict_item routers k)
               (digit_runs EmptyString g.2);     (* the list comprehension *)
  write_router router (λ r, add_connection r other d dests) ;;
  write_router other (λ r, add_connection r router d []).

(** The body of the second loop. *)
Definition read_links (routers : dict) (line : string) : M unit :=
  node ← line_node line;
  forM (findall_links 0 line) (connect routers node).

(** [read_routers], from the lines of the file. *)
Definition read_routers (lines : list string) : M dict :=
  match lines with
  | [] => raise IndexError                          (* lines.pop(0) *)
  | total :: lines' =>
      routers ← read_nodes [] lines';
      forM lines' (read_links routers) ;;
      ret routers
  end.

(** The body of the loop of [read_packets]: the packet that a line
    describes.  The unpacking of the fields raises [ValueError] unless
    they are three. *)
Definition read_packet (routers : dict) (line : string) : M pref :=
  match split_space (strip line) with
  | [conn; src; dst] =>
      src ← int_of src;
      src ← dict_item routers src;
      dst ← int_of dst;
      dst ← dict_item routers dst;
      new_packet (Packet_init src dst (Some conn))
  | _ => raise ValueError
  end.

(** [read_packets], from the lines of the file; [packets] are the packets
    of the lines read before. *)
Fixpoint read_packets (routers : dict) (lines : list string) (packets : list pref)
    : M (list pref) :=
  match lines with
  | [] => ret packets
  | line :: lines' =>
      p ← read_packet routers line;
      read_packets routers lines' (packets ++ [p])
  end.

(** The state in which the program starts. *)
Definition start : State := mkState ∅ ∅ 0 [] [] 0 [] [].

Section Main.

Variable Q : QArith_base.Q.
Variable random : nat → QArith_base.Q.

(** [main], on the lines of [topology.txt] and of [scenario.txt]. *)
Definition main (topology scenario : list string) (fuel : nat) (s : State)
    : option (Res unit) :=
  match read_routers topology s with
  | Raise e s1 => Some (Raise e s1)
  | Ok routers s1 =>
      match read_packets routers scenario [] s1 with
      | Raise e s2 => Some (Raise e s2)
      | Ok packets s2 =>
          match Network_init (dict_values routers) packets s2 with
          | Raise e s3 => Some (Raise e s3)
          | Ok _ s3 => Network_run Q random fuel s3
          end
      end
  end.

End Main.

(** * Specification *)

(** ** Vocabulary of the statements *)

(** The reply that a router [self] builds for the request [pk]. *)
Definition reply_to (self : rref) (pk : Packet) (next : option rref) (d : Z) : Packet :=
  {| source := self; destination := source pk; connection := connection pk;
     via := next; delay := Some d; lifetime := lifetime pk; is_reply := true |}.

(** A state with the given objects and no Network yet. *)
Definition world (rs : list (rref * Router)) (ps : list (pref * Packet)) : State :=
  mkState (list_to_map rs) (list_to_map ps) (length ps) [] [] 0 [] [].

(** The result state of a computation, whether it returned or raised. *)
Definition state_of {A} (r : Res A) : State :=
  match r with Ok _ s => s | Raise _ s => s end.

(** The hops that a [pre-transmit] line shows: for every packet waiting in
    an output queue, the router, the next hop and the delay just assigned. *)
Definition hops_of_line (line : ErrLine) : list (Z * option Z * option Z) :=
  match line with
  | err_pre_transmit rs =>
      r ← rs; (λ p, (str_id r, str_via p, str_D p)) <$> str_out r
  | _ => []
  end.

Definition assigned_hops (log : list ErrLine) : list (Z * option Z * option Z) :=
  line ← log; hops_of_line line.

(** ** Example states *)

(** A router (reference 0, id 10) with links to routers 1 and 2 whose table
    sends destination 1 through neighbour 2, holding a request from router
    3 to router 1 in its input queue. *)
Definition both_routes_router : Router :=
  set_input [0%nat]
    (add_connection (add_connection (Router_init 10) 1%nat 5 []) 2%nat 3 [1%nat]).

Definition both_routes_state : State :=
  world [(0%nat, both_routes_router); (1%nat, Router_init 11);
         (2%nat, Router_init 12); (3%nat, Router_init 13)]
        [(0%nat, Packet_init 3 1 (Some "a"%string))].

(** The same router without the link to router 1. *)
Definition table_only_state : State :=
  world [(0%nat, set_input [0%nat]
                   (add_connection (Router_init 10) 2%nat 3 [1%nat]));
         (1%nat, Router_init 11); (2%nat, Router_init 12);
         (3%nat, Router_init 13)]
        [(0%nat, Packet_init 3 1 (Some "a"%string))].

(** A router (reference 0) with one link, to router 2, and an empty table,
    holding in its input queue a request from router 3 addressed to
    itself: it has no route back to router 3. *)
Definition no_route_back_state : State :=
  world [(0%nat, set_input [0%nat] (add_connection (Router_init 10) 2%nat 3 []));
         (2%nat, Router_init 12); (3%nat, Router_init 13)]
        [(0%nat, Packet_init 3 0 (Some "a"%string))].

(** The same router holding a request from its neighbour 2. *)
Definition request_state : State :=
  world [(0%nat, set_input [0%nat] (add_connection (Router_init 10) 2%nat 3 []));
         (2%nat, Router_init 12)]
        [(0%nat, Packet_init 2 0 (Some "a"%string))].

(** The same router holding a reply from its neighbour 2. *)
Definition reply_state : State :=
  world [(0%nat, set_input [0%nat] (add_connection (Router_init 10) 2%nat 3 []));
         (2%nat, Router_init 12)]
        [(0%nat, reply_to 2 (Packet_init 0 2 (Some "a"%string)) (Some 0%nat) 4)].


(** ** Reasoning about computations *)

(** [wp m Qok Qex s]: run from [s], [m] returns a value and a state that
    satisfy [Qok], or raises an exception in a state that satisfies
    [Qex]. *)
Definition wp {A} (m : M A) (Qok : A → State → Prop) (Qex : Exn → State → Prop)
    (s : State) : Prop :=
  match m s with
  | Ok a s' => Qok a s'
  | Raise e s' => Qex e s'
  end.

(** The exceptions that a statement tolerates. *)
Definition any_exn : Exn → State → Prop := λ _ _, True.
Definition no_exn : Exn → State → Prop := λ _ _, False.
Definition no_null_deref : Exn → State → Prop := λ e _, e ≠ AttributeError.

(** ** The loss phase *)

(** The state after the two lines that [drop_packets] writes for a dropped
    packet whose next hop is [v]. *)
Definition report_lost (i : Z) (p : pref) (v : rref) (s : State) : State :=
  let pk := pheap s !!! p in
  log_out (mkReport i (connection pk) (id (rheap s !!! v))
             (id (rheap s !!! source pk)) (id (rheap s !!! destination pk)) lost)
          (log_err (err_dropped (Packet_str s p)) s).

(** The line of the standard output for the loss of [p]. *)
Definition lost_line (i : Z) (s : State) (p : pref) : Report :=
  let pk := pheap s !!! p in
  mkReport i (connection pk) (default 0 ((λ v, id (rheap s !!! v)) <$> via pk))
    (id (rheap s !!! source pk)) (id (rheap s !!! destination pk)) lost.

(** A state with one packet in transit, from router 1 towards router 2. *)
Definition in_transit_state : State :=
  set_packets [0%nat]
    (world [(1%nat, add_connection (Router_init 1) 2%nat 4 []);
            (2%nat, add_connection (Router_init 2) 1%nat 4 [])]
           [(0%nat, set_delay (Some 5) (set_via (Some 2%nat)
                      (Packet_init 1 2 (Some "a"%string))))]).

(** The state after the lines that [drop_packets] writes for the dropped
    packets [l]. *)
Definition lost_reports (i : Z) (l : list pref) (s : State) : State :=
  foldl (λ s' p, match via (pheap s' !!! p) with
                 | Some v => report_lost i p v s'
                 | None => s'
                 end) s l.

(** ** The example scenario of the specification *)

(** Three routers in a line, as in the comment of [main]: router 1 (link of
    delay 11) router 2 (link of delay 5) router 3; the table of router 1
    sends destination 3 through router 2, and the table of router 3 sends
    destination 1 through router 2.  References are the identifiers. *)
Definition line_r1 : Router := add_connection (Router_init 1) 2%nat 11 [3%nat].
Definition line_r2 : Router :=
  add_connection (add_connection (Router_init 2) 1%nat 11 []) 3%nat 5 [].
Definition line_r3 : Router := add_connection (Router_init 3) 2%nat 5 [1%nat].

(** The objects of the scenario, with one request from router 1 to router
    3, and the network constructed from them. *)
Definition line_world (conn : option string) : State :=
  world [(1%nat, line_r1); (2%nat, line_r2); (3%nat, line_r3)]
        [(0%nat, Packet_init 1 3 conn)].

Definition line_network (conn : option string) : State :=
  state_of (Network_init [1; 2; 3]%nat [0%nat] (line_world conn)).

(** ** Counting the live packets *)

(** The number of packets in the queues of a router. *)
Definition queue_len (r : Router) : nat := length (input r) + length (output r).

(** The number of packets in the queues of the routers [L]. *)
Definition queued (L : list rref) (s : State) : nat :=
  sum_list ((λ r, queue_len (rheap s !!! r)) <$> L).

(** The live packets of the network: the packets in transit and the
    packets in the input and output queues of its routers, each router
    counted once. *)
Definition live (s : State) : nat :=
  (length (packets s) + queued (remove_dups (routers s)) s)%nat.

(** The deliveries of requests that a standard error log shows: the lines
    [delivered {packet} to {router}] without [REPLY]. *)
Definition is_request_delivery (line : ErrLine) : bool :=
  match line with
  | err_delivered false _ _ => true
  | _ => false
  end.

Definition requests_delivered (log : list ErrLine) : nat :=
  length (filter (λ line, is_request_delivery line = true) log).

Arguments queued : simpl never.
Arguments requests_delivered : simpl never.

(** From [s] to [s'] no packet was duplicated: the number of live packets
    did not grow, and as many Packet objects were created as requests were
    delivered. *)
Definition conserved (s s' : State) : Prop :=
  routers s' = routers s ∧
  (live s' ≤ live s)%nat ∧
  (pnext s' + requests_delivered (stderr s) =
   pnext s + requests_delivered (stderr s'))%nat.

(** The same as an invariant: [rs] are the routers of the network, [n]
    bounds the live packets, [c] is the number of Packet objects not
    created as a reply. *)
Definition conserving (rs : list rref) (n : nat) (c : Z) (s : State) : Prop :=
  routers s = rs ∧
  (length (packets s) + queued (remove_dups rs) s ≤ n)%nat ∧
  Z.of_nat (pnext s) - Z.of_nat (requests_delivered (stderr s)) = c.

(** ** Where the packets are *)

(** The three kinds of container that hold packets. *)
Inductive place :=
| in_transit
| in_input (r : rref)
| in_output (r : rref).

#[global] Instance place_eq_dec : EqDecision place.
Proof. solve_decision. Defined.

Definition queue (s : State) (pl : place) : list pref :=
  match pl with
  | in_transit => packets s
  | in_input r => input (rheap s !!! r)
  | in_output r => output (rheap s !!! r)
  end.

(** The containers from which a packet is sent on: the in-transit sequence
    and the output queues. *)
Definition sends (pl : place) : Prop :=
  match pl with
  | in_input _ => False
  | _ => True
  end.

(** A packet with a next hop and an integer delay. *)
Definition routed (pk : Packet) : Prop := is_Some (via pk) ∧ is_Some (delay pk).

(** The invariant of the packets, for the containers [q], the packet store
    [h] and the next identity [n]: every packet is in at most one
    container, at most once; it is a created object; and in a container
    that sends it on, it has its next hop and delay. *)
Definition separated (q : place → list pref) : Prop :=
  (∀ pl, NoDup (q pl)) ∧ (∀ pl pl' p, p ∈ q pl → p ∈ q pl' → pl = pl').

Definition allocated (q : place → list pref) (n : pref) : Prop :=
  ∀ pl p, p ∈ q pl → (p < n)%nat.

Definition sendable (q : place → list pref) (h : gmap pref Packet) : Prop :=
  ∀ pl p, sends pl → p ∈ q pl → routed (h !!! p).

Definition placed (q : place → list pref) (n : pref) : Prop :=
  separated q ∧ allocated q n.

Definition well_kept (q : place → list pref) (h : gmap pref Packet) (n : pref) : Prop :=
  placed q n ∧ sendable q h.

Definition well_formed (s : State) : Prop :=
  well_kept (queue s) (pheap s) (pnext s).

(** A packet that is in no container. *)
Definition nowhere (q : place → list pref) (p : pref) : Prop := ∀ pl, p ∉ q pl.

(** The containers [q] with [l] at place [pl]. *)
Definition with_queue (q : place → list pref) (pl : place) (l : list pref)
    : place → list pref :=
  λ pl', if decide (pl' = pl) then l else q pl'.

(** The states at the tick boundaries of a run that starts in [s0]: [i] is
    the tick counter. *)
Inductive ticks_from (Q : QArith_base.Q) (random : nat → QArith_base.Q)
    (s0 : State) : Z → State → Prop :=
| ticks_none : ticks_from Q random s0 0 s0
| ticks_next i s s' :
    ticks_from Q random s0 i s →
    Network_tick Q random (i + 1) s = Ok tt s' →
    ticks_from Q random s0 (i + 1) s'.

(** Routers just constructed and connected: their queues are empty. *)
Definition queues_empty (s : State) : Prop :=
  ∀ r, input (rheap s !!! r) = [] ∧ output (rheap s !!! r) = [].

(** While the constructor of the Network runs, the packets are only
    placed: those still in the in-transit sequence have no next hop yet;
    [k] packets remain there. *)
Definition injecting (k : nat) (s : State) : Prop :=
  placed (queue s) (pnext s) ∧
  (∀ r, output (rheap s !!! r) = []) ∧
  length (packets s) = k.

(** ** Routing tables *)

(** A router as the program sets it up: constructed, then connected by
    calls of [add_connection]. *)
Inductive built : Router → Prop :=
| built_init i : built (Router_init i)
| built_add r n d dests : built r → built (add_connection r n d dests).

(** Every next hop of the routing table is a direct neighbour. *)
Definition linked (r : Router) : Prop :=
  ∀ dst v, routes r !! dst = Some v → is_Some (connections r !! v).

(** ** What a tick leaves as it is *)

(** From [s] to [s'] the topology is the same: the routers of the network,
    and the identifier, the links and the routing table of every router. *)
Definition same_topology (s s' : State) : Prop :=
  routers s' = routers s ∧
  ∀ r, id (rheap s' !!! r) = id (rheap s !!! r) ∧
       connections (rheap s' !!! r) = connections (rheap s !!! r) ∧
       routes (rheap s' !!! r) = routes (rheap s !!! r).

(** From [s] to [s'] the packets that exist in [s] kept their endpoints,
    their connection tag and their kind. *)
Definition same_endpoints (s s' : State) : Prop :=
  (pnext s ≤ pnext s')%nat ∧
  ∀ p, (p < pnext s)%nat →
       source (pheap s' !!! p) = source (pheap s !!! p) ∧
       destination (pheap s' !!! p) = destination (pheap s !!! p) ∧
       connection (pheap s' !!! p) = connection (pheap s !!! p) ∧
       is_reply (pheap s' !!! p) = is_reply (pheap s !!! p).

(** ** The phases of a tick *)

(** From [s] to [s'] only the router [self] changed: every other router,
    the in-transit sequence and the routers of the network are the
    same. *)
Definition local_to (self : rref) (s s' : State) : Prop :=
  (∀ r, r ≠ self → rheap s' !!! r = rheap s !!! r) ∧
  packets s' = packets s ∧
  routers s' = routers s.

(** The routers of the network have no packet queued. *)
Definition routers_idle (s : State) : Prop :=
  ∀ r, r ∈ routers s → input (rheap s !!! r) = [] ∧ output (rheap s !!! r) = [].

(** From [s] to [s'] the router [r] sent its output queue [out]: the
    queue is empty, its packets are at the end of the in-transit sequence,
    and nothing else changed. *)
Definition transmitted (r : rref) (out : list pref) (s s' : State) : Prop :=
  output (rheap s' !!! r) = [] ∧
  input (rheap s' !!! r) = input (rheap s !!! r) ∧
  (∀ r', r' ≠ r → rheap s' !!! r' = rheap s !!! r') ∧
  packets s' = packets s ++ out ∧
  pheap s' = pheap s ∧ pnext s' = pnext s ∧ routers s' = routers s ∧
  stdout s' = stdout s ∧ stderr s' = stderr s ∧ drawn s' = drawn s.

(** ** The lines of the standard output *)

(** A line that tick [i] may write: it carries the index of the tick, and
    a delivery is reported by the destination itself. *)
Definition report_of_tick (i : Z) (line : Report) : Prop :=
  rep_i line = i ∧ (rep_status line = delivered → rep_node line = rep_dest line).

(** From [s] to [s'] the standard output grew by lines of tick [i]. *)
Definition reports_since (i : Z) (s s' : State) : Prop :=
  ∃ l, stdout s' = stdout s ++ l ∧ Forall (report_of_tick i) l.

(** ** The delivery phase *)

(** What [deliver_packets] does with a packet in transit, by the delay
    [d] it holds: it arrives at its next hop when [d - 1 <= 0], and stays
    in transit otherwise; a packet whose delay is [None] does neither. *)
Definition arrives (pk : Packet) : bool :=
  match delay pk with
  | Some d => d - 1 <=? 0
  | None => false
  end.

Definition stays (pk : Packet) : bool :=
  match delay pk with
  | Some d => negb (d - 1 <=? 0)
  | None => false
  end.

(** The packet after the phase: one tick older, and without next hop once
    it has arrived. *)
Definition after_delivery (pk : Packet) : Packet :=
  let pk' := tick_lifetime (tick_delay pk) in
  if arrives pk then set_via None pk' else pk'.

(** ** Example states *)

(** The line scenario without loss, and the state in which its run
    ends. *)
Definition no_loss : nat → QArith_base.Q := λ _, 1%Q.

Definition line_final : State :=
  match Network_run 0 no_loss 40 (line_network None) with
  | Some r => state_of r
  | None => line_network None
  end.

(** The routers of the line scenario as a network without packets. *)
Definition idle_network : State :=
  state_of (Network_init [1; 2; 3]%nat [] (line_world None)).

(** Two connected routers, each with one packet in its output queue. *)
Definition waiting_state : State :=
  set_routers [1; 2]%nat
    (world [(1%nat, set_output [0%nat] (add_connection (Router_init 1) 2%nat 4 []));
            (2%nat, set_output [1%nat] (add_connection (Router_init 2) 1%nat 4 []))]
           [(0%nat, set_delay (Some 5) (set_via (Some 2%nat)
                      (Packet_init 1 2 (Some "a"%string))));
            (1%nat, set_delay (Some 5) (set_via (Some 1%nat)
                      (Packet_init 2 1 (Some "b"%string))))]).

(** ** The exceptions of a tick *)

(** The exceptions that the processing of the input queues can raise, and
    those that the loss and the delivery of packets in transit can
    raise. *)
Definition only_KeyError : Exn → State → Prop := λ e _, e = KeyError.
Definition only_AttributeError : Exn → State → Prop := λ e _, e = AttributeError.

(** ** The routers that [read_routers] builds *)

(** The dictionary [d] names distinct Router objects by distinct numbers,
    and each of them has its number as identifier. *)
Definition names_routers (d : dict) (s : State) : Prop :=
  NoDup d.*1 ∧ NoDup d.*2 ∧
  ∀ k r, (k, r) ∈ d → dict_lookup d k = Some r ∧ id (rheap s !!! r) = k.

(** The routers [refs] are connected among themselves only: their
    neighbours, the destinations and the next hops of their tables are
    routers of [refs]; every next hop is a neighbour; and their queues are
    empty. *)
Definition closed_topology (refs : list rref) (s : State) : Prop :=
  ∀ r, r ∈ refs →
    input (rheap s !!! r) = [] ∧ output (rheap s !!! r) = [] ∧
    linked (rheap s !!! r) ∧
    (∀ n, is_Some (connections (rheap s !!! r) !! n) → n ∈ refs) ∧
    (∀ dst v, routes (rheap s !!! r) !! dst = Some v → dst ∈ refs ∧ v ∈ refs).

(** Every link has the same delay in both directions. *)
Definition symmetric_links (refs : list rref) (s : State) : Prop :=
  ∀ a b, a ∈ refs → b ∈ refs →
    connections (rheap s !!! a) !! b = connections (rheap s !!! b) !! a.

(** From [s] to [s'] only Router objects were created, the routers [refs],
    and nothing else changed. *)
Definition created_routers (refs : list rref) (s s' : State) : Prop :=
  (∀ r, r ∈ refs → r ∉ dom (rheap s)) ∧
  (∀ r, r ∉ refs → rheap s' !! r = rheap s !! r) ∧
  pheap s' = pheap s ∧ pnext s' = pnext s ∧ routers s' = routers s ∧
  packets s' = packets s ∧ drawn s' = drawn s ∧
  stdout s' = stdout s ∧ stderr s' = stderr s.

(** The number at the start of a line of the topology. *)
Definition node_of (line : string) : option Z :=
  int_digits 0 <$> match_digits line.

(** A string with at most as many digits as [int] converts. *)
Definition short (s : string) : bool := count_digits s <=? INT_MAX_STR_DIGITS.

(** A line of the topology that starts with a number that [int]
    converts, and the first line that does not. *)
Definition headed (line : string) : bool :=
  match match_digits line with
  | Some d => short d
  | None => false
  end.

Fixpoint first_unheaded (lines : list string) : option string :=
  match lines with
  | [] => None
  | line :: lines' => if headed line then first_unheaded lines' else Some line
  end.

(** A link whose neighbour, delay and routes are numbers that [int]
    converts. *)
Definition short_link (g : string * string * string) : bool :=
  short g.1.1 && short g.1.2 && forallb short (digit_runs EmptyString g.2).

(** The exception that the first loop of [read_routers] raises at a line
    that is not headed. *)
Definition unheaded_error (line : string) : Exn :=
  match match_digits line with
  | Some _ => ValueError
  | None => AttributeError
  end.

(** After the first loop: the dictionary [d] names Router objects just
    constructed, which the store [s0] did not hold. *)
Definition fresh_routers (s0 : State) (d : dict) (s : State) : Prop :=
  NoDup d.*1 ∧ NoDup d.*2 ∧
  (∀ k r, (k, r) ∈ d → rheap s !! r = Some (Router_init k) ∧ rheap s0 !! r = None) ∧
  (∀ r, r ∉ d.*2 → rheap s !! r = rheap s0 !! r) ∧
  pheap s = pheap s0 ∧ pnext s = pnext s0 ∧ routers s = routers s0 ∧
  packets s = packets s0 ∧ drawn s = drawn s0 ∧
  stdout s = stdout s0 ∧ stderr s = stderr s0.

(** While [read_routers] connects the routers of the dictionary [d]; [s0]
    is the state before the call. *)
Definition connecting (d : dict) (s0 s : State) : Prop :=
  names_routers d s ∧ closed_topology d.*2 s ∧ symmetric_links d.*2 s ∧
  created_routers d.*2 s0 s.

(** ** The packets that [read_packets] builds *)

(** The three fields of a line of the scenario. *)
Definition fields_of (line : string) : option (string * string * string) :=
  match split_space (strip line) with
  | [conn; src; dst] => Some (conn, src, dst)
  | _ => None
  end.

(** The packet that a line of the scenario describes, for the dictionary
    [d] of the routers. *)
Definition packet_of (d : dict) (line : string) : option Packet :=
  '(conn, src, dst) ← fields_of line;
  src ← py_int src ≫= dict_lookup d;
  dst ← py_int dst ≫= dict_lookup d;
  Some (Packet_init src dst (Some conn)).

(** From [s] to [s'] only Packet objects were created, the packets [ps],
    one after the other. *)
Definition created_packets (ps : list pref) (s s' : State) : Prop :=
  ps = seq (pnext s) (length ps) ∧
  pnext s' = (pnext s + length ps)%nat ∧
  (∀ p, (p < pnext s)%nat → pheap s' !!! p = pheap s !!! p) ∧
  rheap s' = rheap s ∧ routers s' = routers s ∧ packets s' = packets s ∧
  drawn s' = drawn s ∧ stdout s' = stdout s ∧ stderr s' = stderr s.

(** ** Example files *)

Definition nl : string := String (ascii_of_nat 10) EmptyString.

(** The line scenario as a topology file and a scenario file. *)
Definition line_topology : list string :=
  ["3" +:+ nl; "1 2 11 [3]" +:+ nl; "2" +:+ nl; "3 2 5 [1]" +:+ nl].

Definition line_scenario_file : list string := ["a 1 3" +:+ nl; "b 3 2" +:+ nl].

Definition line_dict : dict :=
  match read_routers line_topology start with
  | Ok d _ => d
  | Raise _ _ => []
  end.

Definition line_read : State := state_of (read_routers line_topology start).

(** A topology in which router 3 is reached from router 1 through router
    2 and has no route back, and the state in which [main] stops for the
    scenario above. *)
Definition one_way_topology : list string :=
  ["3" +:+ nl; "1 2 11 [3]" +:+ nl; "2 3 5 []" +:+ nl; "3" +:+ nl].

Definition one_way_final : State :=
  match main 0 no_loss one_way_topology line_scenario_file 40 start with
  | Some (Raise _ s) => s
  | _ => start
  end.

(** ** Numbers in the text *)

(** A non-empty string of decimal digits. *)
Fixpoint all_digits (s : string) : bool :=
  match s with
  | EmptyString => true
  | String c s' => is_digit c && all_digits s'
  end.

Definition number (s : string) : Prop := s ≠ EmptyString ∧ all_digits s = true.


(** The packets of the scenario file, read for the routers of the line
    topology. *)
Definition line_packets : list pref :=
  match read_packets line_dict line_scenario_file [] line_read with
  | Ok ps _ => ps
  | _ => []
  end.

Definition line_loaded : State :=
  match read_packets line_dict line_scenario_file [] line_read with
  | Ok _ s => s
  | _ => line_read
  end.

(** ** The time that the packets still need *)

(** A property of the packets that depends on the container they are
    in. *)
Definition holding (Φ : place → Packet → Prop) (q : place → list pref)
    (h : gmap pref Packet) : Prop :=
  ∀ pl p, p ∈ q pl → Φ pl (h !!! p).


(** The routers of [s] have the links and the routing tables of [T]. *)
Definition routing_of (T : rref → Router) (s : State) : Prop :=
  ∀ r, connections (rheap s !!! r) = connections (T r) ∧
       routes (rheap s !!! r) = routes (T r).

Section Routing.

(** The routers, for their links and their routing tables. *)
Variable T : rref → Router.








(** The invariant of a run that ends: the invariant of the packets, the
    routing of [T], and a bound for every packet. *)
Definition settling (Φ : place → Packet → Prop) (rs : list rref) (s : State) : Prop :=
  well_formed s ∧ routing_of T s ∧ routers s = rs ∧
  holding Φ (queue s) (pheap s).

End Routing.

(** The routers of a state. *)
Definition topology_of (s : State) : rref → Router := λ r, rheap s !!! r.

(** ** The reports of a run *)

Section Reports.

Variable T : rref → Router.

(** The routers of the network. *)
Variable rs : list rref.

(** [leads f r dst]: the forwarding rule leads a packet for [dst] that
    router [r] processes to [dst] in at most [f] hops, through routers of
    the network only, or to a lookup that raises [KeyError]; it does not
    when a router on the way cannot forward the packet. *)
Fixpoint leads (f : nat) (r dst : rref) : bool :=
  if Nat.eqb r dst then true
  else
    match f with
    | O => false
    | S f' =>
        match connections (T r) !! dst with
        | Some _ => bool_decide (dst ∈ rs)
        | None =>
            match routes (T r) !! dst with
            | Some v =>
                match connections (T r) !! v with
                | Some _ => bool_decide (v ∈ rs) && leads f' v dst
                | None => true
                end
            | None => false
            end
        end
    end.

(** The same for the reply that router [r] sends to [src]. *)
Definition reply_leads (f : nat) (r src : rref) : bool :=
  match get_route_for (T r) src with
  | Some v =>
      match connections (T r) !! v with
      | Some _ => bool_decide (v ∈ rs) && leads f v src
      | None => true
      end
  | None => true
  end.

(** A packet that router [r] processes is on its way: it will be
    delivered, and the reply to it as well. *)
Definition on_way (r : rref) (pk : Packet) : Prop :=
  ∃ f g, leads f r (destination pk) = true ∧
         (is_reply pk = true ∨
          reply_leads g (destination pk) (source pk) = true).

(** A packet in transit is on its way to a router of the network. *)
Definition sent_on (pk : Packet) : Prop :=
  ∃ v, via pk = Some v ∧ v ∈ rs ∧ on_way v pk.

Definition on_route (pl : place) (pk : Packet) : Prop :=
  match pl with
  | in_transit => sent_on pk
  | in_input r => r ∈ rs → on_way r pk
  | in_output r => r ∈ rs → sent_on pk
  end.

(** The containers of the network. *)
Definition listed (pl : place) : Prop :=
  match pl with
  | in_transit => True
  | in_input r | in_output r => r ∈ rs
  end.

(** The packets in the queues of the routers [L], and the live packets of
    the containers [q]. *)
Definition queues_of (q : place → list pref) (L : list rref) : list pref :=
  r ← L; q (in_input r) ++ q (in_output r).

Definition live_of (q : place → list pref) : list pref :=
  q in_transit ++ queues_of q rs.

End Reports.

(** The connection tags of the packets [l]. *)
Definition conns (h : gmap pref Packet) (l : list pref) : list (option string) :=
  (λ p, connection (h !!! p)) <$> l.

(** The connection tags of the lines written to the standard output and of
    the live packets. *)
Definition tally (s : State) : list (option string) :=
  (rep_conn <$> stdout s) ++ conns (pheap s) (live_of (routers s) (queue s)).

(** The invariant of the reports: every connection tag of [K] is the tag
    of one line of the standard output or of one live packet, which is on
    its way. *)
Definition tracked (T : rref → Router) (rs : list rref) (K : list (option string))
    (s : State) : Prop :=
  settling T (on_route T rs) rs s ∧ NoDup rs ∧ tally s ≡ₚ K.

(** From [s] to [s'] the standard output grew by [status=delivered]
    lines. *)
Definition delivered_since (s s' : State) : Prop :=
  ∃ l, stdout s' = stdout s ++ l ∧ Forall (λ line, rep_status line = delivered) l.

(** * Proofs *)

Ltac run_m := unfold mbind, M_bind, mret, M_ret, bind, ret, gets, modify, raise,
  print_err, print_out, write_router, write_packet, new_packet,
  Router_add_outgoing_packet, Router_add_incoming_packet, dict_get; cbn.

(** Reading an object store after updates. *)
Ltac heap_simpl :=
  repeat first
    [ rewrite lookup_total_insert_eq
    | rewrite lookup_total_insert_ne by (first [done | lia | congruence]) ].

Lemma rheap_upd_router_eq r f s : rheap (upd_router r f s) !!! r = f (rheap s !!! r).
Proof. cbn. by rewrite lookup_total_insert_eq. Qed.

Lemma rheap_upd_router_ne r r' f s :
  r ≠ r' → rheap (upd_router r f s) !!! r' = rheap s !!! r'.
Proof. intros. cbn. by rewrite lookup_total_insert_ne. Qed.

Lemma pheap_upd_packet_eq p f s : pheap (upd_packet p f s) !!! p = f (pheap s !!! p).
Proof. cbn. by rewrite lookup_total_insert_eq. Qed.

Lemma pheap_upd_packet_ne p p' f s :
  p ≠ p' → pheap (upd_packet p f s) !!! p' = pheap s !!! p'.
Proof. intros. cbn. by rewrite lookup_total_insert_ne. Qed.

Lemma pheap_alloc_packet_eq pk s : pheap (alloc_packet pk s) !!! pnext s = pk.
Proof. cbn. by rewrite lookup_total_insert_eq. Qed.

Lemma pheap_alloc_packet_ne pk p s :
  p ≠ pnext s → pheap (alloc_packet pk s) !!! p = pheap s !!! p.
Proof. intros. cbn. by rewrite lookup_total_insert_ne. Qed.

(** ** The loop body of [Router.process_incoming_packets], case by case *)

Lemma process_packet_unfold self i s p rest :
  input (rheap s !!! self) = p :: rest →
  let pk := pheap s !!! p in
  let me := rheap s !!! self in
  let s0 := upd_router self (set_input rest) s in
  process_packet self i s =
    if Nat.eqb (destination pk) self then
      let s1 := log_err (err_delivered (is_reply pk) (Packet_str s0 p)
                                       (Router_str s0 self)) s0 in
      if is_reply pk then
        Ok tt (log_out (mkReport i (connection pk) (id me)
                          (id (rheap s0 !!! source pk))
                          (id (rheap s0 !!! destination pk)) delivered) s1)
      else
        let next := get_route_for me (source pk) in
        match next ≫= (connections me !!.) with
        | Some d =>
            Ok tt (upd_router self (push_output (pnext s))
                     (alloc_packet
                        (reply_to self pk next
                           (d + if dict_in next (connections me)
                                then NEIGHBOUR_DELAY else DISTANT_DELAY)) s1))
        | None => Raise KeyError s1
        end
    else
      match connections me !! destination pk with
      | Some d =>
          Ok tt (upd_router self (push_output p)
                   (upd_packet p (set_delay (Some (d + NEIGHBOUR_DELAY)))
                      (upd_packet p (set_via (Some (destination pk))) s0)))
      | None =>
          match routes me !! destination pk with
          | Some next =>
              let s1 := upd_packet p (set_via (Some next)) s0 in
              match connections me !! next with
              | Some d =>
                  Ok tt (upd_router self (push_output p)
                           (upd_packet p (set_delay (Some (d + DISTANT_DELAY))) s1))
              | None => Raise KeyError s1
              end
          | None =>
              Ok tt (log_err (err_lost_at (Packet_str s0 p) (Router_str s0 self)) s0)
          end
      end.
Proof.
  intros Hin pk me s0. unfold process_packet.
  unfold mbind, M_bind, bind at 1. unfold pop_input. rewrite Hin.
  run_m. heap_simpl. cbn. fold pk me.
  change (get_route_for (set_input rest me)) with (get_route_for me).
  destruct (destination pk =? self)%nat.
  - destruct (is_reply pk); [reflexivity|].
    destruct (get_route_for me (source pk)) as [v|]; cbn; [|reflexivity].
    destruct (connections me !! v); reflexivity.
  - destruct (connections me !! destination pk) as [d|] eqn:Hd; cbn.
    + reflexivity.
    + destruct (routes me !! destination pk) as [v|] eqn:Hr; cbn; [|reflexivity].
      destruct (connections me !! v); reflexivity.
Qed.

Lemma get_route_for_table (self : Router) dst next :
  routes self !! dst = Some next → get_route_for self dst = Some next.
Proof. intros H. unfold get_route_for. by rewrite H. Qed.

Lemma get_route_for_neighbour (self : Router) dst :
  routes self !! dst = None →
  get_route_for self dst = connections self !! dst ≫= λ _, Some dst.
Proof. intros H. unfold get_route_for. rewrite H. by destruct (connections self !! dst). Qed.

(** Reading the identifier of a router after a change of its queues. *)
Lemma id_upd_router r f s r' :
  (∀ x, id (f x) = id x) → id (rheap (upd_router r f s) !!! r') = id (rheap s !!! r').
Proof.
  intros Hf. cbn. destruct (decide (r = r')) as [<-|?]; heap_simpl; [apply Hf|done].
Qed.

(** A packet that is forwarded: it leaves the input queue, gets its next
    hop and its delay, and joins the output queue. *)
Lemma forwarded_state self p rest next d s :
  let s' := upd_router self (push_output p)
              (upd_packet p (set_delay (Some d))
                 (upd_packet p (set_via (Some next))
                    (upd_router self (set_input rest) s))) in
  via (pheap s' !!! p) = Some next ∧
  delay (pheap s' !!! p) = Some d ∧
  output (rheap s' !!! self) = output (rheap s !!! self) ++ [p] ∧
  input (rheap s' !!! self) = rest.
Proof. cbn. heap_simpl. done. Qed.

(** C1 (amended), route priority: [get_route_for] returns the table entry
    of a destination whenever there is one, and falls back on the direct
    link only when there is none.  The forwarding decision of
    [process_incoming_packets] has the opposite priority: a packet for
    another router [D] is sent over the direct link to [D] when there is
    one, whatever the table says, and through the table's next hop only
    when [D] is not a direct neighbour. *)
Theorem route_priority self i s p rest D next :
  input (rheap s !!! self) = p :: rest →
  destination (pheap s !!! p) = D →
  D ≠ self →
  routes (rheap s !!! self) !! D = Some next →
  get_route_for (rheap s !!! self) D = Some next ∧
  (∀ d, connections (rheap s !!! self) !! D = Some d →
     ∃ s', process_packet self i s = Ok tt s' ∧
           via (pheap s' !!! p) = Some D ∧
           delay (pheap s' !!! p) = Some (d + NEIGHBOUR_DELAY) ∧
           output (rheap s' !!! self) = output (rheap s !!! self) ++ [p]) ∧
  (∀ d, connections (rheap s !!! self) !! D = None →
        connections (rheap s !!! self) !! next = Some d →
     ∃ s', process_packet self i s = Ok tt s' ∧
           via (pheap s' !!! p) = Some next ∧
           delay (pheap s' !!! p) = Some (d + DISTANT_DELAY) ∧
           output (rheap s' !!! self) = output (rheap s !!! self) ++ [p]).
Proof.
  intros Hin HD Hne Hr. split; [by apply get_route_for_table|].
  pose proof (process_packet_unfold self i s p rest Hin) as Hstep. cbn zeta in Hstep.
  rewrite HD in Hstep.
  destruct (Nat.eqb_spec D self) as [|_]; [done|].
  split.
  - intros d Hd. rewrite Hd in Hstep. eexists. split; [exact Hstep|].
    destruct (forwarded_state self p rest D (d + NEIGHBOUR_DELAY) s) as (?&?&?&?).
    done.
  - intros d Hd Hn. rewrite Hd, Hr, Hn in Hstep. eexists. split; [exact Hstep|].
    destruct (forwarded_state self p rest next (d + DISTANT_DELAY) s) as (?&?&?&?).
    done.
Qed.

Lemma route_priority_witness :
  get_route_for (rheap both_routes_state !!! 0%nat) 1%nat = Some 2%nat ∧
  (∃ s', process_packet 0 1 both_routes_state = Ok tt s' ∧
         via (pheap s' !!! 0%nat) = Some 1%nat ∧
         delay (pheap s' !!! 0%nat) = Some (5 + NEIGHBOUR_DELAY) ∧
         output (rheap s' !!! 0%nat) = [] ++ [0%nat]) ∧
  (∃ s', process_packet 0 1 table_only_state = Ok tt s' ∧
         via (pheap s' !!! 0%nat) = Some 2%nat ∧
         delay (pheap s' !!! 0%nat) = Some (3 + DISTANT_DELAY) ∧
         output (rheap s' !!! 0%nat) = [] ++ [0%nat]).
Proof.
  assert (H1 : input (rheap both_routes_state !!! 0%nat) = [0%nat])
    by (vm_compute; reflexivity).
  assert (H2 : input (rheap table_only_state !!! 0%nat) = [0%nat])
    by (vm_compute; reflexivity).
  destruct (route_priority 0 1 both_routes_state 0 [] 1 2 H1) as (Ha & Hb & _);
    [vm_compute; reflexivity | lia | vm_compute; reflexivity |].
  destruct (route_priority 0 1 table_only_state 0 [] 1 2 H2) as (_ & _ & Hc);
    [vm_compute; reflexivity | lia | vm_compute; reflexivity |].
  split; [exact Ha|]. split.
  - apply (Hb 5). vm_compute. reflexivity.
  - apply (Hc 3); vm_compute; reflexivity.
Defined.

(** C1, as stated, fails: the router of [both_routes_state] has the table
    entry [1 -> 2] and a direct link to router 1; the packet for router 1
    leaves with next hop 1, over the direct link, not with the table's
    next hop 2. *)
Lemma route_priority_counterexample :
  routes (rheap both_routes_state !!! 0%nat) !! 1%nat = Some 2%nat ∧
  connections (rheap both_routes_state !!! 0%nat) !! 1%nat = Some 5 ∧
  destination (pheap both_routes_state !!! 0%nat) = 1%nat ∧
  get_route_for (rheap both_routes_state !!! 0%nat) 1%nat = Some 2%nat ∧
  (∃ s', process_packet 0 1 both_routes_state = Ok tt s' ∧
         via (pheap s' !!! 0%nat) = Some 1%nat ∧
         via (pheap s' !!! 0%nat) ≠ Some 2%nat).
Proof.
  repeat split; try (vm_compute; reflexivity).
  eexists. split; [vm_compute; reflexivity|]. split; [vm_compute; reflexivity|].
  vm_compute. discriminate.
Qed.

(** C4, forwarding: a packet for a direct neighbour leaves with
    [via = destination] and the link's delay plus [NEIGHBOUR_DELAY]; a
    packet for a router that is not a neighbour but has a table entry
    leaves with the table's next hop and the delay of the link to that
    next hop plus [DISTANT_DELAY].  In both cases it is appended to the
    router's output queue. *)
Theorem forwarding_delay self i s p rest :
  input (rheap s !!! self) = p :: rest →
  destination (pheap s !!! p) ≠ self →
  (∀ d, connections (rheap s !!! self) !! destination (pheap s !!! p) = Some d →
     ∃ s', process_packet self i s = Ok tt s' ∧
           via (pheap s' !!! p) = Some (destination (pheap s !!! p)) ∧
           delay (pheap s' !!! p) = Some (d + NEIGHBOUR_DELAY) ∧
           output (rheap s' !!! self) = output (rheap s !!! self) ++ [p] ∧
           input (rheap s' !!! self) = rest) ∧
  (∀ next d,
     connections (rheap s !!! self) !! destination (pheap s !!! p) = None →
     routes (rheap s !!! self) !! destination (pheap s !!! p) = Some next →
     connections (rheap s !!! self) !! next = Some d →
     ∃ s', process_packet self i s = Ok tt s' ∧
           via (pheap s' !!! p) = Some next ∧
           delay (pheap s' !!! p) = Some (d + DISTANT_DELAY) ∧
           output (rheap s' !!! self) = output (rheap s !!! self) ++ [p] ∧
           input (rheap s' !!! self) = rest).
Proof.
  intros Hin Hne.
  pose proof (process_packet_unfold self i s p rest Hin) as Hstep. cbn zeta in Hstep.
  destruct (Nat.eqb_spec (destination (pheap s !!! p)) self) as [|_]; [done|].
  split.
  - intros d Hd. rewrite Hd in Hstep. eexists. split; [exact Hstep|].
    apply forwarded_state.
  - intros next d Hd Hr Hn. rewrite Hd, Hr, Hn in Hstep.
    eexists. split; [exact Hstep|]. apply forwarded_state.
Qed.

Lemma forwarding_delay_witness :
  (∃ s', process_packet 0 7 both_routes_state = Ok tt s' ∧
         via (pheap s' !!! 0%nat) = Some 1%nat ∧
         delay (pheap s' !!! 0%nat) = Some (5 + NEIGHBOUR_DELAY) ∧
         output (rheap s' !!! 0%nat) = [] ++ [0%nat] ∧
         input (rheap s' !!! 0%nat) = []) ∧
  (∃ s', process_packet 0 7 table_only_state = Ok tt s' ∧
         via (pheap s' !!! 0%nat) = Some 2%nat ∧
         delay (pheap s' !!! 0%nat) = Some (3 + DISTANT_DELAY) ∧
         output (rheap s' !!! 0%nat) = [] ++ [0%nat] ∧
         input (rheap s' !!! 0%nat) = []).
Proof.
  assert (H1 : input (rheap both_routes_state !!! 0%nat) = [0%nat])
    by (vm_compute; reflexivity).
  assert (H2 : input (rheap table_only_state !!! 0%nat) = [0%nat])
    by (vm_compute; reflexivity).
  destruct (forwarding_delay 0 7 both_routes_state 0 [] H1) as (Ha & _);
    [vm_compute; lia|].
  destruct (forwarding_delay 0 7 table_only_state 0 [] H2) as (_ & Hb);
    [vm_compute; lia|].
  split.
  - apply (Ha 5). vm_compute. reflexivity.
  - apply (Hb 2%nat 3); vm_compute; reflexivity.
Defined.

(** Reply generation where the next hop is linked: a router that receives
    a request addressed to itself, and whose [get_route_for] gives for the
    request's source a next hop [next] that is a direct neighbour, creates
    exactly
    one packet, the reply, and appends it to its output queue; the reply
    has the router as source, the request's source as destination, the
    request's connection and lifetime, [is_reply] set, [via = next] and
    the delay of the link to [next] plus [NEIGHBOUR_DELAY].  A reply that
    arrives at its destination is reported delivered, and no packet is
    created or queued. *)
Theorem reply_generation self i s p rest :
  input (rheap s !!! self) = p :: rest →
  destination (pheap s !!! p) = self →
  (∀ next d,
     is_reply (pheap s !!! p) = false →
     get_route_for (rheap s !!! self) (source (pheap s !!! p)) = Some next →
     connections (rheap s !!! self) !! next = Some d →
     ∃ s', process_packet self i s = Ok tt s' ∧
           pnext s' = S (pnext s) ∧
           output (rheap s' !!! self) = output (rheap s !!! self) ++ [pnext s] ∧
           input (rheap s' !!! self) = rest ∧
           pheap s' !!! pnext s =
             {| source := self;
                destination := source (pheap s !!! p);
                connection := connection (pheap s !!! p);
                via := Some next;
                delay := Some (d + NEIGHBOUR_DELAY);
                lifetime := lifetime (pheap s !!! p);
                is_reply := true |} ∧
           stdout s' = stdout s) ∧
  (is_reply (pheap s !!! p) = true →
     ∃ s', process_packet self i s = Ok tt s' ∧
           pnext s' = pnext s ∧
           pheap s' = pheap s ∧
           output (rheap s' !!! self) = output (rheap s !!! self) ∧
           input (rheap s' !!! self) = rest ∧
           stdout s' = stdout s ++
             [mkReport i (connection (pheap s !!! p)) (id (rheap s !!! self))
                (id (rheap s !!! source (pheap s !!! p)))
                (id (rheap s !!! self)) delivered]).
Proof.
  intros Hin Hdst.
  pose proof (process_packet_unfold self i s p rest Hin) as Hstep. cbn zeta in Hstep.
  rewrite Hdst, Nat.eqb_refl in Hstep.
  split.
  - intros next d Hrep Hroute Hd. rewrite Hrep, Hroute in Hstep. cbn in Hstep.
    rewrite Hd in Hstep. rewrite bool_decide_true in Hstep by eauto.
    eexists. split; [exact Hstep|]. cbn. heap_simpl. done.
  - intros Hrep. rewrite Hrep in Hstep.
    eexists. split; [exact Hstep|].
    rewrite !(id_upd_router self (set_input rest)) by done.
    cbn. heap_simpl. done.
Qed.

Lemma reply_generation_witness :
  (∃ s', process_packet 0 9 request_state = Ok tt s' ∧
         pnext s' = 2%nat ∧
         output (rheap s' !!! 0%nat) = [] ++ [1%nat] ∧
         input (rheap s' !!! 0%nat) = [] ∧
         pheap s' !!! 1%nat =
           {| source := 0%nat; destination := 2%nat;
              connection := Some "a"%string; via := Some 2%nat;
              delay := Some (3 + NEIGHBOUR_DELAY); lifetime := 0;
              is_reply := true |} ∧
         stdout s' = []) ∧
  (∃ s', process_packet 0 9 reply_state = Ok tt s' ∧
         pnext s' = 1%nat ∧
         pheap s' = pheap reply_state ∧
         output (rheap s' !!! 0%nat) = [] ∧
         input (rheap s' !!! 0%nat) = [] ∧
         stdout s' = [] ++ [mkReport 9 (Some "a"%string) 10 12 10 delivered]).
Proof.
  assert (H1 : input (rheap request_state !!! 0%nat) = [0%nat])
    by (vm_compute; reflexivity).
  assert (H2 : input (rheap reply_state !!! 0%nat) = [0%nat])
    by (vm_compute; reflexivity).
  destruct (reply_generation 0 9 request_state 0 [] H1) as (Ha & _);
    [vm_compute; reflexivity|].
  destruct (reply_generation 0 9 reply_state 0 [] H2) as (_ & Hb);
    [vm_compute; reflexivity|].
  split.
  - apply (Ha 2%nat 3); vm_compute; reflexivity.
  - apply Hb. vm_compute. reflexivity.
Defined.

(** C3, the defect in the reply branch: the router of
    [no_route_back_state] receives a request addressed to itself from
    router 3, to which it has no route.  [get_route_for] answers [None],
    and the lookup of the link delay raises [KeyError]: only the
    [delivered] line has been written to the standard error, no reply is
    created or queued, and nothing is reported on the standard output,
    where the forwarding of a packet without route reports the loss and
    goes on. *)
Lemma reply_generation_counterexample :
  destination (pheap no_route_back_state !!! 0%nat) = 0%nat ∧
  is_reply (pheap no_route_back_state !!! 0%nat) = false ∧
  input (rheap no_route_back_state !!! 0%nat) = [0%nat] ∧
  get_route_for (rheap no_route_back_state !!! 0%nat)
    (source (pheap no_route_back_state !!! 0%nat)) = None ∧
  (∃ s' pstr rstr,
     process_packet 0 1 no_route_back_state = Raise KeyError s' ∧
     output (rheap s' !!! 0%nat) = [] ∧
     pnext s' = pnext no_route_back_state ∧
     stdout s' = stdout no_route_back_state ∧
     stderr s' = stderr no_route_back_state ++ [err_delivered false pstr rstr]).
Proof.
  repeat split; try (vm_compute; reflexivity).
  eexists _, _, _. repeat split; vm_compute; reflexivity.
Qed.




(** A request that reaches its destination when [get_route_for] finds no
    next hop for its source. *)
Lemma request_no_route_raises self i s p rest :
  input (rheap s !!! self) = p :: rest →
  destination (pheap s !!! p) = self →
  is_reply (pheap s !!! p) = false →
  get_route_for (rheap s !!! self) (source (pheap s !!! p)) = None →
  let s0 := upd_router self (set_input rest) s in
  process_packet self i s =
    Raise KeyError
      (log_err (err_delivered false (Packet_str s0 p) (Router_str s0 self)) s0).
Proof.
  intros Hin Hdst Hrep Hroute.
  pose proof (process_packet_unfold self i s p rest Hin) as Hstep. cbn zeta in Hstep.
  by rewrite Hdst, Nat.eqb_refl, Hrep, Hroute in Hstep.
Qed.



(** A request whose source is its destination, at a router that is neither
    its own neighbour nor in its own table, has no route back. *)
Lemma request_to_self_raises self i s p rest :
  input (rheap s !!! self) = p :: rest →
  destination (pheap s !!! p) = self →
  source (pheap s !!! p) = self →
  is_reply (pheap s !!! p) = false →
  routes (rheap s !!! self) !! self = None →
  connections (rheap s !!! self) !! self = None →
  ∃ s', process_packet self i s = Raise KeyError s'.
Proof.
  intros Hin Hdst Hsrc Hrep Hr Hc. eexists.
  apply request_no_route_raises; [done..|].
  rewrite Hsrc. unfold get_route_for. by rewrite Hr, Hc.
Qed.


(** ** Rules for [wp] *)

Lemma wp_ret {A} (a : A) Qok Qex s : Qok a s → wp (mret a) Qok Qex s.
Proof. done. Qed.

Lemma wp_bind {A B} (m : M A) (k : A → M B) Qok Qex s :
  wp m (λ a s', wp (k a) Qok Qex s') Qex s → wp (m ≫= k) Qok Qex s.
Proof. unfold wp, mbind, M_bind, bind. by destruct (m s). Qed.

Lemma wp_gets {A} (f : State → A) Qok Qex s : Qok (f s) s → wp (gets f) Qok Qex s.
Proof. done. Qed.

Lemma wp_modify f Qok Qex s : Qok tt (f s) → wp (modify f) Qok Qex s.
Proof. done. Qed.

Lemma wp_raise {A} e (Qok : A → State → Prop) (Qex : Exn → State → Prop) s :
  Qex e s → wp (raise e) Qok Qex s.
Proof. done. Qed.

Lemma wp_mono {A} (m : M A) (Qok Qok' : A → State → Prop) Qex s :
  (∀ a s', Qok a s' → Qok' a s') → wp m Qok Qex s → wp m Qok' Qex s.
Proof. unfold wp. destruct (m s); eauto. Qed.

Lemma wp_ok {A} (m : M A) Qok Qex s a s' :
  m s = Ok a s' → Qok a s' → wp m Qok Qex s.
Proof. unfold wp. by intros ->. Qed.

Lemma wp_no_exn {A} (m : M A) Qok s :
  wp m Qok no_exn s ↔ ∃ a s', m s = Ok a s' ∧ Qok a s'.
Proof.
  unfold wp, no_exn. destruct (m s) as [a s'|e s']; split.
  - eauto.
  - by intros (? & ? & [= <- <-] & ?).
  - done.
  - by intros (? & ? & ? & ?).
Qed.

(** A loop keeps an invariant that each of its iterations keeps; [I k]
    holds after [k] iterations. *)
Lemma wp_repeatM n body (I : nat → State → Prop) Qex s :
  (∀ k s', (k < n)%nat → I k s' → wp body (λ _, I (S k)) Qex s') →
  I 0%nat s → wp (repeatM n body) (λ _, I n) Qex s.
Proof.
  revert I s. induction n as [|n IH]; intros I s Hbody H0; [done|].
  cbn. apply wp_bind. eapply wp_mono; [|apply (Hbody 0%nat); [lia|done]].
  intros ? s' HI. apply (IH (λ k, I (S k))); [|done].
  intros k s'' Hk. apply Hbody. lia.
Qed.

Lemma wp_repeatM_inv n body (I : State → Prop) Qex s :
  (∀ s', I s' → wp body (λ _, I) Qex s') →
  I s → wp (repeatM n body) (λ _, I) Qex s.
Proof. intros Hbody. apply (wp_repeatM n body (λ _, I)). eauto. Qed.

Lemma wp_forM {A} (l : list A) body (I : list A → State → Prop) Qex s :
  (∀ l1 x l2 s', l = l1 ++ x :: l2 → I l1 s' →
     wp (body x) (λ _, I (l1 ++ [x])) Qex s') →
  I [] s → wp (forM l body) (λ _, I l) Qex s.
Proof.
  revert I s. induction l as [|x l IH]; intros I s Hbody H0; [done|].
  cbn. apply wp_bind. eapply wp_mono; [|by apply (Hbody [] x l)].
  intros ? s' HI. apply (IH (λ l1, I (x :: l1))); [|done].
  intros l1 y l2 s'' Heq HI'. apply (Hbody (x :: l1) y l2); [by rewrite Heq|done].
Qed.

Lemma wp_forM_inv {A} (l : list A) body (I : State → Prop) Qex s :
  (∀ x s', x ∈ l → I s' → wp (body x) (λ _, I) Qex s') →
  I s → wp (forM l body) (λ _, I) Qex s.
Proof.
  intros Hbody. apply (wp_forM l body (λ _, I)).
  intros l1 x l2 s' Heq HI. apply Hbody; [|done]. rewrite Heq. set_solver.
Qed.

(** ** The loss phase *)

Lemma draw_dropped_all (Q : QArith_base.Q) random l k :
  (∀ n, Qle (random n) Q) → draw_dropped Q random l k = l.
Proof.
  intros Hle. revert k. induction l as [|p l IH]; intros k; cbn; [done|].
  destruct (Qle_bool (random k) Q) eqn:E.
  - by rewrite IH.
  - pose proof (Hle k) as H. apply Qle_bool_iff in H. congruence.
Qed.

Lemma draw_dropped_none (Q : QArith_base.Q) random l k :
  (∀ n, Qlt Q (random n)) → draw_dropped Q random l k = [].
Proof.
  intros Hlt. revert k. induction l as [|p l IH]; intros k; cbn; [done|].
  destruct (Qle_bool (random k) Q) eqn:E; [|apply IH].
  apply Qle_bool_iff in E. pose proof (Hlt k) as H.
  exfalso. by apply (Qlt_not_le _ _ H).
Qed.

Lemma draw_dropped_ext (Q : QArith_base.Q) random random' l k :
  (∀ n, Qle_bool (random n) Q = Qle_bool (random' n) Q) →
  draw_dropped Q random l k = draw_dropped Q random' l k.
Proof.
  intros H. revert k. induction l as [|p l IH]; intros k; cbn; [done|].
  by rewrite H, IH.
Qed.

Lemma draw_dropped_sublist (Q : QArith_base.Q) random l k :
  draw_dropped Q random l k ⊆ l.
Proof.
  revert k. induction l as [|p l IH]; intros k; cbn; [done|].
  intros x. destruct (Qle_bool (random k) Q); rewrite ?elem_of_cons;
    intros; pose proof (IH (S k) x); tauto.
Qed.

Lemma report_dropped_unfold i p s :
  report_dropped i p s =
    match via (pheap s !!! p) with
    | Some v => Ok tt (report_lost i p v s)
    | None => Raise AttributeError (log_err (err_dropped (Packet_str s p)) s)
    end.
Proof.
  unfold report_dropped. run_m. by destruct (via (pheap s !!! p)).
Qed.

Lemma drop_packets_unfold Q random i s :
  Network_drop_packets Q random i s =
    let dropped := draw_dropped Q random (packets s) (drawn s) in
    match forM dropped (report_dropped i)
               (set_drawn (drawn s + length (packets s)) s) with
    | Ok _ s' =>
        Ok tt (set_packets (filter (λ packet, packet ∉ dropped) (packets s')) s')
    | Raise e s' => Raise e s'
    end.
Proof. reflexivity. Qed.

Lemma filter_not_in_nil (l : list nat) : filter (λ p, p ∉ []) l = l.
Proof.
  induction l as [|p l IH]; [done|].
  rewrite filter_cons_True by set_solver. by rewrite IH.
Qed.

(** Without a dropped packet the loss phase only counts its draws. *)
Lemma drop_packets_none Q random i s :
  (∀ n, Qlt Q (random n)) →
  Network_drop_packets Q random i s =
    Ok tt (set_drawn (drawn s + length (packets s)) s).
Proof.
  intros Hlt. rewrite drop_packets_unfold. cbn zeta.
  rewrite draw_dropped_none by done. cbn.
  rewrite filter_not_in_nil. by destruct s.
Qed.

Lemma lost_reports_cons i p l s :
  lost_reports i (p :: l) s =
    lost_reports i l (match via (pheap s !!! p) with
                      | Some v => report_lost i p v s
                      | None => s
                      end).
Proof. done. Qed.

Lemma lost_reports_frame i l s :
  pheap (lost_reports i l s) = pheap s ∧
  rheap (lost_reports i l s) = rheap s ∧
  pnext (lost_reports i l s) = pnext s ∧
  packets (lost_reports i l s) = packets s ∧
  routers (lost_reports i l s) = routers s ∧
  drawn (lost_reports i l s) = drawn s.
Proof.
  revert s. induction l as [|p l IH]; intros s; [done|].
  rewrite lost_reports_cons. destruct (via (pheap s !!! p)) as [v|]; [|apply IH].
  destruct (IH (report_lost i p v s)) as (-> & -> & -> & -> & -> & ->). done.
Qed.

Lemma lost_reports_stdout i l s :
  Forall (λ p, is_Some (via (pheap s !!! p))) l →
  stdout (lost_reports i l s) = stdout s ++ (lost_line i s <$> l).
Proof.
  revert s. induction l as [|p l IH]; intros s Hl.
  - cbn. by rewrite app_nil_r.
  - inversion Hl as [|? ? [v Hv] Hl']; subst. rewrite lost_reports_cons, Hv.
    rewrite IH by done. cbn. rewrite <- app_assoc. cbn.
    unfold lost_line at 2. rewrite Hv. cbn. done.
Qed.

Lemma drop_reports_ok i l s :
  Forall (λ p, is_Some (via (pheap s !!! p))) l →
  forM l (report_dropped i) s = Ok tt (lost_reports i l s).
Proof.
  revert s. induction l as [|p l IH]; intros s Hl; [done|].
  inversion Hl as [|? ? [v Hv] Hl']; subst.
  rewrite lost_reports_cons, Hv. cbn.
  unfold mbind, M_bind, bind. rewrite report_dropped_unfold, Hv.
  by rewrite IH.
Qed.

Lemma filter_not_in_self (l : list nat) : filter (λ p, p ∉ l) l = [].
Proof.
  assert (H : ∀ l', l' ⊆ l → filter (λ p, p ∉ l) l' = []); [|by apply H].
  induction l' as [|p l' IH]; intros Hl'; [done|].
  rewrite filter_cons_False by set_solver. apply IH. set_solver.
Qed.

(** With [Q = 1] every draw below 1 fires: the loss phase removes every
    packet in transit and reports each of them lost. *)
Lemma loss_phase_Q1 random i s :
  (∀ n, Qlt (random n) 1) →
  Forall (λ p, is_Some (via (pheap s !!! p))) (packets s) →
  ∃ s', Network_drop_packets 1 random i s = Ok tt s' ∧
        packets s' = [] ∧
        stdout s' = stdout s ++ (lost_line i s <$> packets s) ∧
        pheap s' = pheap s ∧ rheap s' = rheap s.
Proof.
  intros Hlt Hvia. rewrite drop_packets_unfold. cbn zeta.
  rewrite draw_dropped_all by (intros n; apply Qlt_le_weak, Hlt).
  rewrite drop_reports_ok by done.
  eexists. split; [done|]. cbn.
  destruct (lost_reports_frame i (packets s)
              (set_drawn (drawn s + length (packets s)) s))
    as (-> & -> & _ & -> & _).
  rewrite lost_reports_stdout by done. cbn.
  by rewrite filter_not_in_self.
Qed.

(** With [Q = 0] a draw above 0 does not fire: the loss phase removes no
    packet and writes nothing. *)
Lemma loss_phase_Q0 random i s :
  (∀ n, Qlt 0 (random n)) →
  ∃ s', Network_drop_packets 0 random i s = Ok tt s' ∧
        packets s' = packets s ∧
        stdout s' = stdout s ∧ stderr s' = stderr s ∧
        pheap s' = pheap s ∧ rheap s' = rheap s.
Proof. intros Hlt. rewrite drop_packets_none by done. by eexists. Qed.

(** C5, the loss phase at [Q = 0]: the comparison is
    [random.random() <= Q], so a draw of exactly 0, which
    [random.random()] can return, fires although the drop ratio is 0.  The
    packet in transit of [in_transit_state] is removed and reported
    lost. *)
Theorem loss_phase_Q0_zero_draw :
  ∃ s', Network_drop_packets 0 (λ _, 0%Q) 3 in_transit_state = Ok tt s' ∧
        packets in_transit_state = [0%nat] ∧
        packets s' = [] ∧
        stdout s' = [mkReport 3 (Some "a"%string) 2 1 2 lost].
Proof. eexists. repeat split; vm_compute; reflexivity. Qed.

(** ** The run *)

Lemma drop_packets_ext Q random random' i s :
  (∀ n, Qle_bool (random n) Q = Qle_bool (random' n) Q) →
  Network_drop_packets Q random i s = Network_drop_packets Q random' i s.
Proof.
  intros H. rewrite !drop_packets_unfold. cbn zeta.
  by rewrite (draw_dropped_ext Q random random').
Qed.

Lemma tick_ext Q random random' i s :
  (∀ n, Qle_bool (random n) Q = Qle_bool (random' n) Q) →
  Network_tick Q random i s = Network_tick Q random' i s.
Proof.
  intros H. unfold Network_tick, mbind, M_bind, bind. cbn.
  by rewrite (drop_packets_ext Q random random').
Qed.

Lemma run_loop_ext Q random random' fuel i s :
  (∀ n, Qle_bool (random n) Q = Qle_bool (random' n) Q) →
  run_loop Q random fuel i s = run_loop Q random' fuel i s.
Proof.
  intros H. revert i s. induction fuel as [|fuel IH]; intros i s; [done|].
  cbn. rewrite (tick_ext Q random random') by done.
  destruct (Network_tick Q random' (i + 1) s); [|done].
  destruct (Network_finished s0); [done|]. apply IH.
Qed.

(** More fuel does not change the result of a run that ended. *)
Lemma run_loop_fuel Q random fuel fuel' i s r :
  (fuel ≤ fuel')%nat →
  run_loop Q random fuel i s = Some r → run_loop Q random fuel' i s = Some r.
Proof.
  revert fuel' i s. induction fuel as [|fuel IH]; intros fuel' i s Hle; [done|].
  destruct fuel' as [|fuel']; [lia|]. cbn.
  destruct (Network_tick Q random (i + 1) s); [|done].
  destruct (Network_finished s0); [done|]. apply IH. lia.
Qed.

Lemma positive_draw_no_drop (random : nat → QArith_base.Q) :
  (∀ n, Qlt 0 (random n)) →
  ∀ n, Qle_bool (random n) 0 = Qle_bool ((λ _, 1%Q) n) 0.
Proof.
  intros Hlt n. destruct (Qle_bool (random n) 0) eqn:E; [|done].
  apply Qle_bool_iff in E. exfalso. by apply (Qlt_not_le _ _ (Hlt n)).
Qed.

(** C2 (amended), the line scenario: with [Q = 0] and no draw equal to 0,
    the request from router 1 to router 3 is assigned, in this order, the
    delays [11 + DISTANT_DELAY] at router 1 (next hop 2, destination 3 is
    not a neighbour of router 1), [5 + NEIGHBOUR_DELAY] at router 2 (next
    hop 3), then as a reply [5 + NEIGHBOUR_DELAY] at router 3 (next hop 2,
    a neighbour of router 3) and [11 + NEIGHBOUR_DELAY] at router 2 (next
    hop 1); the run ends at tick 38 with exactly one line on the standard
    output, the delivery at router 1 for that connection. *)
Theorem line_scenario random conn fuel :
  (∀ n, Qlt 0 (random n)) →
  (38 ≤ fuel)%nat →
  ∃ s', Network_run 0 random fuel (line_network conn) = Some (Ok tt s') ∧
        assigned_hops (stderr s') =
          [(1, Some 2, Some (11 + DISTANT_DELAY));
           (2, Some 3, Some (5 + NEIGHBOUR_DELAY));
           (3, Some 2, Some (5 + NEIGHBOUR_DELAY));
           (2, Some 1, Some (11 + NEIGHBOUR_DELAY))] ∧
        stdout s' = [mkReport 38 conn 1 3 1 delivered].
Proof.
  intros Hpos Hfuel. unfold Network_run.
  assert (Hr : ∃ s', run_loop 0 (λ _, 1%Q) 38 0 (line_network conn)
                       = Some (Ok tt s') ∧
                     assigned_hops (stderr s') =
                       [(1, Some 2, Some (11 + DISTANT_DELAY));
                        (2, Some 3, Some (5 + NEIGHBOUR_DELAY));
                        (3, Some 2, Some (5 + NEIGHBOUR_DELAY));
                        (2, Some 1, Some (11 + NEIGHBOUR_DELAY))] ∧
                     stdout s' = [mkReport 38 conn 1 3 1 delivered]).
  { eexists. split; [vm_compute; reflexivity|]. split; vm_compute; reflexivity. }
  destruct Hr as (s' & Hr & Hhops & Hout). exists s'.
  split; [|exact (conj Hhops Hout)].
  apply (run_loop_fuel 0 random 38 fuel 0 _ _ Hfuel).
  rewrite <- Hr. apply run_loop_ext. apply positive_draw_no_drop, Hpos.
Qed.

Lemma line_scenario_witness :
  ∃ s', Network_run 0 (λ _, (1 # 2)%Q) 40 (line_network (Some "c1"%string))
          = Some (Ok tt s') ∧
        assigned_hops (stderr s') =
          [(1, Some 2, Some (11 + DISTANT_DELAY));
           (2, Some 3, Some (5 + NEIGHBOUR_DELAY));
           (3, Some 2, Some (5 + NEIGHBOUR_DELAY));
           (2, Some 1, Some (11 + NEIGHBOUR_DELAY))] ∧
        stdout s' = [mkReport 38 (Some "c1"%string) 1 3 1 delivered].
Proof.
  apply (line_scenario (λ _, (1 # 2)%Q) (Some "c1"%string) 40).
  - intros n. reflexivity.
  - lia.
Defined.

(** C2, as stated, fails: in the run of the line scenario the delays
    assigned are 13, 6, 6 and 12, not [11+1], [5+1], [5+2] and [11+1]. *)
Lemma line_scenario_counterexample :
  ∃ s', Network_run 0 (λ _, (1 # 2)%Q) 38 (line_network (Some "c1"%string))
          = Some (Ok tt s') ∧
        (assigned_hops (stderr s')).*2 = [Some 13; Some 6; Some 6; Some 12] ∧
        (assigned_hops (stderr s')).*2 ≠ [Some (11 + 1); Some (5 + 1);
                                          Some (5 + 2); Some (11 + 1)].
Proof.
  eexists. split; [vm_compute; reflexivity|].
  split; [vm_compute; reflexivity|]. vm_compute. discriminate.
Qed.

(** ** The loop bodies of the Network, case by case *)

Lemma deliver_packet_unfold s p rest :
  packets s = p :: rest →
  let s1 := upd_packet p tick_lifetime (upd_packet p tick_delay (set_packets rest s)) in
  deliver_packet s =
    match delay (pheap s !!! p) with
    | Some d =>
        if d - 1 <=? 0 then
          match via (pheap s !!! p) with
          | Some v => Ok tt (upd_packet p (set_via None) (upd_router v (push_input p) s1))
          | None => Raise AttributeError s1
          end
        else Ok tt (set_packets (rest ++ [p]) s1)
    | None => Ok tt s1
    end.
Proof.
  intros Hp. unfold deliver_packet, Packet_tick, append_packets.
  unfold mbind, M_bind, bind at 1. unfold pop_packets. rewrite Hp.
  run_m. heap_simpl. cbn.
  destruct (delay (pheap s !!! p)) as [d|]; cbn; [|reflexivity].
  destruct (d - 1 <=? 0); [|reflexivity].
  rewrite !pheap_upd_packet_eq. cbn.
  destruct (via (pheap s !!! p)); reflexivity.
Qed.

Lemma deliver_packet_empty s :
  packets s = [] → deliver_packet s = Raise IndexError s.
Proof.
  intros Hp. unfold deliver_packet.
  unfold mbind, M_bind, bind at 1. unfold pop_packets. by rewrite Hp.
Qed.

Lemma transmit_packet_unfold r s p rest :
  output (rheap s !!! r) = p :: rest →
  transmit_packet r s =
    Ok tt (set_packets (packets s ++ [p]) (upd_router r (set_output rest) s)).
Proof.
  intros Ho. unfold transmit_packet, append_packets.
  unfold mbind, M_bind, bind at 1. unfold pop_output. by rewrite Ho.
Qed.

Lemma transmit_packet_empty r s :
  output (rheap s !!! r) = [] → transmit_packet r s = Raise IndexError s.
Proof.
  intros Ho. unfold transmit_packet.
  unfold mbind, M_bind, bind at 1. unfold pop_output. by rewrite Ho.
Qed.

Lemma process_packet_empty self i s :
  input (rheap s !!! self) = [] → process_packet self i s = Raise IndexError s.
Proof.
  intros Hi. unfold process_packet.
  unfold mbind, M_bind, bind at 1. unfold pop_input. by rewrite Hi.
Qed.

Lemma inject_packet_unfold s p rest :
  packets s = p :: rest →
  inject_packet s =
    Ok tt (upd_router (source (pheap s !!! p)) (push_input p) (set_packets rest s)).
Proof.
  intros Hp. unfold inject_packet.
  unfold mbind, M_bind, bind at 1. unfold pop_packets. by rewrite Hp.
Qed.

Lemma inject_packet_empty s :
  packets s = [] → inject_packet s = Raise IndexError s.
Proof.
  intros Hp. unfold inject_packet.
  unfold mbind, M_bind, bind at 1. unfold pop_packets. by rewrite Hp.
Qed.

(** ** Conservation of the packets *)

Lemma queued_frame L s s' : rheap s' = rheap s → queued L s' = queued L s.
Proof. unfold queued. by intros ->. Qed.

Lemma queued_insert L r R s s' :
  NoDup L →
  rheap s' = <[r := R]> (rheap s) →
  (queued L s' + (if decide (r ∈ L) then queue_len (rheap s !!! r) else 0) =
   queued L s + (if decide (r ∈ L) then queue_len R else 0))%nat.
Proof.
  intros HL Hs'. unfold queued. rewrite Hs'. clear Hs'.
  induction HL as [|a L Ha HL IH]; [by rewrite decide_False by set_solver|].
  cbn. destruct (decide (a = r)) as [->|Hne].
  - rewrite lookup_total_insert_eq.
    repeat case_decide; try lia; set_solver.
  - rewrite lookup_total_insert_ne by done.
    repeat case_decide; try lia; set_solver.
Qed.

Lemma requests_delivered_snoc log line :
  requests_delivered (log ++ [line]) =
    (requests_delivered log + if is_request_delivery line then 1 else 0)%nat.
Proof.
  unfold requests_delivered. rewrite list.filter_app, length_app. f_equal.
  destruct (is_request_delivery line) eqn:E.
  - by rewrite filter_cons_True.
  - rewrite filter_cons_False; [done|]. by rewrite E.
Qed.

(** The invariant after a change of the queues of one router. *)
Lemma conserving_step rs n c s s' r R :
  conserving rs n c s →
  routers s' = routers s →
  rheap s' = <[r := R]> (rheap s) →
  (r ∈ rs → length (packets s') + queue_len R ≤
            length (packets s) + queue_len (rheap s !!! r))%nat →
  (r ∉ rs → length (packets s') ≤ length (packets s))%nat →
  (pnext s' + requests_delivered (stderr s) =
   pnext s + requests_delivered (stderr s'))%nat →
  conserving rs n c s'.
Proof.
  intros (Hrs & Hn & Hc) Hrs' Hheap Hin Hout Hnew.
  split; [congruence|]. split; [|lia].
  pose proof (queued_insert (remove_dups rs) r R s s'
                (NoDup_remove_dups rs) Hheap) as Hq.
  destruct (decide (r ∈ remove_dups rs)) as [Hr|Hr];
    rewrite elem_of_remove_dups in Hr.
  - specialize (Hin Hr). lia.
  - specialize (Hout Hr). lia.
Qed.

(** The invariant after a change that leaves the queues of the routers as
    they are. *)
Lemma conserving_frame rs n c s s' :
  conserving rs n c s →
  routers s' = routers s →
  rheap s' = rheap s →
  (length (packets s') ≤ length (packets s))%nat →
  (pnext s' + requests_delivered (stderr s) =
   pnext s + requests_delivered (stderr s'))%nat →
  conserving rs n c s'.
Proof.
  intros (Hrs & Hn & Hc) Hrs' Hheap Hlen Hnew.
  split; [congruence|]. split; [|lia].
  rewrite (queued_frame _ s s') by done. lia.
Qed.

Lemma conserving_log_err rs n c s line :
  is_request_delivery line = false →
  conserving rs n c s → conserving rs n c (log_err line s).
Proof.
  intros Hline HK. apply (conserving_frame rs n c s); [done..|].
  cbn. rewrite requests_delivered_snoc, Hline. lia.
Qed.

Lemma process_packet_conserving rs n c self i s :
  conserving rs n c s →
  wp (process_packet self i) (λ _, conserving rs n c) any_exn s.
Proof.
  intros HK. unfold wp.
  destruct (input (rheap s !!! self)) as [|p rest] eqn:Hin.
  { by rewrite process_packet_empty. }
  rewrite (process_packet_unfold self i s p rest Hin). cbn zeta.
  destruct (destination (pheap s !!! p) =? self)%nat.
  - destruct (is_reply (pheap s !!! p)).
    + eapply (conserving_step rs n c s _ self); [done|done|reflexivity|..].
      * intros _. unfold queue_len. cbn. rewrite Hin. cbn. lia.
      * done.
      * cbn. rewrite requests_delivered_snoc. cbn. lia.
    + destruct (get_route_for (rheap s !!! self) (source (pheap s !!! p))
                  ≫= (connections (rheap s !!! self) !!.)) as [d|]; [|done].
      eapply (conserving_step rs n c s _ self); [done|done|..].
      * cbn. heap_simpl. by rewrite insert_insert_eq.
      * intros _. unfold queue_len. cbn. rewrite Hin, length_app. cbn. lia.
      * done.
      * cbn. rewrite requests_delivered_snoc. cbn. lia.
  - destruct (connections (rheap s !!! self) !! destination (pheap s !!! p)) as [d|].
    + eapply (conserving_step rs n c s _ self); [done|done|..].
      * cbn. heap_simpl. by rewrite insert_insert_eq.
      * intros _. unfold queue_len. cbn. rewrite Hin, length_app. cbn. lia.
      * done.
      * cbn. lia.
    + destruct (routes (rheap s !!! self) !! destination (pheap s !!! p)) as [next|].
      * destruct (connections (rheap s !!! self) !! next) as [d|]; [|done].
        eapply (conserving_step rs n c s _ self); [done|done|..].
        -- cbn. heap_simpl. by rewrite insert_insert_eq.
        -- intros _. unfold queue_len. cbn. rewrite Hin, length_app. cbn. lia.
        -- done.
        -- cbn. lia.
      * eapply (conserving_step rs n c s _ self); [done|done|reflexivity|..].
        -- intros _. unfold queue_len. cbn. rewrite Hin. cbn. lia.
        -- done.
        -- cbn. rewrite requests_delivered_snoc. cbn. lia.
Qed.

Lemma deliver_packet_conserving rs n c s :
  conserving rs n c s → wp deliver_packet (λ _, conserving rs n c) any_exn s.
Proof.
  intros HK. unfold wp.
  destruct (packets s) as [|p rest] eqn:Hp.
  { by rewrite deliver_packet_empty. }
  rewrite (deliver_packet_unfold s p rest Hp). cbn zeta.
  destruct (delay (pheap s !!! p)) as [d|].
  - destruct (d - 1 <=? 0).
    + destruct (via (pheap s !!! p)) as [v|]; [|done].
      eapply (conserving_step rs n c s _ v); [done|done|reflexivity|..].
      * intros _. unfold queue_len. cbn. rewrite Hp, length_app. cbn. lia.
      * intros _. cbn. rewrite Hp. cbn. lia.
      * cbn. lia.
    + apply (conserving_frame rs n c s); [done..| |done].
      cbn. rewrite Hp, length_app. cbn. lia.
  - apply (conserving_frame rs n c s); [done..| |done].
    cbn. rewrite Hp. cbn. lia.
Qed.

Lemma transmit_packet_conserving rs n c r s :
  r ∈ rs →
  conserving rs n c s → wp (transmit_packet r) (λ _, conserving rs n c) any_exn s.
Proof.
  intros Hr HK. unfold wp.
  destruct (output (rheap s !!! r)) as [|p rest] eqn:Ho.
  { by rewrite transmit_packet_empty. }
  rewrite (transmit_packet_unfold r s p rest Ho).
  eapply (conserving_step rs n c s _ r); [done|done|reflexivity|..].
  - intros _. unfold queue_len. cbn. rewrite Ho, length_app. cbn. lia.
  - done.
  - cbn. lia.
Qed.

Lemma report_dropped_conserving rs n c i p s :
  conserving rs n c s → wp (report_dropped i p) (λ _, conserving rs n c) any_exn s.
Proof.
  intros HK. unfold wp. rewrite report_dropped_unfold.
  destruct (via (pheap s !!! p)) as [v|]; [|done].
  apply (conserving_frame rs n c s); [done..|].
  cbn. rewrite requests_delivered_snoc. cbn. lia.
Qed.

(** Stepping through a sequence of statements that keep an invariant. *)
Ltac wp_seq I tac :=
  apply wp_bind; apply (wp_mono _ (λ _, I));
  [ let s' := fresh "s" in let H := fresh "HK" in intros ? s' H; cbn beta
  | tac ].

Lemma drop_packets_conserving Q random rs n c i s :
  conserving rs n c s →
  wp (Network_drop_packets Q random i) (λ _, conserving rs n c) any_exn s.
Proof.
  intros HK. unfold Network_drop_packets.
  apply wp_bind, wp_gets. apply wp_bind, wp_gets. cbn zeta.
  wp_seq (conserving rs n c) ltac:(apply wp_modify; by apply (conserving_frame rs n c s)).
  wp_seq (conserving rs n c) ltac:(apply wp_forM_inv; [|exact HK0];
               intros; by apply report_dropped_conserving).
  apply wp_modify. apply (conserving_frame rs n c s1); [done..| |done].
  cbn. apply length_filter.
Qed.

Lemma deliver_packets_conserving rs n c i s :
  conserving rs n c s →
  wp (Network_deliver_packets i) (λ _, conserving rs n c) any_exn s.
Proof.
  intros HK. unfold Network_deliver_packets. apply wp_bind, wp_gets.
  apply wp_repeatM_inv; [|done]. intros. by apply deliver_packet_conserving.
Qed.

Lemma process_incoming_packets_conserving rs n c i s :
  conserving rs n c s →
  wp (Network_process_incoming_packets i) (λ _, conserving rs n c) any_exn s.
Proof.
  intros HK. unfold Network_process_incoming_packets. apply wp_bind, wp_gets.
  apply wp_forM_inv; [|done]. intros r s' _ HK'.
  unfold Router_process_incoming_packets. apply wp_bind, wp_gets.
  apply wp_repeatM_inv; [|done]. intros. by apply process_packet_conserving.
Qed.

Lemma transmit_packets_conserving rs n c i s :
  conserving rs n c s →
  wp (Network_transmit_packets i) (λ _, conserving rs n c) any_exn s.
Proof.
  intros HK. unfold Network_transmit_packets. apply wp_bind, wp_gets.
  destruct HK as (Hrs & HK). rewrite Hrs.
  apply wp_forM_inv; [|done]. intros r s' Hr HK'.
  apply wp_bind, wp_gets.
  apply wp_repeatM_inv; [|done]. intros. by apply transmit_packet_conserving.
Qed.

Lemma print_state_conserving rs n c (line : State → ErrLine) s :
  (∀ s', is_request_delivery (line s') = false) →
  conserving rs n c s →
  wp (s' ← gets (λ s', s'); print_err (line s')) (λ _, conserving rs n c) any_exn s.
Proof.
  intros Hline HK. apply wp_bind, wp_gets, wp_modify.
  by apply conserving_log_err.
Qed.

Lemma tick_conserving Q random rs n c i s :
  conserving rs n c s →
  wp (Network_tick Q random i) (λ _, conserving rs n c) any_exn s.
Proof.
  intros HK. unfold Network_tick.
  wp_seq (conserving rs n c) ltac:(apply wp_modify; by apply conserving_log_err).
  wp_seq (conserving rs n c) ltac:(by apply (print_state_conserving rs n c
                 (λ s, err_pre_deliver (Packet_str s <$> packets s)))).
  wp_seq (conserving rs n c) ltac:(by apply drop_packets_conserving).
  wp_seq (conserving rs n c) ltac:(by apply deliver_packets_conserving).
  wp_seq (conserving rs n c) ltac:(by apply (print_state_conserving rs n c
                 (λ s, err_post_deliver (Router_str s <$> routers s)))).
  wp_seq (conserving rs n c) ltac:(by apply process_incoming_packets_conserving).
  wp_seq (conserving rs n c) ltac:(by apply (print_state_conserving rs n c
                 (λ s, err_pre_transmit (Router_str s <$> routers s)))).
  wp_seq (conserving rs n c) ltac:(by apply transmit_packets_conserving).
  by apply (print_state_conserving rs n c
              (λ s, err_post_transmit (Packet_str s <$> packets s))).
Qed.

Lemma conserving_self s :
  conserving (routers s) (live s)
    (Z.of_nat (pnext s) - Z.of_nat (requests_delivered (stderr s))) s.
Proof. done. Qed.

Lemma conserving_conserved s s' :
  conserving (routers s) (live s)
    (Z.of_nat (pnext s) - Z.of_nat (requests_delivered (stderr s))) s' →
  conserved s s'.
Proof.
  intros (Hrs & Hn & Hc). split; [done|]. unfold live in *. rewrite Hrs. split; lia.
Qed.

Lemma conserved_of_invariant {A} (m : M A) s :
  (∀ rs n c, conserving rs n c s → wp m (λ _, conserving rs n c) any_exn s) →
  wp m (λ _, conserved s) any_exn s.
Proof.
  intros H. eapply wp_mono; [|apply H, conserving_self].
  intros ? s'. apply conserving_conserved.
Qed.

(** C7, conservation: over a tick the number of live packets (in transit
    and in the queues of the network's routers) does not grow, and the
    Packet objects created are exactly the replies to the requests
    delivered in the tick; the same holds for each of the four phases, so
    no phase duplicates a packet. *)
Theorem conservation Q random i s :
  wp (Network_tick Q random i) (λ _, conserved s) any_exn s ∧
  wp (Network_drop_packets Q random i) (λ _, conserved s) any_exn s ∧
  wp (Network_deliver_packets i) (λ _, conserved s) any_exn s ∧
  wp (Network_process_incoming_packets i) (λ _, conserved s) any_exn s ∧
  wp (Network_transmit_packets i) (λ _, conserved s) any_exn s.
Proof.
  repeat split; apply conserved_of_invariant; intros rs n c HK.
  - by apply tick_conserving.
  - by apply drop_packets_conserving.
  - by apply deliver_packets_conserving.
  - by apply process_incoming_packets_conserving.
  - by apply transmit_packets_conserving.
Qed.

(** ** The invariant of the packets *)

Lemma placed_ext q q' n : (∀ pl, q' pl = q pl) → placed q n → placed q' n.
Proof.
  intros Hq ((Hnd & Hdisj) & Hal). split; [split|].
  - intros pl. rewrite Hq. apply Hnd.
  - intros pl pl' p. rewrite !Hq. apply Hdisj.
  - intros pl p. rewrite Hq. apply Hal.
Qed.

Lemma sendable_ext q q' h : (∀ pl, q' pl = q pl) → sendable q h → sendable q' h.
Proof. intros Hq Hsend pl p. rewrite Hq. apply Hsend. Qed.

Lemma nowhere_ext q q' p : (∀ pl, q' pl = q pl) → nowhere q p → nowhere q' p.
Proof. intros Hq Hno pl. rewrite Hq. apply Hno. Qed.

(** Taking packets out of the containers keeps the invariant. *)
Lemma placed_sublist q q' n :
  (∀ pl, q' pl `sublist_of` q pl) → placed q n → placed q' n.
Proof.
  intros Hq ((Hnd & Hdisj) & Hal). split; [split|].
  - intros pl. eapply sublist_NoDup; [apply Hnd|apply Hq].
  - intros pl pl' p Hp Hp'. apply (Hdisj pl pl' p).
    + eapply elem_of_sublist; [exact Hp|apply Hq].
    + eapply elem_of_sublist; [exact Hp'|apply Hq].
  - intros pl p Hp. apply (Hal pl). eapply elem_of_sublist; [exact Hp|apply Hq].
Qed.

Lemma sendable_sublist q q' h :
  (∀ pl, q' pl `sublist_of` q pl) → sendable q h → sendable q' h.
Proof.
  intros Hq Hsend pl p Hs Hp. apply (Hsend pl); [done|].
  eapply elem_of_sublist; [exact Hp|apply Hq].
Qed.

Lemma with_queue_sublist q pl l :
  l `sublist_of` q pl → ∀ pl', with_queue q pl l pl' `sublist_of` q pl'.
Proof. intros Hl pl'. unfold with_queue. case_decide; by subst. Qed.

(** The head of a container taken in hand. *)
Lemma placed_pop q n pl p rest :
  placed q n →
  q pl = p :: rest →
  placed (with_queue q pl rest) n ∧ nowhere (with_queue q pl rest) p ∧ (p < n)%nat.
Proof.
  intros Hpl Hq. split; [|split].
  - eapply placed_sublist; [|done]. apply with_queue_sublist.
    rewrite Hq. by apply sublist_cons.
  - destruct Hpl as ((Hnd & Hdisj) & _). intros pl' Hp.
    unfold with_queue in Hp. case_decide as Hpl.
    + pose proof (Hnd pl) as Hnd'. rewrite Hq in Hnd'.
      apply list.NoDup_cons in Hnd' as [Hnd' _]. done.
    + apply Hpl, (Hdisj pl' pl p); [done|]. rewrite Hq. by left.
  - destruct Hpl as (_ & Hal). apply (Hal pl). rewrite Hq. by left.
Qed.

Lemma sendable_pop q h pl p rest :
  sendable q h →
  q pl = p :: rest →
  sendable (with_queue q pl rest) h ∧ (sends pl → routed (h !!! p)).
Proof.
  intros Hsend Hq. split.
  - eapply sendable_sublist; [|done]. apply with_queue_sublist.
    rewrite Hq. by apply sublist_cons.
  - intros Hs. apply (Hsend pl); [done|]. rewrite Hq. by left.
Qed.

Lemma elem_of_with_queue_push q pl p pl' x :
  x ∈ with_queue q pl (q pl ++ [p]) pl' → x ∈ q pl' ∨ (x = p ∧ pl' = pl).
Proof.
  unfold with_queue. case_decide as Hpl; [subst|by left].
  rewrite elem_of_app, list_elem_of_singleton. tauto.
Qed.

(** A packet in hand appended to a container. *)
Lemma placed_push q n pl p :
  placed q n → nowhere q p → (p < n)%nat →
  placed (with_queue q pl (q pl ++ [p])) n.
Proof.
  intros ((Hnd & Hdisj) & Hal) Hno Hlt. split; [split|].
  - intros pl'. unfold with_queue. case_decide as Hpl; [subst|apply Hnd].
    apply list.NoDup_app. split; [apply Hnd|]. split; [|apply NoDup_singleton].
    intros x Hx ->%list_elem_of_singleton. by apply (Hno pl).
  - intros pl1 pl2 x H1 H2.
    destruct (elem_of_with_queue_push _ _ _ _ _ H1) as [H1'|[-> ->]],
             (elem_of_with_queue_push _ _ _ _ _ H2) as [H2'|[? ?]].
    + by apply (Hdisj pl1 pl2 x).
    + subst. by destruct (Hno pl1).
    + by destruct (Hno pl2).
    + done.
  - intros pl' x Hx.
    destruct (elem_of_with_queue_push _ _ _ _ _ Hx) as [Hx'|[-> ->]];
      [by apply (Hal pl')|done].
Qed.

Lemma sendable_push q h pl p :
  sendable q h → (sends pl → routed (h !!! p)) →
  sendable (with_queue q pl (q pl ++ [p])) h.
Proof.
  intros Hsend Hrouted pl' x Hs Hx.
  destruct (elem_of_with_queue_push _ _ _ _ _ Hx) as [Hx'|[-> ->]];
    [by apply (Hsend pl')|by apply Hrouted].
Qed.

(** An assignment to a field of a packet in hand. *)
Lemma sendable_write q h p pk :
  sendable q h → nowhere q p → sendable q (<[p := pk]> h).
Proof.
  intros Hsend Hno pl x Hs Hx.
  rewrite lookup_total_insert_ne; [by apply (Hsend pl)|].
  intros ->. by apply (Hno pl).
Qed.

(** The identity of the next Packet object is in no container. *)
Lemma placed_fresh q n : placed q n → nowhere q n.
Proof. intros (_ & Hal) pl Hn. specialize (Hal pl n Hn). lia. Qed.

Lemma placed_alloc q n : placed q n → placed q (S n).
Proof.
  intros (Hsep & Hal). split; [done|].
  intros pl x Hx. specialize (Hal pl x Hx). lia.
Qed.

(** ** The containers after an update of the state *)

Lemma queue_set_packets l s pl :
  queue (set_packets l s) pl = with_queue (queue s) in_transit l pl.
Proof. unfold with_queue. destruct pl; by case_decide. Qed.

Lemma queue_set_input r l s pl :
  queue (upd_router r (set_input l) s) pl = with_queue (queue s) (in_input r) l pl.
Proof.
  unfold with_queue. destruct pl as [|r'|r']; cbn.
  - by rewrite decide_False.
  - destruct (decide (r' = r)) as [->|Hne].
    + rewrite decide_True by done. by heap_simpl.
    + rewrite decide_False by congruence. by heap_simpl.
  - rewrite decide_False by done.
    destruct (decide (r' = r)) as [->|Hne]; by heap_simpl.
Qed.

Lemma queue_set_output r l s pl :
  queue (upd_router r (set_output l) s) pl = with_queue (queue s) (in_output r) l pl.
Proof.
  unfold with_queue. destruct pl as [|r'|r']; cbn.
  - by rewrite decide_False.
  - rewrite decide_False by done.
    destruct (decide (r' = r)) as [->|Hne]; by heap_simpl.
  - destruct (decide (r' = r)) as [->|Hne].
    + rewrite decide_True by done. by heap_simpl.
    + rewrite decide_False by congruence. by heap_simpl.
Qed.

Lemma queue_push_input r p s pl :
  queue (upd_router r (push_input p) s) pl =
    with_queue (queue s) (in_input r) (queue s (in_input r) ++ [p]) pl.
Proof. apply (queue_set_input r (input (rheap s !!! r) ++ [p]) s pl). Qed.

Lemma queue_push_output r p s pl :
  queue (upd_router r (push_output p) s) pl =
    with_queue (queue s) (in_output r) (queue s (in_output r) ++ [p]) pl.
Proof. apply (queue_set_output r (output (rheap s !!! r) ++ [p]) s pl). Qed.

(** ** The invariant along the steps of the program *)

(** Taking the head of a container of [s]; [s0] is the state after it. *)
Lemma well_formed_pop pl s s0 p rest :
  well_formed s →
  queue s pl = p :: rest →
  (∀ pl', queue s0 pl' = with_queue (queue s) pl rest pl') →
  pheap s0 = pheap s → pnext s0 = pnext s →
  well_formed s0 ∧ nowhere (queue s0) p ∧ (p < pnext s0)%nat ∧
  (sends pl → routed (pheap s0 !!! p)).
Proof.
  intros (Hpl & Hsend) Hq Hq0 Hh Hn. unfold well_formed. rewrite Hh, Hn.
  destruct (placed_pop _ _ _ _ _ Hpl Hq) as (Hpl' & Hno & Hlt).
  destruct (sendable_pop _ _ _ _ _ Hsend Hq) as (Hsend' & Hrouted).
  split; [split|split; [|split]]; try done.
  - by apply (placed_ext _ _ _ Hq0).
  - by apply (sendable_ext _ _ _ Hq0).
  - by apply (nowhere_ext _ _ _ Hq0).
Qed.

(** Appending a packet in hand to a container of [s]; [s1] is the state
    after it. *)
Lemma well_formed_push pl s s1 p :
  well_formed s →
  nowhere (queue s) p →
  (p < pnext s)%nat →
  (sends pl → routed (pheap s !!! p)) →
  (∀ pl', queue s1 pl' = with_queue (queue s) pl (queue s pl ++ [p]) pl') →
  pheap s1 = pheap s → pnext s1 = pnext s →
  well_formed s1.
Proof.
  intros (Hpl & Hsend) Hno Hlt Hrouted Hq1 Hh Hn. unfold well_formed.
  rewrite Hh, Hn. split.
  - apply (placed_ext _ _ _ Hq1). by apply placed_push.
  - apply (sendable_ext _ _ _ Hq1). by apply sendable_push.
Qed.

Lemma well_formed_write p f s :
  well_formed s → nowhere (queue s) p →
  well_formed (upd_packet p f s) ∧ nowhere (queue (upd_packet p f s)) p.
Proof.
  intros (Hpl & Hsend) Hno. split; [split|]; [done| |done].
  by apply sendable_write.
Qed.

Lemma well_formed_alloc pk s :
  well_formed s →
  well_formed (alloc_packet pk s) ∧ nowhere (queue (alloc_packet pk s)) (pnext s).
Proof.
  intros (Hpl & Hsend). pose proof (placed_fresh _ _ Hpl) as Hno.
  split; [split|]; [by apply placed_alloc| |done].
  by apply sendable_write.
Qed.

Lemma routed_reply self pk v d : routed (reply_to self pk (Some v) d).
Proof. split; eauto. Qed.

Lemma process_packet_well_formed self i s :
  well_formed s → wp (process_packet self i) (λ _, well_formed) no_null_deref s.
Proof.
  intros Hwf. unfold wp.
  destruct (input (rheap s !!! self)) as [|p rest] eqn:Hin.
  { by rewrite process_packet_empty. }
  rewrite (process_packet_unfold self i s p rest Hin). cbn zeta.
  set (s0 := upd_router self (set_input rest) s).
  destruct (well_formed_pop (in_input self) s s0 p rest Hwf Hin
              (queue_set_input self rest s) eq_refl eq_refl)
    as (Hwf0 & Hno0 & Hlt0 & _).
  destruct (destination (pheap s !!! p) =? self)%nat.
  - destruct (is_reply (pheap s !!! p)); [exact Hwf0|].
    destruct (get_route_for (rheap s !!! self) (source (pheap s !!! p)))
      as [v|]; [|done]. cbn.
    destruct (connections (rheap s !!! self) !! v) as [d|]; [|done].
    match goal with |- well_formed (upd_router _ _ (alloc_packet ?pk ?s1)) =>
      destruct (well_formed_alloc pk s1 Hwf0) as (Hwf1 & Hno1);
      apply (well_formed_push (in_output self) (alloc_packet pk s1) _ (pnext s1))
    end; try done.
    + cbn. lia.
    + intros _. rewrite pheap_alloc_packet_eq. apply routed_reply.
    + intros pl'. apply queue_push_output.
  - destruct (connections (rheap s !!! self) !! destination (pheap s !!! p)) as [d|].
    + destruct (well_formed_write p (set_via (Some (destination (pheap s !!! p))))
                  s0 Hwf0 Hno0) as (Hwf1 & Hno1).
      destruct (well_formed_write p (set_delay (Some (d + NEIGHBOUR_DELAY)))
                  _ Hwf1 Hno1) as (Hwf2 & Hno2).
      eapply (well_formed_push (in_output self) _ _ p Hwf2 Hno2); try done.
      * intros _. rewrite !pheap_upd_packet_eq. split; eauto.
      * intros pl'. apply queue_push_output.
    + destruct (routes (rheap s !!! self) !! destination (pheap s !!! p))
        as [next|]; [|exact Hwf0].
      destruct (connections (rheap s !!! self) !! next) as [d|]; [|done].
      destruct (well_formed_write p (set_via (Some next)) s0 Hwf0 Hno0)
        as (Hwf1 & Hno1).
      destruct (well_formed_write p (set_delay (Some (d + DISTANT_DELAY)))
                  _ Hwf1 Hno1) as (Hwf2 & Hno2).
      eapply (well_formed_push (in_output self) _ _ p Hwf2 Hno2); try done.
      * intros _. rewrite !pheap_upd_packet_eq. split; eauto.
      * intros pl'. apply queue_push_output.
Qed.

Lemma routed_tick pk : routed pk → routed (tick_lifetime (tick_delay pk)).
Proof.
  intros (Hvia & [d Hd]). split; [done|]. cbn. rewrite Hd. by eexists.
Qed.

Lemma deliver_packet_well_formed s :
  well_formed s → wp deliver_packet (λ _, well_formed) no_null_deref s.
Proof.
  intros Hwf. unfold wp.
  destruct (packets s) as [|p rest] eqn:Hp.
  { by rewrite deliver_packet_empty. }
  rewrite (deliver_packet_unfold s p rest Hp). cbn zeta.
  destruct (well_formed_pop in_transit s (set_packets rest s) p rest Hwf Hp
              (queue_set_packets rest s) eq_refl eq_refl)
    as (Hwf0 & Hno0 & Hlt0 & Hrouted).
  specialize (Hrouted I). cbn in Hrouted.
  destruct (well_formed_write p tick_delay _ Hwf0 Hno0) as (Hwf1 & Hno1).
  destruct (well_formed_write p tick_lifetime _ Hwf1 Hno1) as (Hwf2 & Hno2).
  destruct Hrouted as ([v Hv] & [d Hd]). rewrite Hd, Hv.
  destruct (d - 1 <=? 0).
  - destruct (well_formed_write p (set_via None) _ Hwf2 Hno2) as (Hwf3 & Hno3).
    eapply (well_formed_push (in_input v) _ _ p Hwf3 Hno3); try done.
    intros pl'.
    match goal with |- _ = with_queue (queue ?s3) _ _ _ =>
      exact (queue_push_input v p s3 pl') end.
  - eapply (well_formed_push in_transit _ _ p Hwf2 Hno2); try done.
    + intros _. rewrite !pheap_upd_packet_eq. cbn.
      apply routed_tick. split; eauto.
    + intros pl'.
      match goal with |- _ = with_queue (queue ?s2) _ _ _ =>
        exact (queue_set_packets (rest ++ [p]) s2 pl') end.
Qed.

Lemma transmit_packet_well_formed r s :
  well_formed s → wp (transmit_packet r) (λ _, well_formed) no_null_deref s.
Proof.
  intros Hwf. unfold wp.
  destruct (output (rheap s !!! r)) as [|p rest] eqn:Ho.
  { by rewrite transmit_packet_empty. }
  rewrite (transmit_packet_unfold r s p rest Ho).
  destruct (well_formed_pop (in_output r) s (upd_router r (set_output rest) s)
              p rest Hwf Ho (queue_set_output r rest s) eq_refl eq_refl)
    as (Hwf0 & Hno0 & Hlt0 & Hrouted).
  eapply (well_formed_push in_transit _ _ p Hwf0 Hno0); try done.
  intros pl'.
  match goal with |- _ = with_queue (queue ?s1) _ _ _ =>
    exact (queue_set_packets (packets s ++ [p]) s1 pl') end.
Qed.

(** The report of a dropped packet reads the next hop of a packet in
    transit. *)
Lemma report_dropped_well_formed i p s :
  p ∈ packets s →
  well_formed s →
  wp (report_dropped i p)
     (λ _ s', well_formed s' ∧ packets s' = packets s) no_null_deref s.
Proof.
  intros Hp Hwf. unfold wp. rewrite report_dropped_unfold.
  destruct Hwf as (Hpl & Hsend).
  destruct (Hsend in_transit p I Hp) as ([v Hv] & _). rewrite Hv.
  split; [by split|done].
Qed.

Lemma drop_packets_well_formed Q random i s :
  well_formed s →
  wp (Network_drop_packets Q random i) (λ _, well_formed) no_null_deref s.
Proof.
  intros Hwf. unfold Network_drop_packets.
  apply wp_bind, wp_gets. apply wp_bind, wp_gets. cbn zeta.
  apply wp_bind, wp_modify. cbn beta.
  set (dropped := draw_dropped Q random (packets s) (drawn s)).
  wp_seq (λ s', well_formed s' ∧ packets s' = packets s)
    ltac:(apply wp_forM_inv; [|by split]).
  - apply wp_modify. destruct HK as ((Hpl & Hsend) & Hps). split.
    + eapply placed_ext; [apply queue_set_packets|].
      eapply placed_sublist; [|exact Hpl].
      apply with_queue_sublist, sublist_filter.
    + eapply sendable_ext; [apply queue_set_packets|].
      eapply sendable_sublist; [|exact Hsend].
      apply with_queue_sublist, sublist_filter.
  - intros p s' Hp (Hwf' & Hps). eapply wp_mono;
      [|apply report_dropped_well_formed; [|done]].
    + intros ? s'' (? & ?). split; [done|congruence].
    + rewrite Hps. by apply (draw_dropped_sublist Q random _ (drawn s)).
Qed.

Lemma deliver_packets_well_formed i s :
  well_formed s →
  wp (Network_deliver_packets i) (λ _, well_formed) no_null_deref s.
Proof.
  intros Hwf. unfold Network_deliver_packets. apply wp_bind, wp_gets.
  apply wp_repeatM_inv; [|done]. intros. by apply deliver_packet_well_formed.
Qed.

Lemma process_incoming_packets_well_formed i s :
  well_formed s →
  wp (Network_process_incoming_packets i) (λ _, well_formed) no_null_deref s.
Proof.
  intros Hwf. unfold Network_process_incoming_packets. apply wp_bind, wp_gets.
  apply wp_forM_inv; [|done]. intros r s' _ Hwf'.
  unfold Router_process_incoming_packets. apply wp_bind, wp_gets.
  apply wp_repeatM_inv; [|done]. intros. by apply process_packet_well_formed.
Qed.

Lemma transmit_packets_well_formed i s :
  well_formed s →
  wp (Network_transmit_packets i) (λ _, well_formed) no_null_deref s.
Proof.
  intros Hwf. unfold Network_transmit_packets. apply wp_bind, wp_gets.
  apply wp_forM_inv; [|done]. intros r s' _ Hwf'.
  apply wp_bind, wp_gets.
  apply wp_repeatM_inv; [|done]. intros. by apply transmit_packet_well_formed.
Qed.

Lemma print_state_well_formed (line : State → ErrLine) s :
  well_formed s →
  wp (s' ← gets (λ s', s'); print_err (line s')) (λ _, well_formed) no_null_deref s.
Proof. intros Hwf. by apply wp_bind, wp_gets, wp_modify. Qed.

Lemma tick_well_formed Q random i s :
  well_formed s →
  wp (Network_tick Q random i) (λ _, well_formed) no_null_deref s.
Proof.
  intros Hwf. unfold Network_tick.
  wp_seq well_formed ltac:(by apply wp_modify).
  wp_seq well_formed ltac:(by apply (print_state_well_formed
                 (λ s, err_pre_deliver (Packet_str s <$> packets s)))).
  wp_seq well_formed ltac:(by apply drop_packets_well_formed).
  wp_seq well_formed ltac:(by apply deliver_packets_well_formed).
  wp_seq well_formed ltac:(by apply (print_state_well_formed
                 (λ s, err_post_deliver (Router_str s <$> routers s)))).
  wp_seq well_formed ltac:(by apply process_incoming_packets_well_formed).
  wp_seq well_formed ltac:(by apply (print_state_well_formed
                 (λ s, err_pre_transmit (Router_str s <$> routers s)))).
  wp_seq well_formed ltac:(by apply transmit_packets_well_formed).
  by apply (print_state_well_formed
              (λ s, err_post_transmit (Packet_str s <$> packets s))).
Qed.

(** ** The constructor of the Network *)

(** ** The constructor of the Network *)

Lemma inject_packet_injecting k s :
  injecting (S k) s → wp inject_packet (λ _, injecting k) no_exn s.
Proof.
  intros (Hpl & Hout & Hlen). unfold wp.
  destruct (packets s) as [|p rest] eqn:Hp; [done|].
  rewrite (inject_packet_unfold s p rest Hp).
  destruct (placed_pop _ _ in_transit p rest Hpl Hp) as (Hpl0 & Hno0 & Hlt0).
  split; [|split].
  - eapply placed_ext; [apply queue_push_input|].
    apply placed_push; [|by apply (nowhere_ext _ _ _ (queue_set_packets rest s))|done].
    by apply (placed_ext _ _ _ (queue_set_packets rest s)).
  - intros r. cbn.
    destruct (decide (source (pheap s !!! p) = r)) as [<-|]; heap_simpl; apply Hout.
  - cbn in *. lia.
Qed.

Lemma injecting_start rs ps s :
  queues_empty s →
  NoDup ps →
  (∀ p, p ∈ ps → (p < pnext s)%nat) →
  injecting (length ps) (set_packets ps (set_routers rs s)).
Proof.
  intros Hempty Hnd Hlt.
  assert (Hq : ∀ pl p, p ∈ queue (set_packets ps (set_routers rs s)) pl →
                       pl = in_transit ∧ p ∈ ps).
  { intros [|r|r] p; cbn; [done| |].
    - destruct (Hempty r) as [-> _]. by intros ?%elem_of_nil.
    - destruct (Hempty r) as [_ ->]. by intros ?%elem_of_nil. }
  split; [split; [split|]|split].
  - intros [|r|r]; cbn; [done| |].
    + destruct (Hempty r) as [-> _]. constructor.
    + destruct (Hempty r) as [_ ->]. constructor.
  - intros pl pl' p [-> _]%Hq [-> _]%Hq. done.
  - intros pl p [_ Hp]%Hq. by apply Hlt.
  - intros r. apply Hempty.
  - done.
Qed.

Lemma injecting_done s : injecting 0 s → well_formed s ∧ packets s = [].
Proof.
  intros (Hpl & Hout & Hlen).
  assert (Hp : packets s = []) by by destruct (packets s).
  split; [|done]. split; [done|].
  intros [|r|r] p Hs; cbn.
  - rewrite Hp. by intros ?%elem_of_nil.
  - done.
  - rewrite Hout. by intros ?%elem_of_nil.
Qed.

(** The constructor returns, with every packet in the input queue of its
    source: nothing is in transit. *)
Lemma init_well_formed rs ps s :
  queues_empty s →
  NoDup ps →
  (∀ p, p ∈ ps → (p < pnext s)%nat) →
  ∃ s1, Network_init rs ps s = Ok tt s1 ∧ well_formed s1 ∧ packets s1 = [].
Proof.
  intros Hempty Hnd Hlt.
  assert (Hwp : wp (Network_init rs ps)
                   (λ _ s1, well_formed s1 ∧ packets s1 = []) no_exn s).
  { unfold Network_init.
    apply wp_bind, wp_modify. apply wp_bind, wp_modify. apply wp_bind, wp_gets.
    cbn [packets set_packets].
    eapply wp_mono;
      [|apply (wp_repeatM _ _ (λ k, injecting (length ps - k)))].
    - intros ? s1 Hinj. apply injecting_done. by rewrite Nat.sub_diag in Hinj.
    - intros k s' Hk Hinj. apply inject_packet_injecting.
      by replace (S (length ps - S k)) with (length ps - k)%nat by lia.
    - rewrite Nat.sub_0_r. by apply injecting_start. }
  apply wp_no_exn in Hwp as ([] & s1 & Hinit & Hwf). eauto.
Qed.

Lemma ticks_from_well_formed Q random s0 i s :
  well_formed s0 → ticks_from Q random s0 i s → well_formed s.
Proof.
  intros Hwf0. induction 1 as [|i s s' _ IH Htick]; [done|].
  pose proof (tick_well_formed Q random (i + 1) s IH) as Hwp.
  unfold wp in Hwp. by rewrite Htick in Hwp.
Qed.

Lemma queues_empty_world rs ps :
  Forall (λ rR, input rR.2 = [] ∧ output rR.2 = []) rs →
  queues_empty (world rs ps).
Proof.
  intros Hrs r. cbn. induction Hrs as [|[r' R] rs HR _ IH]; [done|].
  cbn. destruct (decide (r' = r)) as [->|?]; by heap_simpl.
Qed.

(** C10, the next hop of a packet in transit: in a network constructed
    from routers with empty queues and pairwise distinct Packet objects,
    at every tick boundary every packet in transit (and every packet in an
    output queue) has a next hop and an integer delay, each packet is in
    one container only, and the tick that follows never raises
    [AttributeError]: neither the report of the loss phase nor the
    delivery phase dereferences a null next hop. *)
Theorem next_hop_never_null Q random rs ps s0 :
  queues_empty s0 →
  NoDup ps →
  (∀ p, p ∈ ps → (p < pnext s0)%nat) →
  ∃ s1, Network_init rs ps s0 = Ok tt s1 ∧
    ∀ i s, ticks_from Q random s1 i s →
      well_formed s ∧
      (∀ p, p ∈ packets s →
         is_Some (via (pheap s !!! p)) ∧ is_Some (delay (pheap s !!! p))) ∧
      wp (Network_tick Q random (i + 1)) (λ _ _, True) no_null_deref s.
Proof.
  intros Hempty Hnd Hlt.
  destruct (init_well_formed rs ps s0 Hempty Hnd Hlt) as (s1 & Hinit & Hwf1 & _).
  exists s1. split; [done|]. intros i s Hticks.
  pose proof (ticks_from_well_formed Q random s1 i s Hwf1 Hticks) as Hwf.
  split; [done|]. split.
  - intros p Hp. destruct Hwf as (_ & Hsend). by apply (Hsend in_transit).
  - eapply wp_mono; [|by apply tick_well_formed]. done.
Qed.

Lemma next_hop_never_null_witness :
  ∃ s1, Network_init [1; 2; 3]%nat [0%nat] (line_world None) = Ok tt s1 ∧
    ∀ i s, ticks_from 0%Q (λ _, 1%Q) s1 i s →
      well_formed s ∧
      (∀ p, p ∈ packets s →
         is_Some (via (pheap s !!! p)) ∧ is_Some (delay (pheap s !!! p))) ∧
      wp (Network_tick 0%Q (λ _, 1%Q) (i + 1)) (λ _ _, True) no_null_deref s.
Proof.
  apply (next_hop_never_null 0%Q (λ _, 1%Q) [1; 2; 3]%nat [0%nat] (line_world None)).
  - apply queues_empty_world. repeat constructor.
  - apply NoDup_singleton.
  - intros p ->%list_elem_of_singleton. cbn. lia.
Defined.

(** * Further properties of the code *)

(** ** Routing tables *)

Lemma routes_add_lookup (m : gmap rref rref) n dests k :
  foldl (λ m destination, <[destination := n]> m) m dests !! k =
    if decide (k ∈ dests) then Some n else m !! k.
Proof.
  revert m. induction dests as [|x l IH]; intros m; cbn.
  - by rewrite decide_False by apply not_elem_of_nil.
  - rewrite IH.
    destruct (decide (k ∈ x :: l)) as [Hin|Hin];
      destruct (decide (k ∈ l)) as [Hl|Hl]; try done.
    + apply elem_of_cons in Hin as [->|?]; [|done]. by rewrite lookup_insert_eq.
    + exfalso. apply Hin. by apply list_elem_of_further.
    + rewrite lookup_insert_ne; [done|]. intros ->. apply Hin, list_elem_of_here.
Qed.

(** X1, looking a route up after [add_connection]: the destinations given
    with the link are reached through the new neighbour, whatever the table
    held for them; the neighbour itself keeps the table entry it had, and
    is its own next hop when it had none; every other destination is
    answered as before. *)
Theorem get_route_after_add_connection r n d dests dst :
  get_route_for (add_connection r n d dests) dst =
    if decide (dst ∈ dests) then Some n
    else if decide (dst = n) then Some (default n (routes r !! n))
    else get_route_for r dst.
Proof.
  unfold get_route_for. cbn. rewrite routes_add_lookup.
  destruct (decide (dst ∈ dests)); [done|].
  destruct (decide (dst = n)) as [->|Hne].
  - rewrite lookup_insert_eq. by destruct (routes r !! n).
  - by rewrite lookup_insert_ne.
Qed.

Lemma linked_init i : linked (Router_init i).
Proof. intros dst v H. cbn in H. by rewrite lookup_empty in H. Qed.

Lemma linked_add_connection r n d dests :
  linked r → linked (add_connection r n d dests).
Proof.
  intros Hr dst v. cbn. rewrite routes_add_lookup.
  destruct (decide (dst ∈ dests)).
  - intros [= <-]. rewrite lookup_insert_eq. eauto.
  - intros Hv. destruct (decide (v = n)) as [->|Hne].
    + rewrite lookup_insert_eq. eauto.
    + rewrite lookup_insert_ne by done. by apply (Hr dst).
Qed.

Lemma built_linked r : built r → linked r.
Proof.
  induction 1; [apply linked_init|by apply linked_add_connection].
Qed.

Lemma linked_get_route r dst v :
  linked r → get_route_for r dst = Some v → is_Some (connections r !! v).
Proof.
  intros Hr. unfold get_route_for.
  destruct (routes r !! dst) as [w|] eqn:Hw.
  - intros [= <-]. by apply (Hr dst).
  - destruct (connections r !! dst) eqn:Hc; [|done]. intros [= <-]. eauto.
Qed.

(** X2, the next hop is a neighbour: whatever the calls of
    [add_connection] that set a router up, the next hop that
    [get_route_for] answers is a router it has a link to, and the router
    has no packet queued. *)
Theorem built_route_is_neighbour r dst v :
  built r →
  get_route_for r dst = Some v →
  is_Some (connections r !! v) ∧ input r = [] ∧ output r = [].
Proof.
  intros Hb Hv. split; [by apply (linked_get_route r dst), Hv; apply built_linked|].
  clear Hv. induction Hb; [done|]. cbn. done.
Qed.

Lemma built_route_is_neighbour_witness :
  is_Some (connections line_r1 !! 2%nat) ∧ input line_r1 = [] ∧ output line_r1 = [].
Proof.
  apply (built_route_is_neighbour line_r1 3%nat 2%nat).
  - unfold line_r1. apply built_add, built_init.
  - vm_compute. reflexivity.
Defined.



(** ** Invariants of the loop bodies are invariants of the tick *)

Section TickInvariant.

Context (Q : QArith_base.Q) (random : nat → QArith_base.Q) (i : Z).
Context (I : State → Prop) (Qex : Exn → State → Prop).

Hypothesis I_log_err : ∀ s line, I s → I (log_err line s).
Hypothesis I_set_drawn : ∀ s k, I s → I (set_drawn k s).
Hypothesis I_report_dropped : ∀ s p, I s → wp (report_dropped i p) (λ _, I) Qex s.
Hypothesis I_remove : ∀ s (l : list pref),
  I s → I (set_packets (filter (λ p, p ∉ l) (packets s)) s).
Hypothesis I_deliver_packet : ∀ s, I s → wp deliver_packet (λ _, I) Qex s.
Hypothesis I_process_packet : ∀ s r, I s → wp (process_packet r i) (λ _, I) Qex s.
Hypothesis I_transmit_packet : ∀ s r, I s → wp (transmit_packet r) (λ _, I) Qex s.

Lemma drop_packets_inv s :
  I s → wp (Network_drop_packets Q random i) (λ _, I) Qex s.
Proof.
  intros HI. unfold Network_drop_packets.
  apply wp_bind, wp_gets. apply wp_bind, wp_gets. cbn zeta.
  wp_seq I ltac:(apply wp_modify; by apply I_set_drawn).
  wp_seq I ltac:(apply wp_forM_inv; [|exact HK]; intros; by apply I_report_dropped).
  apply wp_modify. by apply I_remove.
Qed.

Lemma deliver_packets_inv s :
  I s → wp (Network_deliver_packets i) (λ _, I) Qex s.
Proof.
  intros HI. unfold Network_deliver_packets. apply wp_bind, wp_gets.
  apply wp_repeatM_inv; [|done]. intros. by apply I_deliver_packet.
Qed.

Lemma router_process_inv r s :
  I s → wp (Router_process_incoming_packets r i) (λ _, I) Qex s.
Proof.
  intros HI. unfold Router_process_incoming_packets. apply wp_bind, wp_gets.
  apply wp_repeatM_inv; [|done]. intros. by apply I_process_packet.
Qed.

Lemma process_incoming_packets_inv s :
  I s → wp (Network_process_incoming_packets i) (λ _, I) Qex s.
Proof.
  intros HI. unfold Network_process_incoming_packets. apply wp_bind, wp_gets.
  apply wp_forM_inv; [|done]. intros r s' _ HI'. by apply router_process_inv.
Qed.

Lemma transmit_packets_inv s :
  I s → wp (Network_transmit_packets i) (λ _, I) Qex s.
Proof.
  intros HI. unfold Network_transmit_packets. apply wp_bind, wp_gets.
  apply wp_forM_inv; [|done]. intros r s' _ HI'.
  apply wp_bind, wp_gets.
  apply wp_repeatM_inv; [|done]. intros. by apply I_transmit_packet.
Qed.

Lemma print_state_inv (line : State → ErrLine) s :
  I s → wp (s' ← gets (λ s', s'); print_err (line s')) (λ _, I) Qex s.
Proof. intros HI. apply wp_bind, wp_gets, wp_modify. by apply I_log_err. Qed.

Lemma tick_inv s : I s → wp (Network_tick Q random i) (λ _, I) Qex s.
Proof.
  intros HI. unfold Network_tick.
  wp_seq I ltac:(apply wp_modify; by apply I_log_err).
  wp_seq I ltac:(by apply (print_state_inv
                   (λ s, err_pre_deliver (Packet_str s <$> packets s)))).
  wp_seq I ltac:(by apply drop_packets_inv).
  wp_seq I ltac:(by apply deliver_packets_inv).
  wp_seq I ltac:(by apply (print_state_inv
                   (λ s, err_post_deliver (Router_str s <$> routers s)))).
  wp_seq I ltac:(by apply process_incoming_packets_inv).
  wp_seq I ltac:(by apply (print_state_inv
                   (λ s, err_pre_transmit (Router_str s <$> routers s)))).
  wp_seq I ltac:(by apply transmit_packets_inv).
  by apply (print_state_inv (λ s, err_post_transmit (Packet_str s <$> packets s))).
Qed.

End TickInvariant.

(** ** What a tick leaves as it is *)

Lemma same_topology_refl s : same_topology s s.
Proof. done. Qed.

Lemma same_endpoints_refl s : same_endpoints s s.
Proof. done. Qed.

Lemma same_topology_frame s0 s s' :
  routers s' = routers s → rheap s' = rheap s →
  same_topology s0 s → same_topology s0 s'.
Proof. intros Hr Hh (? & H). split; [congruence|]. by rewrite Hh. Qed.

Lemma same_endpoints_frame s0 s s' :
  pheap s' = pheap s → pnext s' = pnext s →
  same_endpoints s0 s → same_endpoints s0 s'.
Proof. intros Hh Hn (? & H). split; [lia|]. by rewrite Hh. Qed.

Lemma same_topology_upd_router s0 s r f :
  (∀ x, id (f x) = id x ∧ connections (f x) = connections x ∧
        routes (f x) = routes x) →
  same_topology s0 s → same_topology s0 (upd_router r f s).
Proof.
  intros Hf (Hrs & H). split; [done|]. intros r'. cbn.
  destruct (decide (r = r')) as [<-|?]; heap_simpl; [|done].
  destruct (Hf (rheap s !!! r)) as (-> & -> & ->). apply H.
Qed.

Lemma same_endpoints_upd_packet s0 s p f :
  (∀ x, source (f x) = source x ∧ destination (f x) = destination x ∧
        connection (f x) = connection x ∧ is_reply (f x) = is_reply x) →
  same_endpoints s0 s → same_endpoints s0 (upd_packet p f s).
Proof.
  intros Hf (Hn & H). split; [done|]. intros p' Hp'. cbn.
  destruct (decide (p = p')) as [<-|?]; heap_simpl; [|by apply H].
  destruct (Hf (pheap s !!! p)) as (-> & -> & -> & ->). by apply H.
Qed.

Lemma same_endpoints_alloc s0 s pk :
  same_endpoints s0 s → same_endpoints s0 (alloc_packet pk s).
Proof.
  intros (Hn & H). split; [cbn; lia|]. intros p Hp. cbn.
  rewrite lookup_total_insert_ne by lia. by apply H.
Qed.

(** The topology and the endpoints after each kind of step. *)
Ltac same_step :=
  repeat first
    [ assumption
    | apply same_topology_upd_router; [done|]
    | apply same_endpoints_upd_packet; [done|]
    | apply same_endpoints_alloc
    | eapply same_topology_frame; [reflexivity|reflexivity|]
    | eapply same_endpoints_frame; [reflexivity|reflexivity|] ].

Lemma process_packet_same s0 self i s :
  same_topology s0 s ∧ same_endpoints s0 s →
  wp (process_packet self i)
     (λ _ s', same_topology s0 s' ∧ same_endpoints s0 s')
     (λ _ s', same_topology s0 s' ∧ same_endpoints s0 s') s.
Proof.
  intros (HT & HE). unfold wp.
  destruct (input (rheap s !!! self)) as [|p rest] eqn:Hin.
  { by rewrite process_packet_empty. }
  rewrite (process_packet_unfold self i s p rest Hin). cbn zeta.
  destruct (destination (pheap s !!! p) =? self)%nat.
  - destruct (is_reply (pheap s !!! p)); [split; same_step|].
    destruct (get_route_for (rheap s !!! self) (source (pheap s !!! p))
                ≫= (connections (rheap s !!! self) !!.)) as [d|];
      split; same_step.
  - destruct (connections (rheap s !!! self) !! destination (pheap s !!! p)) as [d|];
      [split; same_step|].
    destruct (routes (rheap s !!! self) !! destination (pheap s !!! p)) as [next|];
      [|split; same_step].
    destruct (connections (rheap s !!! self) !! next) as [d|]; split; same_step.
Qed.

Lemma deliver_packet_same s0 s :
  same_topology s0 s ∧ same_endpoints s0 s →
  wp deliver_packet
     (λ _ s', same_topology s0 s' ∧ same_endpoints s0 s')
     (λ _ s', same_topology s0 s' ∧ same_endpoints s0 s') s.
Proof.
  intros (HT & HE). unfold wp.
  destruct (packets s) as [|p rest] eqn:Hp.
  { by rewrite deliver_packet_empty. }
  rewrite (deliver_packet_unfold s p rest Hp). cbn zeta.
  destruct (delay (pheap s !!! p)) as [d|]; [|split; same_step].
  destruct (d - 1 <=? 0); [|split; same_step].
  destruct (via (pheap s !!! p)) as [v|]; split; same_step.
Qed.

Lemma transmit_packet_same s0 r s :
  same_topology s0 s ∧ same_endpoints s0 s →
  wp (transmit_packet r)
     (λ _ s', same_topology s0 s' ∧ same_endpoints s0 s')
     (λ _ s', same_topology s0 s' ∧ same_endpoints s0 s') s.
Proof.
  intros (HT & HE). unfold wp.
  destruct (output (rheap s !!! r)) as [|p rest] eqn:Ho.
  { by rewrite transmit_packet_empty. }
  rewrite (transmit_packet_unfold r s p rest Ho). split; same_step.
Qed.

Lemma report_dropped_same s0 i p s :
  same_topology s0 s ∧ same_endpoints s0 s →
  wp (report_dropped i p)
     (λ _ s', same_topology s0 s' ∧ same_endpoints s0 s')
     (λ _ s', same_topology s0 s' ∧ same_endpoints s0 s') s.
Proof.
  intros (HT & HE). unfold wp. rewrite report_dropped_unfold.
  destruct (via (pheap s !!! p)) as [v|]; split; same_step.
Qed.

(** X4, a tick leaves the topology and the endpoints as they are: whether
    it returns or raises, a tick changes neither the routers of the
    network nor the identifier, the links or the routing table of any
    router, and a packet that exists keeps its source, its destination,
    its connection tag and its kind (request or reply). *)
Theorem tick_keeps_topology Q random i s :
  wp (Network_tick Q random i)
     (λ _ s', same_topology s s' ∧ same_endpoints s s')
     (λ _ s', same_topology s s' ∧ same_endpoints s s') s.
Proof.
  apply (tick_inv Q random i (λ s', same_topology s s' ∧ same_endpoints s s')).
  - intros s' line (? & ?). split; same_step.
  - intros s' k (? & ?). split; same_step.
  - intros. by apply report_dropped_same.
  - intros s' l (? & ?). split; same_step.
  - intros. by apply deliver_packet_same.
  - intros. by apply process_packet_same.
  - intros. by apply transmit_packet_same.
  - done.
Qed.

(** ** The phases of a tick, one by one *)

Lemma local_to_refl self s : local_to self s s.
Proof. done. Qed.

Lemma local_to_trans self s1 s2 s3 :
  local_to self s1 s2 → local_to self s2 s3 → local_to self s1 s3.
Proof.
  intros (H1 & H1' & H1'') (H2 & H2' & H2''). split; [|split; congruence].
  intros r Hr. rewrite H2, H1; done.
Qed.

(** One iteration of [Router.process_incoming_packets] takes the head of
    the input queue, and nothing raises but the lookup of a link delay. *)
Lemma process_packet_local self i s p rest :
  input (rheap s !!! self) = p :: rest →
  wp (process_packet self i)
     (λ _ s', input (rheap s' !!! self) = rest ∧ local_to self s s')
     (λ e s', e = KeyError ∧ local_to self s s') s.
Proof.
  intros Hin. unfold wp, local_to.
  rewrite (process_packet_unfold self i s p rest Hin). cbn zeta.
  destruct (destination (pheap s !!! p) =? self)%nat.
  - destruct (is_reply (pheap s !!! p)).
    + cbn. heap_simpl. repeat split; try done. intros r Hr. by heap_simpl.
    + destruct (get_route_for (rheap s !!! self) (source (pheap s !!! p))
                  ≫= (connections (rheap s !!! self) !!.)) as [d|].
      * cbn. heap_simpl. cbn. heap_simpl.
        repeat split; try done. intros r Hr. by heap_simpl.
      * cbn. repeat split; try done. intros r Hr. by heap_simpl.
  - destruct (connections (rheap s !!! self) !! destination (pheap s !!! p)) as [d|].
    + cbn. heap_simpl. cbn. heap_simpl.
      repeat split; try done. intros r Hr. by heap_simpl.
    + destruct (routes (rheap s !!! self) !! destination (pheap s !!! p)) as [next|].
      * destruct (connections (rheap s !!! self) !! next) as [d|].
        -- cbn. heap_simpl. cbn. heap_simpl.
           repeat split; try done. intros r Hr. by heap_simpl.
        -- cbn. repeat split; try done. intros r Hr. by heap_simpl.
      * cbn. heap_simpl. repeat split; try done. intros r Hr. by heap_simpl.
Qed.

Lemma drop_cons_inv {A} (l : list A) k x rest :
  drop k l = x :: rest → drop (S k) l = rest ∧ take (S k) l = take k l ++ [x].
Proof.
  intros H.
  assert (Hx : l !! k = Some x).
  { rewrite <- (Nat.add_0_r k), <- lookup_drop, H. done. }
  split.
  - rewrite (drop_S _ _ _ Hx) in H. by injection H.
  - by apply take_S_r.
Qed.

Lemma router_process_local self i s :
  wp (Router_process_incoming_packets self i)
     (λ _ s', input (rheap s' !!! self) = [] ∧ local_to self s s')
     (λ e s', e = KeyError ∧ local_to self s s') s.
Proof.
  unfold Router_process_incoming_packets. apply wp_bind, wp_gets.
  set (l := input (rheap s !!! self)).
  eapply wp_mono;
    [|apply (wp_repeatM (length l) _
               (λ k s', input (rheap s' !!! self) = drop k l ∧ local_to self s s'))].
  - intros _ s' (Hin & Hloc). split; [|done]. by rewrite Hin, drop_all.
  - intros k s' Hk (Hin & Hloc).
    destruct (drop k l) as [|p rest] eqn:Hd.
    { apply (f_equal length) in Hd. rewrite length_drop in Hd. cbn in Hd. lia. }
    apply drop_cons_inv in Hd as (Hd & _). rewrite Hd.
    pose proof (process_packet_local self i s' p rest Hin) as Hstep.
    unfold wp in *. destruct (process_packet self i s') as [[] s''|e s''].
    + destruct Hstep as (? & ?). split; [done|]. by apply (local_to_trans self s s').
    + destruct Hstep as (? & ?). split; [done|]. by apply (local_to_trans self s s').
  - done.
Qed.


(** The inner loop of [Network.transmit_packets]. *)
Lemma transmit_router r s :
  wp (n ← gets (λ s, length (output (rheap s !!! r)));
      repeatM n (transmit_packet r))
     (λ _, transmitted r (output (rheap s !!! r)) s) no_exn s.
Proof.
  apply wp_bind, wp_gets.
  set (l := output (rheap s !!! r)).
  eapply wp_mono;
    [|apply (wp_repeatM (length l) _
               (λ k s', output (rheap s' !!! r) = drop k l ∧
                        input (rheap s' !!! r) = input (rheap s !!! r) ∧
                        (∀ r', r' ≠ r → rheap s' !!! r' = rheap s !!! r') ∧
                        packets s' = packets s ++ take k l ∧
                        pheap s' = pheap s ∧ pnext s' = pnext s ∧
                        routers s' = routers s ∧
                        stdout s' = stdout s ∧ stderr s' = stderr s ∧
                        drawn s' = drawn s))].
  - intros _ s' (Ho & Hi & Hr & Hp & H). unfold transmitted.
    rewrite Ho, Hp, drop_all, firstn_all. done.
  - intros k s' Hk (Ho & Hi & Hr & Hp & Hh & Hn & Hrs & H1 & H2 & H3).
    destruct (drop k l) as [|p rest] eqn:Hd.
    { apply (f_equal length) in Hd. rewrite length_drop in Hd. cbn in Hd. lia. }
    apply drop_cons_inv in Hd as (Hd & Ht). rewrite Hd, Ht.
    unfold wp. rewrite (transmit_packet_unfold r s' p rest Ho). cbn. heap_simpl.
    rewrite Hp, <- app_assoc. repeat split; try done.
    intros r' Hr'. heap_simpl. by apply Hr.
  - cbn. rewrite drop_0, app_nil_r. done.
Qed.

(** The outer loop: the routers [l1] have sent their output queues. *)
Lemma transmit_packets_loop l s :
  wp (forM l (λ router,
        n ← gets (λ s, length (output (rheap s !!! router)));
        repeatM n (transmit_packet router)))
     (λ _ s', (∀ r, r ∈ l → output (rheap s' !!! r) = []) ∧
              (∀ r, r ∉ l → output (rheap s' !!! r) = output (rheap s !!! r)) ∧
              (∀ r, input (rheap s' !!! r) = input (rheap s !!! r)) ∧
              (NoDup l →
               packets s' = packets s ++ concat ((λ r, output (rheap s !!! r)) <$> l)) ∧
              pheap s' = pheap s ∧ pnext s' = pnext s ∧ routers s' = routers s ∧
              stdout s' = stdout s ∧ stderr s' = stderr s ∧ drawn s' = drawn s)
     no_exn s.
Proof.
  apply (wp_forM l _
    (λ l1 s', (∀ r, r ∈ l1 → output (rheap s' !!! r) = []) ∧
              (∀ r, r ∉ l1 → output (rheap s' !!! r) = output (rheap s !!! r)) ∧
              (∀ r, input (rheap s' !!! r) = input (rheap s !!! r)) ∧
              (NoDup l1 →
               packets s' = packets s ++ concat ((λ r, output (rheap s !!! r)) <$> l1)) ∧
              pheap s' = pheap s ∧ pnext s' = pnext s ∧ routers s' = routers s ∧
              stdout s' = stdout s ∧ stderr s' = stderr s ∧ drawn s' = drawn s)).
  - intros l1 x l2 s' Heq (Hdone & Hrest & Hin & Hp & Hh & Hn & Hrs & H1 & H2 & H3).
    eapply wp_mono; [|apply transmit_router].
    intros _ s'' (Ho & Hi & Hr & Hp' & Hh' & Hn' & Hrs' & H1' & H2' & H3').
    split; [|split; [|split; [|split]]].
    + intros r [Hr1|Hrx%list_elem_of_singleton]%elem_of_app.
      * destruct (decide (r = x)) as [->|Hne]; [done|].
        rewrite (Hr r Hne). by apply Hdone.
      * by subst.
    + intros r Hr1. rewrite elem_of_app, list_elem_of_singleton in Hr1.
      rewrite (Hr r) by tauto. apply Hrest. tauto.
    + intros r. destruct (decide (r = x)) as [->|Hne].
      * by rewrite Hi.
      * by rewrite (Hr r Hne).
    + intros Hnd. apply list.NoDup_app in Hnd as (Hnd1 & Hnd2 & _).
      rewrite Hp', Hp by done. rewrite fmap_app, concat_app. cbn.
      rewrite app_nil_r, <- app_assoc. do 2 f_equal. apply Hrest.
      intros Hx. by apply (Hnd2 x Hx), list_elem_of_singleton.
    + repeat split; congruence.
  - cbn. rewrite app_nil_r. repeat split; try done.
    intros r Hr. by apply not_elem_of_nil in Hr.
Qed.

(** X6, the transmit phase: [Network.transmit_packets] never raises; it
    empties the output queue of every router of the network and appends
    the packets to the in-transit sequence, router after router, each
    queue in its order; input queues, packets and output streams are as
    before. *)
Theorem transmit_packets_moves_outputs i s :
  NoDup (routers s) →
  ∃ s', Network_transmit_packets i s = Ok tt s' ∧
        packets s' =
          packets s ++ concat ((λ r, output (rheap s !!! r)) <$> routers s) ∧
        (∀ r, r ∈ routers s → output (rheap s' !!! r) = []) ∧
        (∀ r, r ∉ routers s → output (rheap s' !!! r) = output (rheap s !!! r)) ∧
        (∀ r, input (rheap s' !!! r) = input (rheap s !!! r)) ∧
        pheap s' = pheap s ∧ stdout s' = stdout s ∧ stderr s' = stderr s.
Proof.
  intros Hnd.
  pose proof (transmit_packets_loop (routers s) s) as H.
  apply wp_no_exn in H as ([] & s' & Hrun & H1 & H2 & H3 & H4 & H5 & H6 & H7 & H8 & H9 & _).
  exists s'. split; [exact Hrun|]. repeat split; auto.
Qed.

(** ** The tick boundary *)

Lemma wp_conseq {A} (m : M A) (Qok Qok' : A → State → Prop)
    (Qex Qex' : Exn → State → Prop) s :
  (∀ a s', Qok a s' → Qok' a s') → (∀ e s', Qex e s' → Qex' e s') →
  wp m Qok Qex s → wp m Qok' Qex' s.
Proof. unfold wp. destruct (m s); eauto. Qed.

Lemma wp_any {A} (m : M A) s : wp m (λ _ _, True) any_exn s.
Proof. unfold wp, any_exn. by destruct (m s). Qed.

(** After the phase that processes the input queues, the input queue of
    every router of the network is empty. *)
Lemma process_incoming_packets_empties i s :
  wp (Network_process_incoming_packets i)
     (λ _ s', ∀ r, r ∈ routers s' → input (rheap s' !!! r) = []) any_exn s.
Proof.
  unfold Network_process_incoming_packets. apply wp_bind, wp_gets.
  eapply wp_mono;
    [|apply (wp_forM (routers s) _
               (λ l1 s', routers s' = routers s ∧
                         ∀ r, r ∈ l1 → input (rheap s' !!! r) = []))].
  - intros _ s' (Hrs & H). by rewrite Hrs.
  - intros l1 x l2 s' Heq (Hrs & H).
    eapply wp_conseq; [| |apply router_process_local].
    + intros _ s'' (Hx & Hloc & _ & Hrs'). split; [congruence|].
      intros r [Hr|Hr%list_elem_of_singleton]%elem_of_app; [|by subst].
      destruct (decide (r = x)) as [->|Hne]; [done|].
      rewrite (Hloc r Hne). by apply H.
    + done.
  - split; [done|]. intros r Hr. by apply not_elem_of_nil in Hr.
Qed.

Lemma finished_idle s :
  routers_idle s → (Network_finished s = true ↔ packets s = []).
Proof.
  intros Hidle. unfold Network_finished. rewrite andb_true_iff, Nat.eqb_eq.
  rewrite length_zero_iff_nil. split; [tauto|]. intros Hp. split; [done|].
  apply forallb_forall. intros r Hr%list_elem_of_In.
  destruct (Hidle r Hr) as (-> & ->). done.
Qed.

Lemma transmit_packets_idle i s :
  (∀ r, r ∈ routers s → input (rheap s !!! r) = []) →
  wp (Network_transmit_packets i) (λ _, routers_idle) any_exn s.
Proof.
  intros Hidle.
  eapply wp_conseq; [| |apply (transmit_packets_loop (routers s) s)]; [|done].
  intros _ s' (Hout & _ & Hin & _ & _ & _ & Hrs & _). intros r Hr.
  rewrite Hrs in Hr. split; [rewrite Hin; by apply Hidle|by apply Hout].
Qed.

Lemma tick_idle Q random i s :
  wp (Network_tick Q random i) (λ _ s', routers_idle s') any_exn s.
Proof.
  unfold Network_tick.
  do 5 (wp_seq (λ _ : State, True) ltac:(apply wp_any)).
  wp_seq (λ s', ∀ r, r ∈ routers s' → input (rheap s' !!! r) = [])
         ltac:(apply process_incoming_packets_empties).
  wp_seq (λ s', ∀ r, r ∈ routers s' → input (rheap s' !!! r) = [])
         ltac:(apply wp_bind, wp_gets, wp_modify; assumption).
  wp_seq routers_idle ltac:(by apply transmit_packets_idle).
  apply wp_bind, wp_gets, wp_modify.
  match goal with H : routers_idle _ |- _ => exact H end.
Qed.

(** X7, the tick boundary: when a tick returns, the queues of all routers
    of the network are empty, whatever the state it started in: a packet
    that arrives is processed and sent on within the tick, and packets
    wait only in transit.  So between two ticks [finished] holds exactly
    when no packet is in transit. *)
Theorem tick_empties_queues Q random i s :
  wp (Network_tick Q random i)
     (λ _ s', routers_idle s' ∧ (Network_finished s' = true ↔ packets s' = []))
     any_exn s.
Proof.
  eapply wp_mono; [|apply tick_idle].
  intros ? s' Hidle. split; [done|]. by apply finished_idle.
Qed.

(** ** The end of a run *)

Lemma queued_zero L s :
  queued L s = 0%nat ↔
  ∀ r, r ∈ L → input (rheap s !!! r) = [] ∧ output (rheap s !!! r) = [].
Proof.
  unfold queued. induction L as [|a L IH]; cbn.
  - split; [|done]. intros _ r Hr. by apply not_elem_of_nil in Hr.
  - rewrite Nat.eq_add_0, IH. unfold queue_len.
    rewrite Nat.eq_add_0, !length_zero_iff_nil. split.
    + intros (Ha & HL) r [->|Hr]%elem_of_cons; [done|by apply HL].
    + intros H. split; [apply H, list_elem_of_here|].
      intros r Hr. by apply H, list_elem_of_further.
Qed.

Lemma routers_idle_queued s :
  routers_idle s ↔ queued (remove_dups (routers s)) s = 0%nat.
Proof.
  rewrite queued_zero. unfold routers_idle.
  split; intros H r Hr; apply H; by apply elem_of_remove_dups.
Qed.

Lemma finished_spec s :
  Network_finished s = true ↔ packets s = [] ∧ routers_idle s.
Proof.
  unfold Network_finished. rewrite andb_true_iff, Nat.eqb_eq, length_zero_iff_nil.
  rewrite forallb_forall. unfold routers_idle.
  split; intros (Hp & H); (split; [done|]).
  - intros r Hr%list_elem_of_In. specialize (H r Hr).
    rewrite andb_true_iff, !Nat.eqb_eq, !length_zero_iff_nil in H. done.
  - intros r Hr%list_elem_of_In. destruct (H r Hr) as (-> & ->). done.
Qed.

Lemma finished_live s :
  Network_finished s = true ↔ live s = 0%nat.
Proof.
  rewrite finished_spec, routers_idle_queued. unfold live.
  rewrite Nat.eq_add_0, length_zero_iff_nil. done.
Qed.

(** X8, [finished] counts the live packets: [Network.finished] answers
    true exactly when no packet is live, that is when none is in transit
    nor in a queue of a router of the network. *)
Theorem finished_iff_no_live_packet s :
  Network_finished s = true ↔ live s = 0%nat.
Proof. apply finished_live. Qed.

Lemma ticks_from_nonneg Q random s0 i s : ticks_from Q random s0 i s → 0 ≤ i.
Proof. induction 1; lia. Qed.

Lemma ticks_from_functional Q random s0 i s s' :
  ticks_from Q random s0 i s → ticks_from Q random s0 i s' → s = s'.
Proof.
  intros H. revert s'. induction H as [|i s s1 H IH Htick]; intros s' H'.
  - inversion H' as [|j a b Hj Hab Heq]; [done|].
    apply ticks_from_nonneg in Hj. lia.
  - inversion H' as [Heq|j a b Hj Hab Heq].
    + apply ticks_from_nonneg in H. lia.
    + assert (j = i) as -> by lia. rewrite <- (IH a Hj) in Hab. congruence.
Qed.

Lemma run_loop_returns Q random s0 fuel i s s' :
  ticks_from Q random s0 i s →
  (∀ j s1, 1 ≤ j ≤ i → ticks_from Q random s0 j s1 → Network_finished s1 = false) →
  run_loop Q random fuel i s = Some (Ok tt s') →
  ∃ k, i < k ≤ i + Z.of_nat fuel ∧
       ticks_from Q random s0 k s' ∧
       Network_finished s' = true ∧
       ∀ j s1, 1 ≤ j < k → ticks_from Q random s0 j s1 → Network_finished s1 = false.
Proof.
  revert i s. induction fuel as [|fuel IH]; intros i s Hi Hbefore; [done|].
  cbn [run_loop].
  destruct (Network_tick Q random (i + 1) s) as [[] s1|] eqn:Htick; [|done].
  assert (H1 : ticks_from Q random s0 (i + 1) s1) by (by eapply ticks_next).
  destruct (Network_finished s1) eqn:Hfin.
  - intros [= <-]. exists (i + 1). split; [lia|]. split; [done|]. split; [done|].
    intros j s2 Hj. apply Hbefore. lia.
  - intros Hrun. destruct (IH (i + 1) s1 H1) as (k & Hk & Hk' & Hf & Hb); [|done|].
    + intros j s2 Hj Hj'. destruct (decide (j = i + 1)) as [->|Hne].
      * by rewrite (ticks_from_functional _ _ _ _ _ _ Hj' H1).
      * apply (Hbefore j); [lia|done].
    + exists k. split; [lia|done].
Qed.

(** X9, a run that returns: when [Network.run] returns, it made at least
    one tick; the state it stopped in is the first tick boundary where
    [finished] holds, and no packet is live there. *)
Theorem run_returns_finished Q random fuel s s' :
  Network_run Q random fuel s = Some (Ok tt s') →
  ∃ k, 1 ≤ k ≤ Z.of_nat fuel ∧
       ticks_from Q random s k s' ∧
       live s' = 0%nat ∧
       ∀ j s1, 1 ≤ j < k → ticks_from Q random s j s1 → Network_finished s1 = false.
Proof.
  intros Hrun.
  destruct (run_loop_returns Q random s fuel 0 s s') as (k & Hk & Ht & Hf & Hb).
  - apply ticks_none.
  - intros j s1 Hj. lia.
  - exact Hrun.
  - exists k. split; [lia|]. split; [done|]. split; [|done].
    by apply finished_live.
Qed.

(** ** Phases that find nothing to do *)

Lemma forM_skip {A} (l : list A) (body : A → M unit) s :
  (∀ x, x ∈ l → body x s = Ok tt s) → forM l body s = Ok tt s.
Proof.
  induction l as [|x l IH]; intros H; [done|].
  cbn. unfold mbind, M_bind, bind. rewrite (H x) by apply list_elem_of_here.
  apply IH. intros y Hy. by apply H, list_elem_of_further.
Qed.

Lemma deliver_packets_none i s :
  packets s = [] → Network_deliver_packets i s = Ok tt s.
Proof.
  intros Hp. unfold Network_deliver_packets, mbind, M_bind, bind, gets.
  by rewrite Hp.
Qed.

Lemma process_incoming_packets_none i s :
  (∀ r, r ∈ routers s → input (rheap s !!! r) = []) →
  Network_process_incoming_packets i s = Ok tt s.
Proof.
  intros H. unfold Network_process_incoming_packets.
  unfold mbind at 1, M_bind, bind, gets.
  apply forM_skip. intros r Hr.
  unfold Router_process_incoming_packets, mbind, M_bind, bind, gets.
  by rewrite (H r Hr).
Qed.

Lemma transmit_packets_none i s :
  (∀ r, r ∈ routers s → output (rheap s !!! r) = []) →
  Network_transmit_packets i s = Ok tt s.
Proof.
  intros H. unfold Network_transmit_packets.
  unfold mbind at 1, M_bind, bind, gets.
  apply forM_skip. intros r Hr.
  unfold mbind, M_bind, bind, gets. by rewrite (H r Hr).
Qed.

Lemma drop_packets_empty Q random i s :
  packets s = [] →
  Network_drop_packets Q random i s = Ok tt (set_packets [] (set_drawn (drawn s + 0) s)).
Proof. intros Hp. rewrite drop_packets_unfold, Hp. cbn. by rewrite Hp. Qed.

(** A tick of a network without a live packet only writes its five lines
    to the standard error stream. *)
Lemma tick_without_packets Q random i s :
  packets s = [] → routers_idle s →
  wp (Network_tick Q random i)
     (λ _ s', packets s' = [] ∧ rheap s' = rheap s ∧ pheap s' = pheap s ∧
              pnext s' = pnext s ∧ routers s' = routers s ∧
              drawn s' = drawn s ∧ stdout s' = stdout s ∧
              stderr s' = stderr s ++
                [err_t i; err_pre_deliver [];
                 err_post_deliver (Router_str s <$> routers s);
                 err_pre_transmit (Router_str s <$> routers s);
                 err_post_transmit []])
     no_exn s.
Proof.
  intros Hp Hidle.
  set (J := λ (log : list ErrLine) (s' : State),
         packets s' = [] ∧ rheap s' = rheap s ∧ pheap s' = pheap s ∧
         pnext s' = pnext s ∧ routers s' = routers s ∧
         drawn s' = drawn s ∧ stdout s' = stdout s ∧
         stderr s' = stderr s ++ log).
  assert (Hstr : ∀ s', rheap s' = rheap s → pheap s' = pheap s →
                       routers s' = routers s →
                       Router_str s' <$> routers s' = Router_str s <$> routers s).
  { intros s' Hr Hh ->. apply list_fmap_ext. intros _ r _.
    unfold Router_str, Packet_str. by rewrite Hr, Hh. }
  assert (Hin : ∀ log s', J log s' →
            (∀ r, r ∈ routers s' → input (rheap s' !!! r) = []) ∧
            (∀ r, r ∈ routers s' → output (rheap s' !!! r) = [])).
  { intros log s' (_ & Hr & _ & _ & Hrs & _). rewrite Hr, Hrs.
    split; intros r Hr'; by destruct (Hidle r Hr'). }
  unfold Network_tick.
  wp_seq (J [err_t i]) ltac:(apply wp_modify; unfold J; cbn; by rewrite Hp).
  wp_seq (J [err_t i; err_pre_deliver []]) ltac:(idtac).
  2:{ apply wp_bind, wp_gets, wp_modify. destruct HK as (Hp0 & ? & ? & ? & ? & ? & ? & He).
      unfold J. cbn. rewrite Hp0, He, <- app_assoc. done. }
  wp_seq (J [err_t i; err_pre_deliver []]) ltac:(idtac).
  2:{ destruct HK0 as (Hp0 & ? & ? & ? & ? & ? & ? & He).
      unfold wp. rewrite (drop_packets_empty Q random i _ Hp0).
      unfold J. cbn. rewrite Nat.add_0_r. done. }
  wp_seq (J [err_t i; err_pre_deliver []]) ltac:(idtac).
  2:{ unfold wp. rewrite deliver_packets_none by apply HK1. done. }
  wp_seq (J [err_t i; err_pre_deliver [];
             err_post_deliver (Router_str s <$> routers s)]) ltac:(idtac).
  2:{ apply wp_bind, wp_gets, wp_modify.
      destruct HK2 as (Hp0 & Hr & Hh & ? & Hrs & ? & ? & He).
      unfold J. cbn. rewrite (Hstr _ Hr Hh Hrs), He, <- app_assoc. done. }
  wp_seq (J [err_t i; err_pre_deliver [];
             err_post_deliver (Router_str s <$> routers s)]) ltac:(idtac).
  2:{ unfold wp. rewrite process_incoming_packets_none by apply (Hin _ _ HK3). done. }
  wp_seq (J [err_t i; err_pre_deliver [];
             err_post_deliver (Router_str s <$> routers s);
             err_pre_transmit (Router_str s <$> routers s)]) ltac:(idtac).
  2:{ apply wp_bind, wp_gets, wp_modify.
      destruct HK4 as (Hp0 & Hr & Hh & ? & Hrs & ? & ? & He).
      unfold J. cbn. rewrite (Hstr _ Hr Hh Hrs), He, <- app_assoc. done. }
  wp_seq (J [err_t i; err_pre_deliver [];
             err_post_deliver (Router_str s <$> routers s);
             err_pre_transmit (Router_str s <$> routers s)]) ltac:(idtac).
  2:{ unfold wp. rewrite transmit_packets_none by apply (Hin _ _ HK5). done. }
  apply wp_bind, wp_gets, wp_modify.
  destruct HK6 as (Hp0 & Hr & Hh & ? & Hrs & ? & ? & He).
  cbn. rewrite Hp0, He, <- app_assoc. done.
Qed.

(** X10, a network without packets: [run] makes its first tick before it
    asks [finished], so on a network without a live packet it makes
    exactly one tick and returns: five lines are written to the standard
    error stream, none to the standard output, and no random number is
    drawn. *)
Theorem run_without_packets Q random fuel s :
  live s = 0%nat →
  ∃ s', Network_run Q random (S fuel) s = Some (Ok tt s') ∧
        stdout s' = stdout s ∧
        stderr s' = stderr s ++
          [err_t 1; err_pre_deliver [];
           err_post_deliver (Router_str s <$> routers s);
           err_pre_transmit (Router_str s <$> routers s);
           err_post_transmit []] ∧
        drawn s' = drawn s ∧ rheap s' = rheap s ∧ packets s' = [].
Proof.
  intros Hlive. apply finished_live, finished_spec in Hlive as (Hp & Hidle).
  pose proof (tick_without_packets Q random (0 + 1) s Hp Hidle) as Htick.
  apply wp_no_exn in Htick
    as ([] & s' & Htick & Hp' & Hr & Hh & Hn & Hrs & Hd & Ho & He).
  exists s'. unfold Network_run. cbn [run_loop]. rewrite Htick.
  assert (Hfin : Network_finished s' = true).
  { apply finished_spec. split; [done|]. intros r Hr'. rewrite Hr.
    rewrite Hrs in Hr'. by apply Hidle. }
  rewrite Hfin. done.
Qed.

(** ** Total loss *)

Lemma report_dropped_queues i p s :
  wp (report_dropped i p)
     (λ _ s', rheap s' = rheap s ∧ routers s' = routers s ∧ packets s' = packets s)
     any_exn s.
Proof.
  unfold wp. rewrite report_dropped_unfold. by destruct (via (pheap s !!! p)).
Qed.

Lemma drop_packets_all Q random i s :
  (∀ k, Qle (random k) Q) →
  wp (Network_drop_packets Q random i)
     (λ _ s', packets s' = [] ∧ rheap s' = rheap s ∧ routers s' = routers s)
     any_exn s.
Proof.
  intros Hle. unfold wp. rewrite drop_packets_unfold. cbn zeta.
  rewrite draw_dropped_all by done.
  pose proof (wp_forM_inv (packets s) (report_dropped i)
    (λ s', rheap s' = rheap s ∧ routers s' = routers s ∧ packets s' = packets s)
    any_exn (set_drawn (drawn s + length (packets s)) s)) as H.
  unfold wp in H.
  destruct (forM (packets s) (report_dropped i) _) as [[] s'|]; [|done].
  destruct H as (Hr & Hrs & Hp); [|done|].
  - intros p s1 _ (Hr & Hrs & Hp).
    eapply wp_mono; [|apply report_dropped_queues].
    intros ? s2 (-> & -> & ->). done.
  - cbn. rewrite Hp, filter_not_in_self. done.
Qed.

Lemma tick_total_loss Q random i s :
  (∀ k, Qle (random k) Q) → routers_idle s →
  wp (Network_tick Q random i) (λ _ s', Network_finished s' = true) any_exn s.
Proof.
  intros Hle Hidle.
  set (J := λ s' : State, rheap s' = rheap s ∧ routers s' = routers s).
  set (K := λ s' : State, packets s' = [] ∧ J s').
  assert (HJ : ∀ s', J s' → routers_idle s').
  { intros s' (Hr & Hrs). unfold routers_idle. by rewrite Hr, Hrs. }
  unfold Network_tick.
  wp_seq J ltac:(by apply wp_modify).
  wp_seq J ltac:(apply wp_bind, wp_gets, wp_modify; exact HK).
  wp_seq K ltac:(idtac).
  2:{ eapply wp_mono; [|by apply drop_packets_all].
      intros ? s' (? & Hr & Hrs). destruct HK0 as (Hr0 & Hrs0).
      split; [done|]. split; congruence. }
  wp_seq K ltac:(idtac).
  2:{ unfold wp. rewrite deliver_packets_none by apply HK1. done. }
  wp_seq K ltac:(apply wp_bind, wp_gets, wp_modify; exact HK2).
  wp_seq K ltac:(idtac).
  2:{ unfold wp. lazymatch goal with H : _ |- _ => destruct H as (Hp0 & HJ0) end.
      rewrite process_incoming_packets_none; [by split|].
      intros r Hr. by destruct (HJ _ HJ0 r Hr). }
  wp_seq K ltac:(apply wp_bind, wp_gets, wp_modify; exact HK4).
  wp_seq K ltac:(idtac).
  2:{ unfold wp. lazymatch goal with H : _ |- _ => destruct H as (Hp0 & HJ0) end.
      rewrite transmit_packets_none; [by split|].
      intros r Hr. by destruct (HJ _ HJ0 r Hr). }
  apply wp_bind, wp_gets, wp_modify. apply finished_spec.
  lazymatch goal with H : _ |- _ => destruct H as (Hp & HJ6) end.
  split; [exact Hp|]. by apply HJ.
Qed.

(** X11, total loss: when every draw is at most [Q] (as with [Q = 1]),
    every packet sent is dropped in the next tick, and the run is over
    after two ticks at the latest, whatever the network and the packets:
    it returns, or it has raised an exception. *)
Theorem run_total_loss Q random fuel s :
  (∀ k, Qle (random k) Q) →
  ∃ res, Network_run Q random (S (S fuel)) s = Some res.
Proof.
  intros Hle. unfold Network_run. cbn [run_loop].
  pose proof (tick_idle Q random (0 + 1) s) as H1. unfold wp in H1.
  destruct (Network_tick Q random (0 + 1) s) as [[] s1|e s1]; [|by eexists].
  destruct (Network_finished s1); [by eexists|].
  pose proof (tick_total_loss Q random (0 + 1 + 1) s1 Hle H1) as H2. unfold wp in H2.
  destruct (Network_tick Q random (0 + 1 + 1) s1) as [[] s2|e s2]; [|by eexists].
  rewrite H2. by eexists.
Qed.

(** ** The constructor of the Network *)

Lemma filter_snoc_source (h : gmap pref Packet) r l p :
  filter (λ p, source (h !!! p) = r) (l ++ [p]) =
    filter (λ p, source (h !!! p) = r) l ++
    (if decide (source (h !!! p) = r) then [p] else []).
Proof.
  rewrite list.filter_app. f_equal.
Qed.

Lemma Network_init_loop rs ps s :
  wp (Network_init rs ps)
     (λ _ s', routers s' = rs ∧ packets s' = [] ∧
              (∀ r, input (rheap s' !!! r) =
                      input (rheap s !!! r) ++
                      filter (λ p, source (pheap s !!! p) = r) ps ∧
                    output (rheap s' !!! r) = output (rheap s !!! r) ∧
                    id (rheap s' !!! r) = id (rheap s !!! r) ∧
                    connections (rheap s' !!! r) = connections (rheap s !!! r) ∧
                    routes (rheap s' !!! r) = routes (rheap s !!! r)) ∧
              pheap s' = pheap s ∧ pnext s' = pnext s ∧
              stdout s' = stdout s ∧ stderr s' = stderr s)
     no_exn s.
Proof.
  unfold Network_init.
  apply wp_bind, wp_modify. apply wp_bind, wp_modify. apply wp_bind, wp_gets.
  cbn [packets set_packets].
  eapply wp_mono;
    [|apply (wp_repeatM _ _
        (λ k s', routers s' = rs ∧ packets s' = drop k ps ∧
              (∀ r, input (rheap s' !!! r) =
                      input (rheap s !!! r) ++
                      filter (λ p, source (pheap s !!! p) = r) (take k ps) ∧
                    output (rheap s' !!! r) = output (rheap s !!! r) ∧
                    id (rheap s' !!! r) = id (rheap s !!! r) ∧
                    connections (rheap s' !!! r) = connections (rheap s !!! r) ∧
                    routes (rheap s' !!! r) = routes (rheap s !!! r)) ∧
              pheap s' = pheap s ∧ pnext s' = pnext s ∧
              stdout s' = stdout s ∧ stderr s' = stderr s))].
  - intros ? s' (Hrs & Hp & Hr & H). rewrite drop_all in Hp.
    rewrite firstn_all in Hr. done.
  - intros k s' Hk (Hrs & Hp & Hr & Hh & Hn & H1 & H2).
    destruct (drop k ps) as [|p rest] eqn:Hd.
    { apply (f_equal length) in Hd. rewrite length_drop in Hd. cbn in Hd. lia. }
    apply drop_cons_inv in Hd as (Hd & Ht). rewrite Hd, Ht.
    unfold wp. rewrite (inject_packet_unfold s' p rest Hp). cbn. rewrite Hh.
    repeat split; try done.
    + rewrite filter_snoc_source.
      destruct (decide (source (pheap s !!! p) = r)) as [->|Hne]; heap_simpl.
      * cbn. destruct (Hr r) as (-> & _). by rewrite app_assoc.
      * rewrite app_nil_r. apply Hr.
    + destruct (decide (source (pheap s !!! p) = r)) as [->|Hne]; heap_simpl;
        apply Hr.
    + destruct (decide (source (pheap s !!! p) = r)) as [->|Hne]; heap_simpl;
        apply Hr.
    + destruct (decide (source (pheap s !!! p) = r)) as [->|Hne]; heap_simpl;
        apply Hr.
    + destruct (decide (source (pheap s !!! p) = r)) as [->|Hne]; heap_simpl;
        apply Hr.
  - cbn. repeat split; try done. by rewrite app_nil_r.
Qed.

(** X12, the constructor hands every packet to its source: [Network(routers,
    packets)] always returns; it empties the list of packets it was given
    and appends each packet to the input queue of its source router, in
    the order of the list, behind the packets already there; nothing is in
    transit, and nothing else changes. *)
Theorem Network_init_queues rs ps s :
  ∃ s', Network_init rs ps s = Ok tt s' ∧
        routers s' = rs ∧ packets s' = [] ∧
        (∀ r, input (rheap s' !!! r) =
                input (rheap s !!! r) ++
                filter (λ p, source (pheap s !!! p) = r) ps ∧
              output (rheap s' !!! r) = output (rheap s !!! r)) ∧
        pheap s' = pheap s ∧ stdout s' = stdout s ∧ stderr s' = stderr s.
Proof.
  pose proof (Network_init_loop rs ps s) as H.
  apply wp_no_exn in H as ([] & s' & Hrun & Hrs & Hp & Hr & Hh & Hn & H1 & H2).
  exists s'. repeat split; try done; apply Hr.
Qed.

(** ** The loss phase, in general *)

(** X13, the loss phase: [drop_packets] calls [random.random()] once for
    every packet in transit, in their order; the packets whose draw is at
    most [Q] leave the in-transit sequence, the order of the others is
    kept, and for each dropped packet one [status=lost] line is written
    with the tick index and, as node, the identifier of the next hop. *)
Theorem drop_packets_result Q random i s :
  Forall (λ p, is_Some (via (pheap s !!! p))) (packets s) →
  ∃ s', Network_drop_packets Q random i s = Ok tt s' ∧
        packets s' =
          filter (λ p, p ∉ draw_dropped Q random (packets s) (drawn s)) (packets s) ∧
        drawn s' = (drawn s + length (packets s))%nat ∧
        stdout s' =
          stdout s ++
          (lost_line i s <$> draw_dropped Q random (packets s) (drawn s)) ∧
        pheap s' = pheap s ∧ rheap s' = rheap s.
Proof.
  intros Hvia. rewrite drop_packets_unfold. cbn zeta.
  assert (Hd : Forall (λ p, is_Some (via (pheap s !!! p)))
                      (draw_dropped Q random (packets s) (drawn s))).
  { rewrite !list.Forall_forall in *. intros p Hp. apply Hvia.
    by apply (draw_dropped_sublist Q random _ (drawn s)). }
  rewrite drop_reports_ok by done.
  eexists. split; [done|]. cbn.
  destruct (lost_reports_frame i (draw_dropped Q random (packets s) (drawn s))
              (set_drawn (drawn s + length (packets s)) s))
    as (-> & -> & _ & -> & _ & ->).
  rewrite lost_reports_stdout by done. done.
Qed.

(** ** The lines of the standard output *)

Lemma reports_since_refl i s : reports_since i s s.
Proof. exists []. by rewrite app_nil_r. Qed.

Lemma reports_since_frame i s s' s'' :
  stdout s'' = stdout s' → reports_since i s s' → reports_since i s s''.
Proof. intros Heq (l & Hl & HP). exists l. by rewrite Heq. Qed.

Lemma reports_since_log_out i s s' line :
  report_of_tick i line → reports_since i s s' →
  reports_since i s (log_out line s').
Proof.
  intros Hline (l & Hl & HP). exists (l ++ [line]). split.
  - cbn. by rewrite Hl, app_assoc.
  - apply Forall_app. split; [done|]. by apply Forall_singleton.
Qed.

Lemma process_packet_reports s0 self i s :
  reports_since i s0 s →
  wp (process_packet self i) (λ _, reports_since i s0) (λ _, reports_since i s0) s.
Proof.
  intros HR. unfold wp.
  destruct (input (rheap s !!! self)) as [|p rest] eqn:Hin.
  { by rewrite process_packet_empty. }
  rewrite (process_packet_unfold self i s p rest Hin). cbn zeta.
  destruct (Nat.eqb_spec (destination (pheap s !!! p)) self) as [Hdst|_].
  - destruct (is_reply (pheap s !!! p)).
    + apply reports_since_log_out; [|by eapply reports_since_frame].
      split; [done|]. intros _. cbn. rewrite Hdst. by heap_simpl.
    + destruct (get_route_for (rheap s !!! self) (source (pheap s !!! p))
                  ≫= (connections (rheap s !!! self) !!.)) as [d|];
        by eapply reports_since_frame.
  - destruct (connections (rheap s !!! self) !! destination (pheap s !!! p)) as [d|];
      [by eapply reports_since_frame|].
    destruct (routes (rheap s !!! self) !! destination (pheap s !!! p)) as [next|];
      [|by eapply reports_since_frame].
    destruct (connections (rheap s !!! self) !! next) as [d|];
      by eapply reports_since_frame.
Qed.

Lemma deliver_packet_reports s0 i s :
  reports_since i s0 s →
  wp deliver_packet (λ _, reports_since i s0) (λ _, reports_since i s0) s.
Proof.
  intros HR. unfold wp.
  destruct (packets s) as [|p rest] eqn:Hp.
  { by rewrite deliver_packet_empty. }
  rewrite (deliver_packet_unfold s p rest Hp). cbn zeta.
  destruct (delay (pheap s !!! p)) as [d|]; [|by eapply reports_since_frame].
  destruct (d - 1 <=? 0); [|by eapply reports_since_frame].
  destruct (via (pheap s !!! p)) as [v|]; by eapply reports_since_frame.
Qed.

Lemma transmit_packet_reports s0 i r s :
  reports_since i s0 s →
  wp (transmit_packet r) (λ _, reports_since i s0) (λ _, reports_since i s0) s.
Proof.
  intros HR. unfold wp.
  destruct (output (rheap s !!! r)) as [|p rest] eqn:Ho.
  { by rewrite transmit_packet_empty. }
  rewrite (transmit_packet_unfold r s p rest Ho). by eapply reports_since_frame.
Qed.

Lemma report_dropped_reports s0 i p s :
  reports_since i s0 s →
  wp (report_dropped i p) (λ _, reports_since i s0) (λ _, reports_since i s0) s.
Proof.
  intros HR. unfold wp. rewrite report_dropped_unfold.
  destruct (via (pheap s !!! p)) as [v|]; [|by eapply reports_since_frame].
  apply reports_since_log_out; [done|]. by eapply reports_since_frame.
Qed.

(** X14, the lines of a tick: whether tick [i] returns or raises, it only
    appends to the standard output; every line it writes carries the tick
    index [i], and in every [status=delivered] line the reporting node is
    the destination of the packet. *)
Theorem tick_reports Q random i s :
  wp (Network_tick Q random i) (λ _, reports_since i s) (λ _, reports_since i s) s.
Proof.
  apply (tick_inv Q random i (reports_since i s)).
  - intros s' line HR. by eapply reports_since_frame.
  - intros s' k HR. by eapply reports_since_frame.
  - intros. by apply report_dropped_reports.
  - intros s' l HR. by eapply reports_since_frame.
  - intros. by apply deliver_packet_reports.
  - intros. by apply process_packet_reports.
  - intros. by apply transmit_packet_reports.
  - apply reports_since_refl.
Qed.

(** ** The delivery phase *)

Lemma filter_snoc {A} (P : A → Prop) `{!∀ x, Decision (P x)} (l : list A) x :
  filter P (l ++ [x]) = filter P l ++ (if decide (P x) then [x] else []).
Proof. rewrite list.filter_app. f_equal. Qed.


(** One iteration of the loop, for the packet [p] at the head of the
    in-transit sequence. *)
Lemma deliver_packet_step s p rest :
  packets s = p :: rest →
  (arrives (pheap s !!! p) = true → is_Some (via (pheap s !!! p))) →
  ∃ s', deliver_packet s = Ok tt s' ∧
        packets s' = rest ++ (if stays (pheap s !!! p) then [p] else []) ∧
        (∀ r, input (rheap s' !!! r) =
                input (rheap s !!! r) ++
                (if decide (arrives (pheap s !!! p) = true ∧
                            via (pheap s !!! p) = Some r) then [p] else []) ∧
              output (rheap s' !!! r) = output (rheap s !!! r)) ∧
        pheap s' !!! p = after_delivery (pheap s !!! p) ∧
        (∀ p', p' ≠ p → pheap s' !!! p' = pheap s !!! p') ∧
        stdout s' = stdout s ∧ stderr s' = stderr s.
Proof.
  intros Hp Hvia. rewrite (deliver_packet_unfold s p rest Hp). cbn zeta.
  unfold arrives, stays, after_delivery, arrives in *.
  destruct (delay (pheap s !!! p)) as [d|] eqn:Hd.
  - destruct (d - 1 <=? 0) eqn:Hle.
    + destruct Hvia as [v Hv]; [done|]. rewrite Hv.
      eexists. split; [done|]. cbn. heap_simpl. rewrite app_nil_r.
      repeat split; try done.
      * destruct (decide (v = r)) as [->|Hne]; heap_simpl.
        -- by rewrite decide_True.
        -- rewrite decide_False, app_nil_r; [done|]. intros (_ & [= ?]). done.
      * destruct (decide (v = r)) as [->|Hne]; by heap_simpl.
      * intros p' Hp'. by heap_simpl.
    + eexists. split; [done|]. cbn. heap_simpl.
      repeat split; try done.
      * rewrite decide_False, app_nil_r; [done|]. by intros (? & _).
      * intros p' Hp'. by heap_simpl.
  - eexists. split; [done|]. cbn. heap_simpl. rewrite app_nil_r.
    repeat split; try done.
    + rewrite decide_False, app_nil_r; [done|]. by intros (? & _).
    + intros p' Hp'. by heap_simpl.
Qed.

Lemma deliver_packets_loop i s :
  NoDup (packets s) →
  (∀ p, p ∈ packets s → arrives (pheap s !!! p) = true →
        is_Some (via (pheap s !!! p))) →
  wp (Network_deliver_packets i)
     (λ _ s',
        packets s' = filter (λ p, stays (pheap s !!! p) = true) (packets s) ∧
        (∀ r, input (rheap s' !!! r) =
                input (rheap s !!! r) ++
                filter (λ p, arrives (pheap s !!! p) = true ∧
                             via (pheap s !!! p) = Some r) (packets s) ∧
              output (rheap s' !!! r) = output (rheap s !!! r)) ∧
        (∀ p, p ∈ packets s → pheap s' !!! p = after_delivery (pheap s !!! p)) ∧
        (∀ p, p ∉ packets s → pheap s' !!! p = pheap s !!! p) ∧
        stdout s' = stdout s ∧ stderr s' = stderr s)
     no_exn s.
Proof.
  intros Hnd Hvia. unfold Network_deliver_packets. apply wp_bind, wp_gets.
  set (ps := packets s) in *.
  eapply wp_mono;
    [|apply (wp_repeatM _ _
        (λ k s',
           packets s' =
             drop k ps ++ filter (λ p, stays (pheap s !!! p) = true) (take k ps) ∧
           (∀ r, input (rheap s' !!! r) =
                   input (rheap s !!! r) ++
                   filter (λ p, arrives (pheap s !!! p) = true ∧
                                via (pheap s !!! p) = Some r) (take k ps) ∧
                 output (rheap s' !!! r) = output (rheap s !!! r)) ∧
           (∀ p, p ∈ take k ps → pheap s' !!! p = after_delivery (pheap s !!! p)) ∧
           (∀ p, p ∉ take k ps → pheap s' !!! p = pheap s !!! p) ∧
           stdout s' = stdout s ∧ stderr s' = stderr s))].
  - intros ? s' H. by rewrite drop_all, firstn_all in H.
  - intros k s' Hk (Hp & Hr & Hdone & Htodo & H1 & H2).
    destruct (drop k ps) as [|p rest] eqn:Hd.
    { apply (f_equal length) in Hd. rewrite length_drop in Hd. cbn in Hd. lia. }
    assert (Hpk : ps !! k = Some p).
    { rewrite <- (Nat.add_0_r k), <- lookup_drop, Hd. done. }
    apply drop_cons_inv in Hd as (Hd & Ht). rewrite Hd, Ht.
    assert (Hfresh : p ∉ take k ps).
    { intros (j & Hj)%list_elem_of_lookup_1.
      apply lookup_take_Some in Hj as (Hj & Hlt).
      assert (j = k) by (by apply (NoDup_lookup ps j k p)). lia. }
    assert (Hsame : pheap s' !!! p = pheap s !!! p) by (by apply Htodo).
    destruct (deliver_packet_step s' p
                (rest ++ filter (λ p, stays (pheap s !!! p) = true) (take k ps)))
      as (s'' & Hrun & Hp' & Hr' & Hdone' & Htodo' & H1' & H2').
    { done. }
    { rewrite Hsame. apply Hvia. by eapply list_elem_of_lookup_2. }
    unfold wp. rewrite Hrun. rewrite Hsame in *.
    split; [|split; [|split; [|split; [|split]]]]; try congruence.
    + rewrite Hp', filter_snoc, <- !app_assoc. do 2 f_equal.
      destruct (stays (pheap s !!! p)); [by rewrite decide_True|].
      by rewrite decide_False.
    + intros r. destruct (Hr' r) as (-> & ->). destruct (Hr r) as (-> & ->).
      split; [|done]. by rewrite filter_snoc, <- !app_assoc.
    + intros p' [Hin|Heq%list_elem_of_singleton]%elem_of_app; [|by subst].
      rewrite Htodo' by (intros ->; done). by apply Hdone.
    + intros p' Hp''. rewrite elem_of_app, list_elem_of_singleton in Hp''.
      rewrite Htodo' by tauto. apply Htodo. tauto.
  - cbn. rewrite drop_0, app_nil_r. repeat split; try done.
    + by rewrite app_nil_r.
    + intros p Hp. by apply not_elem_of_nil in Hp.
Qed.

(** X15, the delivery phase: every packet in transit gets one tick older
    (delay minus one, lifetime plus one).  A packet whose delay falls to 0
    or below is appended to the input queue of its next hop and loses its
    next hop; a packet whose delay stays above 0 stays in transit; the
    order is kept in both.  A packet whose delay is [None] is taken out of
    transit and joins no queue.  The phase writes nothing. *)
Theorem deliver_packets_result i s :
  NoDup (packets s) →
  (∀ p, p ∈ packets s → arrives (pheap s !!! p) = true →
        is_Some (via (pheap s !!! p))) →
  ∃ s', Network_deliver_packets i s = Ok tt s' ∧
        packets s' = filter (λ p, stays (pheap s !!! p) = true) (packets s) ∧
        (∀ r, input (rheap s' !!! r) =
                input (rheap s !!! r) ++
                filter (λ p, arrives (pheap s !!! p) = true ∧
                             via (pheap s !!! p) = Some r) (packets s) ∧
              output (rheap s' !!! r) = output (rheap s !!! r)) ∧
        (∀ p, p ∈ packets s → pheap s' !!! p = after_delivery (pheap s !!! p)) ∧
        (∀ p, p ∉ packets s → pheap s' !!! p = pheap s !!! p) ∧
        stdout s' = stdout s ∧ stderr s' = stderr s.
Proof.
  intros Hnd Hvia.
  pose proof (deliver_packets_loop i s Hnd Hvia) as H.
  apply wp_no_exn in H as ([] & s' & Hrun & H). by exists s'.
Qed.

(** ** The properties on the example states *)

Lemma transmit_packets_moves_outputs_witness :
  ∃ s', Network_transmit_packets 1 waiting_state = Ok tt s' ∧
        packets s' =
          packets waiting_state ++
          concat ((λ r, output (rheap waiting_state !!! r)) <$> routers waiting_state) ∧
        (∀ r, r ∈ routers waiting_state → output (rheap s' !!! r) = []) ∧
        (∀ r, r ∉ routers waiting_state →
              output (rheap s' !!! r) = output (rheap waiting_state !!! r)) ∧
        (∀ r, input (rheap s' !!! r) = input (rheap waiting_state !!! r)) ∧
        pheap s' = pheap waiting_state ∧ stdout s' = stdout waiting_state ∧
        stderr s' = stderr waiting_state.
Proof.
  apply (transmit_packets_moves_outputs 1 waiting_state).
  apply (bool_decide_unpack _). vm_compute. exact I.
Defined.

Lemma run_returns_finished_witness :
  ∃ k, 1 ≤ k ≤ Z.of_nat 40 ∧
       ticks_from 0 no_loss (line_network None) k line_final ∧
       live line_final = 0%nat ∧
       ∀ j s1, 1 ≤ j < k → ticks_from 0 no_loss (line_network None) j s1 →
               Network_finished s1 = false.
Proof.
  apply (run_returns_finished 0 no_loss 40 (line_network None) line_final).
  vm_compute. reflexivity.
Defined.

Lemma run_without_packets_witness :
  ∃ s', Network_run 0 no_loss 1 idle_network = Some (Ok tt s') ∧
        stdout s' = stdout idle_network ∧
        stderr s' = stderr idle_network ++
          [err_t 1; err_pre_deliver [];
           err_post_deliver (Router_str idle_network <$> routers idle_network);
           err_pre_transmit (Router_str idle_network <$> routers idle_network);
           err_post_transmit []] ∧
        drawn s' = drawn idle_network ∧ rheap s' = rheap idle_network ∧
        packets s' = [].
Proof.
  apply (run_without_packets 0 no_loss 0 idle_network).
  vm_compute. reflexivity.
Defined.

Lemma run_total_loss_witness :
  ∃ res, Network_run 1 (λ _, 0%Q) 2 (line_network None) = Some res.
Proof.
  apply (run_total_loss 1 (λ _, 0%Q) 0 (line_network None)).
  intros k. vm_compute. discriminate.
Defined.

Lemma drop_packets_result_witness :
  ∃ s', Network_drop_packets 0 no_loss 3 in_transit_state = Ok tt s' ∧
        packets s' =
          filter (λ p, p ∉ draw_dropped 0 no_loss (packets in_transit_state)
                             (drawn in_transit_state))
                 (packets in_transit_state) ∧
        drawn s' = (drawn in_transit_state + length (packets in_transit_state))%nat ∧
        stdout s' =
          stdout in_transit_state ++
          (lost_line 3 in_transit_state <$>
             draw_dropped 0 no_loss (packets in_transit_state)
               (drawn in_transit_state)) ∧
        pheap s' = pheap in_transit_state ∧ rheap s' = rheap in_transit_state.
Proof.
  apply (drop_packets_result 0 no_loss 3 in_transit_state).
  constructor; [|constructor]. exists 2%nat. vm_compute. reflexivity.
Defined.

Lemma deliver_packets_result_witness :
  ∃ s', Network_deliver_packets 3 in_transit_state = Ok tt s' ∧
        packets s' =
          filter (λ p, stays (pheap in_transit_state !!! p) = true)
                 (packets in_transit_state) ∧
        (∀ r, input (rheap s' !!! r) =
                input (rheap in_transit_state !!! r) ++
                filter (λ p, arrives (pheap in_transit_state !!! p) = true ∧
                             via (pheap in_transit_state !!! p) = Some r)
                       (packets in_transit_state) ∧
              output (rheap s' !!! r) = output (rheap in_transit_state !!! r)) ∧
        (∀ p, p ∈ packets in_transit_state →
              pheap s' !!! p = after_delivery (pheap in_transit_state !!! p)) ∧
        (∀ p, p ∉ packets in_transit_state →
              pheap s' !!! p = pheap in_transit_state !!! p) ∧
        stdout s' = stdout in_transit_state ∧ stderr s' = stderr in_transit_state.
Proof.
  apply (deliver_packets_result 3 in_transit_state).
  - apply (bool_decide_unpack _). vm_compute. exact I.
  - intros p Hp. apply list_elem_of_singleton in Hp as ->. vm_compute. discriminate.
Defined.

(** ** The exceptions of a tick *)

Lemma wp_and {A} (m : M A) (P1 P2 : A → State → Prop) (E1 E2 : Exn → State → Prop) s :
  wp m P1 E1 s → wp m P2 E2 s →
  wp m (λ a s', P1 a s' ∧ P2 a s') (λ e s', E1 e s' ∧ E2 e s') s.
Proof. unfold wp. by destruct (m s). Qed.

Lemma drop_packets_raises Q random i s :
  wp (Network_drop_packets Q random i) (λ _ _, True) only_AttributeError s.
Proof.
  unfold Network_drop_packets.
  apply wp_bind, wp_gets. apply wp_bind, wp_gets. cbn zeta.
  wp_seq (λ _ : State, True) ltac:(by apply wp_modify).
  wp_seq (λ _ : State, True) ltac:(idtac); [by apply wp_modify|].
  apply wp_forM_inv; [|done]. intros p s' _ _.
  unfold wp. rewrite report_dropped_unfold. by destruct (via (pheap s' !!! p)).
Qed.

(** The loop of the delivery phase pops as many packets as were in transit
    when it began, and an iteration puts back at most the one it
    popped. *)
Lemma deliver_packets_raises i s :
  wp (Network_deliver_packets i) (λ _ _, True) only_AttributeError s.
Proof.
  unfold Network_deliver_packets. apply wp_bind, wp_gets.
  set (n := length (packets s)).
  eapply wp_mono;
    [|apply (wp_repeatM n _ (λ k s', (n - k ≤ length (packets s'))%nat))].
  - done.
  - intros k s' Hk Hlen. unfold wp.
    destruct (packets s') as [|p rest] eqn:Hp; [cbn in Hlen; lia|].
    rewrite (deliver_packet_unfold s' p rest Hp). cbn zeta.
    destruct (delay (pheap s' !!! p)) as [d|].
    + destruct (d - 1 <=? 0).
      * destruct (via (pheap s' !!! p)); [|done]. cbn in *. lia.
      * cbn in *. rewrite length_app. cbn. lia.
    + cbn in *. lia.
  - lia.
Qed.

Lemma process_incoming_packets_raises i s :
  wp (Network_process_incoming_packets i) (λ _ _, True) only_KeyError s.
Proof.
  unfold Network_process_incoming_packets. apply wp_bind, wp_gets.
  apply wp_forM_inv; [|done]. intros r s' _ _.
  eapply wp_conseq; [| |apply router_process_local]; [done|].
  by intros e s'' (-> & _).
Qed.

Lemma transmit_packets_raises i s :
  wp (Network_transmit_packets i) (λ _ _, True) no_exn s.
Proof.
  eapply wp_conseq; [| |apply (transmit_packets_loop (routers s) s)]; done.
Qed.


(** * The readers *)

(** ** The numbers in the text *)

Lemma rev_app_rev_app a b c :
  String.rev_app (String.rev_app a b) c = String.rev_app b (a +:+ c).
Proof.
  revert b c. induction a as [|x a IH]; intros b c; [done|].
  cbn. by rewrite IH.
Qed.

Lemma string_app_nil_r (a : string) : a +:+ EmptyString = a.
Proof.
  induction a as [|x a IH]; [done|].
  change (String x (a +:+ EmptyString) = String x a). by rewrite IH.
Qed.

Lemma rev_rev a : String.rev (String.rev a) = a.
Proof. unfold String.rev. rewrite rev_app_rev_app. cbn. apply string_app_nil_r. Qed.

Lemma all_digits_rev_app a b :
  all_digits (String.rev_app a b) = all_digits a && all_digits b.
Proof.
  revert b. induction a as [|x a IH]; intros b; [done|].
  cbn. rewrite IH. cbn. by destruct (is_digit x), (all_digits a).
Qed.

Lemma rev_app_nonempty a b :
  a ≠ EmptyString ∨ b ≠ EmptyString → String.rev_app a b ≠ EmptyString.
Proof.
  revert b. induction a as [|x a IH]; intros b; cbn.
  - by intros [?|?].
  - intros _. apply IH. by right.
Qed.

Lemma number_rev s : number s → number (String.rev s).
Proof.
  intros (Hne & Hd). split.
  - apply rev_app_nonempty. by left.
  - unfold String.rev. by rewrite all_digits_rev_app, Hd.
Qed.

Lemma digit_not_space c : is_digit c = true → int_isspace c = false.
Proof. by destruct c as [[] [] [] [] [] [] [] []]. Qed.

Lemma span_digit_first (s : string) :
  number s → span int_isspace s = (EmptyString, s).
Proof.
  intros (Hne & Hd). destruct s as [|c s]; [done|].
  cbn in *. apply andb_true_iff in Hd as (Hc & _).
  by rewrite (digit_not_space c Hc).
Qed.

Lemma strip_number s : number s → strip_with int_isspace s = s.
Proof.
  intros Hs. unfold strip_with. rewrite (span_digit_first s Hs). cbn [snd].
  rewrite (span_digit_first _ (number_rev s Hs)). cbn [snd]. apply rev_rev.
Qed.

Lemma int_body_digits acc s :
  all_digits s = true → int_body acc false s = Some (int_digits acc s).
Proof.
  revert acc. induction s as [|c s IH]; intros acc Hd; [done|].
  cbn in *. apply andb_true_iff in Hd as (Hc & Hd). rewrite Hc. by apply IH.
Qed.


Lemma int_limited_number s :
  number s →
  int_limited s = if short s then Some (int_digits 0 s) else None.
Proof.
  intros (Hne & Hd). destruct s as [|c s]; [done|].
  cbn in Hd. apply andb_true_iff in Hd as (Hc & Hd).
  unfold int_limited, short. cbn [int_body]. rewrite Hc.
  by rewrite (int_body_digits _ s Hd).
Qed.

(** [int] of a non-empty string of digits is its decimal value, unless
    the digits are too many. *)
Lemma py_int_number s :
  number s → py_int s = if short s then Some (int_digits 0 s) else None.
Proof.
  intros Hs. rewrite <- (int_limited_number s Hs).
  unfold py_int. rewrite (strip_number s Hs).
  destruct Hs as (Hne & Hd). destruct s as [|c s]; [done|].
  cbn in Hd. apply andb_true_iff in Hd as (Hc & Hd).
  revert Hc. clear.
  destruct c as [[] [] [] [] [] [] [] []]; intros Hc;
    first [discriminate Hc|reflexivity].
Qed.


Lemma span_all_digits s : all_digits (span is_digit s).1 = true.
Proof.
  induction s as [|c s IH]; [done|].
  cbn. destruct (is_digit c) eqn:Hc; [|done].
  destruct (span is_digit s) as [a b]. cbn in *. by rewrite Hc.
Qed.

Lemma span_number s : (span is_digit s).1 ≠ EmptyString → number (span is_digit s).1.
Proof. intros Hne. split; [done|apply span_all_digits]. Qed.

Lemma match_digits_number line d : match_digits line = Some d → number d.
Proof.
  unfold match_digits. pose proof (span_number line) as H.
  destruct (span is_digit line).1 as [|c s]; [done|].
  intros [= <-]. by apply H.
Qed.

Lemma match_link_number s g n :
  match_link s = Some (g, n) → number g.1.1 ∧ number g.1.2.
Proof.
  unfold match_link. pose proof (span_number s) as H1.
  destruct (span is_digit s) as [g1 r1]. cbn [fst] in H1.
  destruct g1 as [|c1 g1]; [done|].
  destruct (after_prefix " " r1) as [r2|]; [|done]. cbn [mbind option_bind].
  pose proof (span_number r2) as H2.
  destruct (span is_digit r2) as [g2 r3]. cbn [fst] in H2.
  destruct g2 as [|c2 g2]; [done|].
  destruct (after_prefix " [" r3) as [r4|]; [|done]. cbn [mbind option_bind].
  destruct (span _ r4) as [g3 r5].
  destruct (after_prefix "]" r5); [|done]. cbn [mbind option_bind].
  intros [= <- _]. cbn [fst snd]. split; [by apply H1|by apply H2].
Qed.

Lemma findall_links_number skip s g :
  g ∈ findall_links skip s → number g.1.1 ∧ number g.1.2.
Proof.
  revert skip. induction s as [|c s IH]; intros skip; cbn.
  { intros H. by apply not_elem_of_nil in H. }
  destruct skip as [|k]; [|apply IH].
  destruct (match_link (String c s)) as [[g' n]|] eqn:Hm; [|apply IH].
  intros [->|Hg]%elem_of_cons; [by eapply match_link_number|by eapply IH].
Qed.

Lemma digit_runs_number cur s r :
  all_digits cur = true → r ∈ digit_runs cur s → number r.
Proof.
  revert cur. induction s as [|c s IH]; intros cur Hcur; cbn.
  - destruct cur as [|x cur]; [intros H; by apply not_elem_of_nil in H|].
    intros ->%list_elem_of_singleton. by apply number_rev.
  - destruct (is_digit c) eqn:Hc.
    + apply IH. cbn. by rewrite Hc.
    + destruct cur as [|x cur]; [by apply IH|].
      intros [->|Hr]%elem_of_cons; [by apply number_rev|by apply (IH EmptyString)].
Qed.

(** ** The dictionary of the routers *)

Lemma dict_lookup_elem (d : dict) k r : dict_lookup d k = Some r → (k, r) ∈ d.
Proof.
  induction d as [|[k' v] d IH]; cbn; [done|].
  destruct (Z.eqb_spec k k') as [->|Hne].
  - intros [= ->]. apply list_elem_of_here.
  - intros H. by apply list_elem_of_further, IH.
Qed.

Lemma dict_lookup_None (d : dict) k : dict_lookup d k = None ↔ k ∉ d.*1.
Proof.
  induction d as [|[k' v] d IH]; cbn.
  - split; [intros _; apply not_elem_of_nil|done].
  - rewrite not_elem_of_cons. destruct (Z.eqb_spec k k') as [->|Hne].
    + split; [done|]. by intros (? & _).
    + rewrite IH. tauto.
Qed.

Lemma dict_lookup_NoDup (d : dict) k r :
  NoDup d.*1 → (k, r) ∈ d → dict_lookup d k = Some r.
Proof.
  induction d as [|[k' v] d IH]; cbn; intros Hnd Hin.
  - by apply not_elem_of_nil in Hin.
  - apply list.NoDup_cons in Hnd as (Hk' & Hnd).
    apply elem_of_cons in Hin as [[= -> ->]|Hin].
    + by rewrite Z.eqb_refl.
    + destruct (Z.eqb_spec k k') as [->|Hne]; [|by apply IH].
      exfalso. apply Hk'. apply list_elem_of_fmap. by exists (k', r).
Qed.

Lemma dict_lookup_snoc (d : dict) k r k' :
  dict_lookup (d ++ [(k, r)]) k' =
    match dict_lookup d k' with
    | Some v => Some v
    | None => if Z.eqb k' k then Some r else None
    end.
Proof.
  induction d as [|[k0 v] d IH]; cbn; [done|].
  by destruct (Z.eqb k' k0).
Qed.

Lemma dict_lookup_values (d : dict) k r : dict_lookup d k = Some r → r ∈ d.*2.
Proof.
  intros H%dict_lookup_elem. apply list_elem_of_fmap. by exists (k, r).
Qed.

(** ** The first loop of [read_routers] *)

Lemma line_node_unfold line s :
  line_node line s =
    match match_digits line with
    | None => Raise AttributeError s
    | Some d => if short d then Ok (int_digits 0 d) s else Raise ValueError s
    end.
Proof.
  unfold line_node, int_of. destruct (match_digits line) as [d|] eqn:Hd; [|done].
  rewrite (py_int_number d) by (by eapply match_digits_number).
  by destruct (short d).
Qed.

(** At a line that is headed the number is converted; at another line
    the conversion raises. *)
Lemma line_node_headed line s :
  headed line = true →
  ∃ k, node_of line = Some k ∧ line_node line s = Ok k s.
Proof.
  unfold headed, node_of. rewrite line_node_unfold.
  destruct (match_digits line) as [d|]; [|done]. intros ->.
  by exists (int_digits 0 d).
Qed.

Lemma line_node_unheaded line s :
  headed line = false → line_node line s = Raise (unheaded_error line) s.
Proof.
  unfold headed, unheaded_error. rewrite line_node_unfold.
  destruct (match_digits line) as [d|]; [|done]. by intros ->.
Qed.

Lemma read_node_unfold d line s k :
  headed line = true → node_of line = Some k →
  read_node d line s =
    match dict_lookup d k with
    | Some _ => Ok d s
    | None =>
        let r := fresh (dom (rheap s)) in
        Ok (d ++ [(k, r)]) (set_rheap (<[r := Router_init k]> (rheap s)) s)
    end.
Proof.
  intros Hh Hk. unfold read_node, mbind, M_bind, bind.
  destruct (line_node_headed line s Hh) as (k' & Hk' & ->).
  assert (k' = k) as -> by congruence.
  by destruct (dict_lookup d k).
Qed.

Lemma read_node_unheaded d line s :
  headed line = false → read_node d line s = Raise (unheaded_error line) s.
Proof.
  intros Hh. unfold read_node, mbind, M_bind, bind.
  by rewrite (line_node_unheaded line s Hh).
Qed.

Lemma first_unheaded_None lines :
  first_unheaded lines = None ↔ ∀ line, line ∈ lines → headed line = true.
Proof.
  induction lines as [|l lines IH]; cbn.
  - split; [|done]. intros _ line Hl. by apply not_elem_of_nil in Hl.
  - destruct (headed l) eqn:Hl.
    + rewrite IH. split.
      * intros H line [->|Hin]%elem_of_cons; [done|by apply H].
      * intros H line Hin. by apply H, list_elem_of_further.
    + split; [done|]. intros H. rewrite (H l) in Hl; [done|apply list_elem_of_here].
Qed.

Lemma first_unheaded_Some lines line :
  first_unheaded lines = Some line → line ∈ lines ∧ headed line = false.
Proof.
  induction lines as [|l lines IH]; cbn; [done|].
  destruct (headed l) eqn:Hl.
  - intros (Hin & Hh)%IH. split; [by apply list_elem_of_further|done].
  - intros [= <-]. split; [apply list_elem_of_here|done].
Qed.

Lemma fresh_routers_step s0 d s k :
  fresh_routers s0 d s → dict_lookup d k = None →
  let r := fresh (dom (rheap s)) in
  fresh_routers s0 (d ++ [(k, r)])
    (set_rheap (<[r := Router_init k]> (rheap s)) s).
Proof.
  intros (Hk & Hr & Hd & Hother & Hrest) Hnone r.
  assert (Hfresh : rheap s !! r = None).
  { apply not_elem_of_dom. apply is_fresh. }
  assert (Hnew : r ∉ d.*2).
  { intros ([k' r'] & -> & Hin)%list_elem_of_fmap.
    destruct (Hd k' r' Hin) as (Hsome & _). cbn in Hfresh. congruence. }
  split; [|split; [|split; [|split]]].
  - rewrite fmap_app. apply list.NoDup_app. split; [done|]. split.
    + intros x Hx ->%list_elem_of_singleton. by apply dict_lookup_None in Hnone.
    + apply NoDup_singleton.
  - rewrite fmap_app. apply list.NoDup_app. split; [done|]. split.
    + intros x Hx ->%list_elem_of_singleton. done.
    + apply NoDup_singleton.
  - intros k' r' [Hin|[= -> ->]%list_elem_of_singleton]%elem_of_app; cbn.
    + destruct (Hd k' r' Hin) as (Hsome & Hnone').
      rewrite lookup_insert_ne; [done|]. intros <-. congruence.
    + rewrite lookup_insert_eq. split; [done|].
      rewrite <- Hother by done. done.
  - intros r' Hr'. rewrite fmap_app, elem_of_app in Hr'. cbn in *.
    rewrite lookup_insert_ne.
    + apply Hother. tauto.
    + intros <-. apply Hr'. right. apply list_elem_of_here.
  - done.
Qed.

(** The first loop stops at the first line that is not headed, with
    [AttributeError] when the line does not start with a digit, and with
    [ValueError] when it starts with more digits than [int] converts;
    when it returns, every line has its number in the dictionary. *)
Lemma read_nodes_spec s0 lines d s :
  fresh_routers s0 d s →
  wp (read_nodes d lines)
     (λ d' s', fresh_routers s0 d' s' ∧
               (∀ k, is_Some (dict_lookup d k) → is_Some (dict_lookup d' k)) ∧
               (∀ k, k ∈ d'.*1 →
                     k ∈ d.*1 ∨ ∃ line, line ∈ lines ∧ node_of line = Some k) ∧
               (∀ line, line ∈ lines →
                  ∃ k, node_of line = Some k ∧ is_Some (dict_lookup d' k)) ∧
               first_unheaded lines = None)
     (λ e _, ∃ line, first_unheaded lines = Some line ∧ e = unheaded_error line) s.
Proof.
  revert d s. induction lines as [|line lines IH]; intros d s Hd.
  - cbn. split; [done|]. split; [done|]. split; [by left|]. split; [|done].
    intros line Hl. by apply not_elem_of_nil in Hl.
  - cbn [read_nodes first_unheaded]. apply wp_bind. unfold wp at 1.
    destruct (headed line) eqn:Hh.
    2:{ rewrite (read_node_unheaded d line s Hh). by exists line. }
    destruct (line_node_headed line s Hh) as (k & Hnode & _).
    rewrite (read_node_unfold d line s k Hh Hnode).
    destruct (dict_lookup d k) as [r|] eqn:Hlook.
    + eapply wp_conseq; [| |apply (IH d s Hd)]; [|done].
      intros d' s' (Hd' & Hmono & Hkeys & Hall & Hnone).
      split; [done|]. split; [done|]. split; [|split; [|done]].
      * intros k' Hk'. destruct (Hkeys k' Hk') as [?|(l & Hl & ?)]; [by left|].
        right. exists l. split; [by apply list_elem_of_further|done].
      * intros l [->|Hl]%elem_of_cons; [|by apply Hall].
        exists k. split; [done|]. apply Hmono. by rewrite Hlook.
    + cbn zeta.
      eapply wp_conseq; [| |apply (IH _ _ (fresh_routers_step s0 d s k Hd Hlook))];
        [|done].
      intros d' s' (Hd' & Hmono & Hkeys & Hall & Hnone).
      split; [done|]. split; [|split; [|split; [|done]]].
      * intros k' [v Hv]. apply Hmono. rewrite dict_lookup_snoc, Hv. eauto.
      * intros k' Hk'. destruct (Hkeys k' Hk') as [Hin|(l & Hl & ?)].
        -- rewrite fmap_app, elem_of_app in Hin.
           destruct Hin as [?|Heq%list_elem_of_singleton]; [by left|subst k'].
           right. exists line. split; [apply list_elem_of_here|done].
        -- right. exists l. split; [by apply list_elem_of_further|done].
      * intros l [->|Hl]%elem_of_cons; [|by apply Hall].
        exists k. split; [done|]. apply Hmono.
        rewrite dict_lookup_snoc, Hlook, Z.eqb_refl. eauto.
Qed.

(** ** The second loop of [read_routers] *)

Lemma fresh_routers_connecting s0 d s : fresh_routers s0 d s → connecting d s0 s.
Proof.
  intros (Hk & Hr & Hd & Hother & Hp & Hn & Hrs & Hps & Hdr & Ho & He).
  assert (Hinit : ∀ r, r ∈ d.*2 → ∃ k, (k, r) ∈ d ∧ rheap s !!! r = Router_init k).
  { intros r ([k r'] & -> & Hin)%list_elem_of_fmap. exists k. split; [done|].
    destruct (Hd k r' Hin) as (Hsome & _). by apply lookup_total_correct. }
  split; [|split; [|split]].
  - split; [done|]. split; [done|]. intros k r Hin.
    split; [by apply dict_lookup_NoDup|].
    destruct (Hd k r Hin) as (Hsome & _).
    by rewrite (lookup_total_correct _ _ _ Hsome).
  - intros r Hr'. destruct (Hinit r Hr') as (k & _ & ->).
    split; [done|]. split; [done|]. split; [apply linked_init|]. split.
    + intros n [x Hx]. cbn in Hx. by rewrite lookup_empty in Hx.
    + intros dst v Hv. cbn in Hv. by rewrite lookup_empty in Hv.
  - intros a b Ha Hb. destruct (Hinit a Ha) as (? & _ & ->).
    destruct (Hinit b Hb) as (? & _ & ->). cbn. by rewrite !lookup_empty.
  - split; [|done]. intros r ([k r'] & -> & Hin)%list_elem_of_fmap.
    destruct (Hd k r' Hin) as (_ & Hnone). by apply not_elem_of_dom.
Qed.

Lemma bind_run {A B} (m : M A) (k : A → M B) s :
  (m ≫= k) s = match m s with
               | Ok a s' => k a s'
               | Raise e s' => Raise e s'
               end.
Proof. reflexivity. Qed.

Lemma int_of_number s0 s :
  number s0 →
  int_of s0 s = if short s0 then Ok (int_digits 0 s0) s else Raise ValueError s.
Proof.
  intros Hs. unfold int_of. rewrite (py_int_number s0 Hs). by destruct (short s0).
Qed.

(** The list comprehension over the routes: the conversions and the
    lookups alternate. *)
Lemma mapM_routes (d : dict) (l : list string) s :
  (∀ r, r ∈ l → number r) →
  match mapM (λ route, k ← int_of route; dict_item d k) l s with
  | Ok refs s' =>
      s' = s ∧ forallb short l = true ∧
      mapM (λ route, dict_lookup d (int_digits 0 route)) l = Some refs
  | Raise e s' =>
      s' = s ∧ (e = KeyError ∨ e = ValueError ∧ forallb short l = false)
  end.
Proof.
  induction l as [|x l IH]; intros Hl; [done|].
  cbn [mapM forallb]. rewrite !bind_run.
  rewrite (int_of_number x s) by apply Hl, list_elem_of_here.
  destruct (short x); [|split; [done|by right]].
  unfold dict_item at 1.
  destruct (dict_lookup d (int_digits 0 x)) as [r|] eqn:Hr; [|split; [done|by left]].
  cbn. rewrite bind_run.
  specialize (IH (λ r0 Hr0, Hl r0 (list_elem_of_further _ _ _ Hr0))).
  destruct (mapM (λ route, k ← int_of route; dict_item d k) l s) as [refs s'|e s'].
  - destruct IH as (-> & Hs & Hrefs). cbn. split; [done|]. split; [done|].
    by rewrite Hrefs.
  - done.
Qed.

Lemma connect_unfold d node g s :
  number g.1.1 → number g.1.2 →
  (∀ r, r ∈ digit_runs EmptyString g.2 → number r) →
  match connect d node g s with
  | Ok _ s' =>
      short_link g = true ∧
      ∃ router other dests,
        dict_lookup d node = Some router ∧
        dict_lookup d (int_digits 0 g.1.1) = Some other ∧
        mapM (λ route, dict_lookup d (int_digits 0 route))
             (digit_runs EmptyString g.2) = Some dests ∧
        s' = upd_router other
               (λ r, add_connection r router (int_digits 0 g.1.2) [])
               (upd_router router
                  (λ r, add_connection r other (int_digits 0 g.1.2) dests) s)
  | Raise e s' =>
      s' = s ∧ (e = KeyError ∨ e = ValueError ∧ short_link g = false)
  end.
Proof.
  intros H1 H2 H3. unfold connect, short_link.
  rewrite bind_run, (int_of_number g.1.1 s H1).
  destruct (short g.1.1); [|split; [done|by right]].
  rewrite bind_run, (int_of_number g.1.2 s H2).
  destruct (short g.1.2); [|split; [done|by right]].
  rewrite bind_run. unfold dict_item at 1.
  destruct (dict_lookup d node) as [router|]; [|split; [done|by left]]. cbn.
  rewrite bind_run. unfold dict_item at 1.
  destruct (dict_lookup d (int_digits 0 g.1.1)) as [other|];
    [|split; [done|by left]]. cbn.
  rewrite bind_run.
  pose proof (mapM_routes d (digit_runs EmptyString g.2) s H3) as Hroutes.
  destruct (mapM (λ route, k ← int_of route; dict_item d k) _ s) as [dests s'|e s'].
  - destruct Hroutes as (-> & Hshort & Hdests). split; [done|].
    by exists router, other, dests.
  - done.
Qed.

(** The routers after [router.add_connection(other, dl, dests)] and
    [other.add_connection(router, dl)]. *)
Lemma connected_routers router other dl dests s x :
  let s' := upd_router other (λ r, add_connection r router dl [])
              (upd_router router (λ r, add_connection r other dl dests) s) in
  id (rheap s' !!! x) = id (rheap s !!! x) ∧
  input (rheap s' !!! x) = input (rheap s !!! x) ∧
  output (rheap s' !!! x) = output (rheap s !!! x) ∧
  (∀ y, connections (rheap s' !!! x) !! y =
          if decide ((x = router ∧ y = other) ∨ (x = other ∧ y = router))
          then Some dl else connections (rheap s !!! x) !! y) ∧
  (∀ dst, routes (rheap s' !!! x) !! dst =
            if decide (x = router ∧ dst ∈ dests)
            then Some other else routes (rheap s !!! x) !! dst).
Proof.
  intros s'. subst s'.
  assert (Hc : ∀ (c : gmap rref Z) k y,
            <[k := dl]> c !! y = if decide (y = k) then Some dl else c !! y).
  { intros c k y. case_decide as Hy; [subst; apply lookup_insert_eq|].
    by apply lookup_insert_ne. }
  cbn. destruct (decide (x = other)) as [->|Hxo]; heap_simpl.
  - destruct (decide (other = router)) as [->|Hor]; heap_simpl; cbn.
    + do 3 (split; [done|]). split.
      * intros y. rewrite !Hc. repeat case_decide; intuition congruence.
      * intros dst. rewrite !routes_add_lookup.
        repeat case_decide; intuition congruence.
    + do 3 (split; [done|]). split.
      * intros y. rewrite !Hc. repeat case_decide; intuition congruence.
      * intros dst. repeat case_decide; intuition congruence.
  - destruct (decide (x = router)) as [->|Hxr]; heap_simpl; cbn.
    + do 3 (split; [done|]). split.
      * intros y. rewrite !Hc. repeat case_decide; intuition congruence.
      * intros dst. rewrite !routes_add_lookup.
        repeat case_decide; intuition congruence.
    + do 3 (split; [done|]). split.
      * intros y. repeat case_decide; intuition congruence.
      * intros dst. repeat case_decide; intuition congruence.
Qed.

Lemma mapM_lookup_values (d : dict) {A} (f : A → Z) (l : list A) refs :
  mapM (λ x, dict_lookup d (f x)) l = Some refs → ∀ r, r ∈ refs → r ∈ d.*2.
Proof.
  intros H%mapM_Some r Hr.
  induction H as [|x y l k Hxy _ IH]; [by apply not_elem_of_nil in Hr|].
  apply elem_of_cons in Hr as [->|Hr]; [|by apply IH].
  by eapply dict_lookup_values.
Qed.

Lemma connect_connecting d s0 node g s :
  number g.1.1 → number g.1.2 →
  (∀ r, r ∈ digit_runs EmptyString g.2 → number r) →
  connecting d s0 s →
  wp (connect d node g) (λ _, connecting d s0)
     (λ e _, e = KeyError ∨ e = ValueError ∧ short_link g = false) s.
Proof.
  intros H1 H2 H3 (Hnames & Hclosed & Hsym & Hcreated). unfold wp.
  pose proof (connect_unfold d node g s H1 H2 H3) as Hstep.
  destruct (connect d node g s) as [[] s1|e s1]; [|by destruct Hstep].
  destruct Hstep as (_ & router & other & dests & Hrouter & Hother & Hdests & ->).
  apply dict_lookup_values in Hrouter, Hother.
  pose proof (mapM_lookup_values d _ _ _ Hdests) as Hdests'.
  set (dl := int_digits 0 g.1.2).
  pose proof (connected_routers router other dl dests s) as Hnew. cbn zeta in Hnew.
  set (s' := upd_router other _ _) in *.
  split; [|split; [|split]].
  - destruct Hnames as (Hk & Hr & Hd). split; [done|]. split; [done|].
    intros k r Hin. destruct (Hd k r Hin) as (? & ?). split; [done|].
    destruct (Hnew r) as (-> & _). done.
  - intros r Hr. destruct (Hclosed r Hr) as (Hi & Ho & Hl & Hn & Ht).
    destruct (Hnew r) as (_ & -> & -> & Hc & Hrt).
    split; [done|]. split; [done|]. split; [|split].
    + intros dst v. rewrite Hrt, Hc.
      destruct (decide (r = router ∧ dst ∈ dests)) as [(-> & _)|_].
      * intros [= <-]. rewrite decide_True by tauto. eauto.
      * intros Hv.
        destruct (decide (r = router ∧ v = other ∨ r = other ∧ v = router));
          [eauto|]. by apply (Hl dst).
    + intros n. rewrite Hc.
      destruct (decide (r = router ∧ n = other ∨ r = other ∧ n = router))
        as [[(_ & ->)|(_ & ->)]|_]; [done|done|apply Hn].
    + intros dst v. rewrite Hrt.
      destruct (decide (r = router ∧ dst ∈ dests)) as [(_ & Hdst)|_]; [|apply Ht].
      intros [= <-]. split; [|done]. by apply Hdests'.
  - intros a b Ha Hb.
    destruct (Hnew a) as (_ & _ & _ & -> & _).
    destruct (Hnew b) as (_ & _ & _ & -> & _).
    rewrite (Hsym a b Ha Hb).
    destruct (decide (a = router ∧ b = other ∨ a = other ∧ b = router));
      destruct (decide (b = router ∧ a = other ∨ b = other ∧ a = router));
      try done; exfalso; tauto.
  - destruct Hcreated as (Hfresh & Hframe & Hrest). split; [done|]. split; [|done].
    intros r Hr. rewrite <- Hframe by done. subst s'. cbn.
    rewrite !lookup_insert_ne; [done|intros ->; done|intros ->; done].
Qed.

Lemma read_links_connecting d s0 line s :
  headed line = true →
  connecting d s0 s →
  wp (read_links d line) (λ _, connecting d s0)
     (λ e _, e = KeyError ∨
             e = ValueError ∧
             ∃ g, g ∈ findall_links 0 line ∧ short_link g = false) s.
Proof.
  intros Hh Hc. unfold read_links. apply wp_bind. unfold wp at 1.
  destruct (line_node_headed line s Hh) as (k & _ & ->).
  apply wp_forM_inv; [|done]. intros g s' Hg Hc'.
  destruct (findall_links_number 0 line g Hg) as (H1 & H2).
  eapply wp_conseq;
    [| |apply (connect_connecting d s0 k g s' H1 H2); [|done]]; [done| |].
  - intros e s'' [->|(-> & Hlong)]; [by left|right]. split; [done|]. by exists g.
  - intros r Hr. by apply (digit_runs_number EmptyString g.2).
Qed.

Lemma fresh_routers_nil s : fresh_routers s [] s.
Proof.
  split; [apply NoDup_nil_2|]. split; [apply NoDup_nil_2|].
  split; [intros k r Hin; by apply not_elem_of_nil in Hin|]. done.
Qed.

(** [read_routers], step by step. *)
Lemma read_routers_spec total lines s :
  wp (read_routers (total :: lines))
     (λ d s', connecting d s s' ∧
              (∀ line, line ∈ lines →
                 ∃ k, node_of line = Some k ∧ is_Some (dict_lookup d k)) ∧
              (∀ k, k ∈ d.*1 → ∃ line, line ∈ lines ∧ node_of line = Some k) ∧
              first_unheaded lines = None)
     (λ e _, (∃ line, first_unheaded lines = Some line ∧ e = unheaded_error line) ∨
             (first_unheaded lines = None ∧
              (e = KeyError ∨
               e = ValueError ∧
               ∃ line g, line ∈ lines ∧ g ∈ findall_links 0 line ∧
                         short_link g = false))) s.
Proof.
  unfold read_routers. apply wp_bind.
  eapply wp_conseq; [| |apply (read_nodes_spec s lines [] s)].
  - intros d s1 (Hfresh & _ & Hkeys & Hall & Hnone). cbn beta.
    apply wp_bind.
    eapply wp_conseq;
      [| |apply (wp_forM_inv lines (read_links d) (connecting d s)
                   (λ e _, e = KeyError ∨
                           e = ValueError ∧
                           ∃ line g, line ∈ lines ∧ g ∈ findall_links 0 line ∧
                                     short_link g = false))].
    + intros ? s2 Hc. cbn. split; [done|]. split; [done|]. split; [|done].
      intros k Hk. destruct (Hkeys k Hk) as [Hnil|?]; [|done].
      by apply not_elem_of_nil in Hnil.
    + intros e s2 He. by right.
    + intros line s2 Hline Hc.
      eapply wp_conseq; [| |apply read_links_connecting; [|done]]; [done| |].
      * intros e s3 [->|(-> & g & Hg & Hlong)]; [by left|right].
        split; [done|]. by exists line, g.
      * by apply (first_unheaded_None lines).
    + by apply fresh_routers_connecting.
  - intros e s1 He. by left.
  - apply fresh_routers_nil.
Qed.

(** X17, the routers that [read_routers] returns: the dictionary names
    pairwise distinct Router objects that did not exist before, one for
    each number that heads a line after the first, with that number as
    identifier.  They are connected among themselves only, every link has
    the same delay in both directions, every next hop of a routing table
    is a neighbour, and all queues are empty.  Nothing else has
    changed. *)
Theorem read_routers_result lines s d s' :
  read_routers lines s = Ok d s' →
  names_routers d s' ∧
  closed_topology (dict_values d) s' ∧
  symmetric_links (dict_values d) s' ∧
  created_routers (dict_values d) s s' ∧
  (∀ k, k ∈ d.*1 ↔ ∃ line, line ∈ tail lines ∧ node_of line = Some k).
Proof.
  destruct lines as [|total lines]; [done|]. intros Hrun.
  pose proof (read_routers_spec total lines s) as H. unfold wp in H.
  rewrite Hrun in H. destruct H as ((Hn & Hc & Hs & Hcr) & Hall & Hkeys & _).
  do 4 (split; [done|]). intros k. split; [apply Hkeys|].
  intros (line & Hline & Hk). destruct (Hall line Hline) as (k' & Hk' & [r Hr]).
  assert (k' = k) as -> by congruence.
  apply dict_lookup_elem in Hr. apply list_elem_of_fmap. by exists (k, r).
Qed.

(** X18, the exceptions of [read_routers]: it raises [IndexError] exactly
    on a file without any line.  The first loop stops at the first line
    after the first that does not start with a number that [int]
    converts: with [AttributeError] when the line does not start with a
    digit (an empty last line, for one), with [ValueError] when it starts
    with more than 4300 digits.  When every line starts with such a
    number, the only exceptions are [KeyError] (a link or a route names a
    router that heads no line) and [ValueError], the latter only when the
    neighbour, the delay or a route of some link has more than 4300
    digits. *)
Theorem read_routers_exceptions lines s :
  (lines = [] → read_routers lines s = Raise IndexError s) ∧
  (∀ line, first_unheaded (tail lines) = Some line →
           ∃ s', read_routers lines s = Raise (unheaded_error line) s') ∧
  (∀ e s', read_routers lines s = Raise e s' →
     match e with
     | IndexError => lines = []
     | AttributeError =>
         ∃ line, first_unheaded (tail lines) = Some line ∧ match_digits line = None
     | ValueError =>
         (∃ line d, first_unheaded (tail lines) = Some line ∧
                    match_digits line = Some d ∧ short d = false) ∨
         (first_unheaded (tail lines) = None ∧
          ∃ line g, line ∈ tail lines ∧ g ∈ findall_links 0 line ∧
                    short_link g = false)
     | KeyError => lines ≠ [] ∧ first_unheaded (tail lines) = None
     end).
Proof.
  split; [by intros ->|].
  destruct lines as [|total lines].
  { split; [done|]. by intros e s' [= <- <-]. }
  pose proof (read_routers_spec total lines s) as H. unfold wp in H.
  cbn [tail]. split.
  - intros line Hline.
    destruct (read_routers (total :: lines) s) as [d s'|e s'].
    + destruct H as (_ & _ & _ & Hnone). congruence.
    + destruct H as [(line' & Hline' & ->)|(Hnone & _)]; [|congruence].
      assert (line' = line) as -> by congruence. by exists s'.
  - intros e s' Hrun. rewrite Hrun in H.
    destruct H as [(line & Hline & ->)|(Hnone & [->|(-> & Hlong)])].
    + destruct (first_unheaded_Some lines line Hline) as (_ & Hh).
      unfold unheaded_error, headed in *.
      destruct (match_digits line) as [d|] eqn:Hd; [|by exists line].
      left. by exists line, d.
    + done.
    + by right.
Qed.

Lemma read_routers_result_witness :
  names_routers line_dict line_read ∧
  closed_topology (dict_values line_dict) line_read ∧
  symmetric_links (dict_values line_dict) line_read ∧
  created_routers (dict_values line_dict) start line_read ∧
  (∀ k, k ∈ line_dict.*1 ↔
        ∃ line, line ∈ tail line_topology ∧ node_of line = Some k).
Proof.
  apply (read_routers_result line_topology start line_dict line_read).
  vm_compute. reflexivity.
Defined.

(** ** [read_packets] *)

Lemma read_packet_unfold d line s :
  read_packet d line s =
    match fields_of line with
    | None => Raise ValueError s
    | Some (conn, src, dst) =>
        match py_int src with
        | None => Raise ValueError s
        | Some a =>
            match dict_lookup d a with
            | None => Raise KeyError s
            | Some ra =>
                match py_int dst with
                | None => Raise ValueError s
                | Some b =>
                    match dict_lookup d b with
                    | None => Raise KeyError s
                    | Some rb =>
                        Ok (pnext s)
                           (alloc_packet (Packet_init ra rb (Some conn)) s)
                    end
                end
            end
        end
    end.
Proof.
  unfold read_packet, fields_of.
  destruct (split_space (strip line)) as [|conn [|src [|dst [|? ?]]]];
    try reflexivity.
  unfold int_of, dict_item.
  destruct (py_int src) as [a|]; [|reflexivity].
  rewrite bind_run. unfold ret at 1. rewrite bind_run.
  destruct (dict_lookup d a) as [ra|]; [|reflexivity].
  unfold ret at 1. rewrite bind_run.
  destruct (py_int dst) as [b|]; [|reflexivity].
  unfold ret at 1. rewrite bind_run.
  destruct (dict_lookup d b) as [rb|]; reflexivity.
Qed.

Lemma read_packet_spec d line s :
  match packet_of d line with
  | Some pk => read_packet d line s = Ok (pnext s) (alloc_packet pk s)
  | None => read_packet d line s = Raise ValueError s ∨
            read_packet d line s = Raise KeyError s
  end.
Proof.
  rewrite read_packet_unfold. unfold packet_of.
  destruct (fields_of line) as [[[conn src] dst]|]; cbn; auto.
  destruct (py_int src) as [a|]; cbn; auto.
  destruct (dict_lookup d a) as [ra|]; cbn; auto.
  destruct (py_int dst) as [b|]; cbn; auto.
  destruct (dict_lookup d b) as [rb|]; cbn; auto.
Qed.

(** More digits than [int] converts. *)
Lemma count_digits_rev_app a b :
  count_digits (String.rev_app a b) = count_digits a + count_digits b.
Proof.
  revert b. induction a as [|x a IH]; intros b; [done|].
  cbn. rewrite IH. cbn. lia.
Qed.

Lemma count_digits_rev a : count_digits (String.rev a) = count_digits a.
Proof. unfold String.rev. rewrite count_digits_rev_app. cbn. lia. Qed.

Lemma space_not_digit c : int_isspace c = true → is_digit c = false.
Proof. by destruct c as [[] [] [] [] [] [] [] []]. Qed.

Lemma count_digits_span s :
  count_digits (span int_isspace s).2 = count_digits s.
Proof.
  induction s as [|c s IH]; [done|].
  cbn. destruct (int_isspace c) eqn:Hc; [|done].
  destruct (span int_isspace s) as [a b]. cbn in *.
  by rewrite (space_not_digit c Hc).
Qed.

Lemma count_digits_strip s :
  count_digits (strip_with int_isspace s) = count_digits s.
Proof.
  unfold strip_with.
  by rewrite count_digits_rev, count_digits_span, count_digits_rev, count_digits_span.
Qed.

Lemma int_limited_long t : short t = false → int_limited t = None.
Proof.
  unfold short, int_limited. intros ->. by destruct (int_body 0 true t).
Qed.

Lemma py_int_long s : short s = false → py_int s = None.
Proof.
  unfold py_int. intros Hs.
  assert (H : short (strip_with int_isspace s) = false).
  { unfold short in *. by rewrite count_digits_strip. }
  destruct (strip_with int_isspace s) as [|c t]; [by apply int_limited_long|].
  revert H. destruct c as [[] [] [] [] [] [] [] []]; intros H;
    first [by apply int_limited_long
          |by rewrite (int_limited_long t H)].
Qed.

Lemma created_packets_nil s : created_packets [] s s.
Proof. unfold created_packets. cbn. rewrite Nat.add_0_r. done. Qed.

Lemma created_packets_snoc ps s s' pk :
  created_packets ps s s' → created_packets (ps ++ [pnext s']) s (alloc_packet pk s').
Proof.
  intros (Hps & Hn & Hh & Hrest). unfold created_packets.
  rewrite length_app. cbn. rewrite seq_app, <- Hps. cbn. rewrite Hn.
  split; [done|]. split; [lia|]. split; [|done].
  intros p Hp. rewrite lookup_total_insert_ne by lia. by apply Hh.
Qed.

Lemma read_packets_spec d lines acc s0 s :
  created_packets acc s0 s →
  match read_packets d lines acc s with
  | Ok ps s' =>
      created_packets ps s0 s' ∧ length ps = (length acc + length lines)%nat ∧
      (∀ k p, acc !! k = Some p → pheap s' !!! p = pheap s !!! p) ∧
      ∀ k line, lines !! k = Some line →
        packet_of d line = Some (pheap s' !!! (pnext s + k)%nat)
  | Raise e _ =>
      (e = KeyError ∨ e = ValueError) ∧
      ∃ line, line ∈ lines ∧ packet_of d line = None
  end.
Proof.
  revert acc s. induction lines as [|line lines IH]; intros acc s Hacc.
  - cbn. split; [done|]. split; [by rewrite Nat.add_0_r|]. split; [done|]. intros k l Hk. done.
  - cbn [read_packets]. rewrite bind_run.
    pose proof (read_packet_spec d line s) as Hline.
    destruct (packet_of d line) as [pk|] eqn:Hpk.
    + rewrite Hline.
      specialize (IH (acc ++ [pnext s]) (alloc_packet pk s)
                    (created_packets_snoc acc s0 s pk Hacc)).
      destruct (read_packets d lines _ _) as [ps s'|e s'].
      * destruct IH as (Hps & Hlen & Hold & Hnew).
        split; [done|]. split; [rewrite Hlen, length_app; cbn; lia|].
        assert (Hpn : pheap s' !!! pnext s = pk).
        { rewrite (Hold (length acc) (pnext s)).
          - cbn. by rewrite lookup_total_insert_eq.
          - by rewrite lookup_app_r, Nat.sub_diag. }
        split.
        -- intros k p Hk. rewrite (Hold k p).
           ++ cbn. rewrite lookup_total_insert_ne; [done|].
              destruct Hacc as (Hseq & Hn & _). rewrite Hseq in Hk.
              apply lookup_seq in Hk as (-> & ?). lia.
           ++ by apply lookup_app_l_Some.
        -- intros [|k] l Hk; cbn in Hk.
           ++ injection Hk as <-. by rewrite Nat.add_0_r, Hpn.
           ++ rewrite (Hnew k l Hk). cbn. do 2 f_equal. lia.
      * destruct IH as (He & l & Hl & Hbad). split; [done|].
        exists l. split; [by apply list_elem_of_further|done].
    + destruct Hline as [-> | ->].
      * split; [by right|]. exists line. split; [apply list_elem_of_here|done].
      * split; [by left|]. exists line. split; [apply list_elem_of_here|done].
Qed.

(** X19, the packets that [read_packets] returns: one new Packet object
    for each line of the scenario, in the order of the lines and with
    pairwise distinct identities; the packet of a line has the first field
    as connection tag, the routers numbered by the second and the third
    field as source and destination, delay 0, no next hop, lifetime 0, and
    is not a reply.  No router and no older packet has changed. *)
Theorem read_packets_result d lines s ps s' :
  read_packets d lines [] s = Ok ps s' →
  created_packets ps s s' ∧ length ps = length lines ∧ NoDup ps ∧
  ∀ k line, lines !! k = Some line →
    ps !! k = Some (pnext s + k)%nat ∧
    packet_of d line = Some (pheap s' !!! (pnext s + k)%nat).
Proof.
  intros Hrun.
  pose proof (read_packets_spec d lines [] s s (created_packets_nil s)) as H.
  rewrite Hrun in H. destruct H as (Hps & Hlen & _ & Hnew).
  split; [done|]. split; [done|]. split.
  - destruct Hps as (Hseq & _). rewrite Hseq. apply NoDup_seq.
  - intros k line Hk. split; [|by apply Hnew].
    assert (Hklt : (k < length ps)%nat).
    { rewrite Hlen. cbn. by eapply lookup_lt_Some. }
    destruct Hps as (Hseq & _). rewrite Hseq. by apply lookup_seq.
Qed.

(** X20, when [read_packets] returns: it returns exactly when every line
    of the scenario has three fields between single spaces, the second
    and the third of which [int] accepts and number a router of the
    dictionary; otherwise it ends with [ValueError] or with [KeyError],
    never with another exception.  An empty line, for one, makes it fail,
    and so does a source or a destination of more than 4300 digits,
    which [int] does not accept whatever its value. *)
Theorem read_packets_returns d lines s :
  ((∃ ps s', read_packets d lines [] s = Ok ps s') ↔
   ∀ line, line ∈ lines → is_Some (packet_of d line)) ∧
  (∀ e s', read_packets d lines [] s = Raise e s' →
           e = KeyError ∨ e = ValueError) ∧
  packet_of d EmptyString = None ∧ packet_of d nl = None ∧
  (∀ line conn src dst,
     fields_of line = Some (conn, src, dst) →
     short src = false ∨ short dst = false → packet_of d line = None).
Proof.
  pose proof (read_packets_spec d lines [] s s (created_packets_nil s)) as H.
  split; [split|split; [|split; [done|split; [done|]]]].
  - intros (ps & s' & Hrun). rewrite Hrun in H. destruct H as (_ & _ & _ & Hnew).
    intros line (k & Hk)%list_elem_of_lookup_1. rewrite (Hnew k line Hk). eauto.
  - intros Hall. destruct (read_packets d lines [] s) as [ps s'|e s'].
    + eauto.
    + destruct H as (_ & l & Hl & Hbad). destruct (Hall l Hl). congruence.
  - intros e s' Hrun. rewrite Hrun in H. by destruct H.
  - intros line conn src dst Hf Hlong. unfold packet_of. rewrite Hf. cbn.
    destruct Hlong as [Hlong|Hlong].
    + by rewrite (py_int_long src Hlong).
    + rewrite (py_int_long dst Hlong).
      by destruct (py_int src ≫= dict_lookup d).
Qed.

(** ** [main] *)

(** A tick raises [AttributeError] or [KeyError], if anything. *)
Lemma tick_raises_two Q random i s :
  wp (Network_tick Q random i) (λ _ _, True)
     (λ e _, e = AttributeError ∨ e = KeyError) s.
Proof.
  assert (Hprint : ∀ (line : State → ErrLine) s',
            wp (s'' ← gets (λ s'', s''); print_err (line s''))
               (λ _ _, True) (λ e _, e = AttributeError ∨ e = KeyError) s').
  { intros line s'. by apply wp_bind, wp_gets, wp_modify. }
  unfold Network_tick.
  wp_seq (λ _ : State, True) ltac:(by apply wp_modify).
  wp_seq (λ _ : State, True) ltac:(apply Hprint).
  wp_seq (λ _ : State, True)
    ltac:(eapply wp_conseq; [| |apply drop_packets_raises];
          [done|intros e ? ->; by left]).
  wp_seq (λ _ : State, True)
    ltac:(eapply wp_conseq; [| |apply deliver_packets_raises];
          [done|intros e ? ->; by left]).
  wp_seq (λ _ : State, True) ltac:(apply Hprint).
  wp_seq (λ _ : State, True)
    ltac:(eapply wp_conseq; [| |apply process_incoming_packets_raises];
          [done|intros e ? ->; by right]).
  wp_seq (λ _ : State, True) ltac:(apply Hprint).
  wp_seq (λ _ : State, True)
    ltac:(eapply wp_conseq; [| |apply transmit_packets_raises];
          [done|done]).
  apply Hprint.
Qed.

(** A run from a state that satisfies the invariant of the packets raises
    nothing but [KeyError]. *)
Lemma run_loop_raises Q random fuel i s e s' :
  well_formed s →
  run_loop Q random fuel i s = Some (Raise e s') → e = KeyError.
Proof.
  revert i s. induction fuel as [|fuel IH]; intros i s Hwf; [done|].
  cbn [run_loop].
  pose proof (wp_and _ _ _ _ _ _ (tick_well_formed Q random (i + 1) s Hwf)
                (tick_raises_two Q random (i + 1) s)) as Htick.
  unfold wp in Htick.
  destruct (Network_tick Q random (i + 1) s) as [[] s1|e1 s1].
  - destruct (Network_finished s1); [done|]. apply IH. by destruct Htick.
  - intros [= -> ->]. destruct Htick as (Hattr & [Hone|Hone]); [|done].
    by destruct Hattr.
Qed.

Lemma read_queues_empty d s s' :
  queues_empty s → closed_topology (dict_values d) s' →
  created_routers (dict_values d) s s' → queues_empty s'.
Proof.
  intros Hempty Hclosed (_ & Hframe & _) r.
  destruct (decide (r ∈ dict_values d)) as [Hr|Hr].
  - destruct (Hclosed r Hr) as (? & ? & _). done.
  - unfold lookup_total, map_lookup_total. rewrite (Hframe r Hr). apply Hempty.
Qed.

Lemma queues_empty_start : queues_empty start.
Proof. intros r. unfold lookup_total, map_lookup_total. cbn. by rewrite lookup_empty. Qed.

(** X21, the exceptions of [main]: whatever the two files hold, [main]
    raises [IndexError] only for a topology file without any line, and
    [AttributeError] only when the first line of the topology that does
    not start with a number that [int] converts does not start with a
    digit; every other exception it raises is [KeyError] or
    [ValueError].  In particular the simulation never looks up the
    identifier of a missing next hop, and never pops from an empty
    queue. *)
Theorem main_exceptions Q random topology scenario fuel e s :
  main Q random topology scenario fuel start = Some (Raise e s) →
  e = IndexError ∧ topology = [] ∨
  e = AttributeError ∧
    (∃ line, first_unheaded (tail topology) = Some line ∧
             match_digits line = None) ∨
  e = KeyError ∨ e = ValueError.
Proof.
  unfold main.
  destruct (read_routers topology start) as [d s1|e1 s1] eqn:Hread.
  2:{ intros [= -> ->]. destruct topology as [|total lines].
      { injection Hread as <- <-. by left. }
      pose proof (read_routers_spec total lines start) as H. unfold wp in H.
      rewrite Hread in H. right.
      destruct H as [(line & Hline & ->)|(_ & [He|(He & _)])];
        [|rewrite He; by right; left|rewrite He; by right; right].
      unfold unheaded_error.
      destruct (match_digits line) as [x|] eqn:Hx; [by right; right|].
      left. split; [done|]. by exists line. }
  destruct topology as [|total lines]; [done|].
  pose proof (read_routers_spec total lines start) as H. unfold wp in H.
  rewrite Hread in H. destruct H as ((Hnames & Hclosed & Hsym & Hcreated) & _).
  pose proof (read_queues_empty d start s1 queues_empty_start Hclosed Hcreated)
    as Hempty.
  pose proof (read_packets_spec d scenario [] s1 s1 (created_packets_nil s1)) as Hps.
  destruct (read_packets d scenario [] s1) as [ps s2|e2 s2]; [|intros [= -> ->]].
  2:{ destruct Hps as ([He|He] & _); rewrite He;
        [by right; right; left|by right; right; right]. }
  destruct Hps as ((Hseq & Hn & Hold & Hr & _) & _).
  destruct (init_well_formed (dict_values d) ps s2) as (s3 & -> & Hwf & _).
  - intros r. rewrite Hr. apply Hempty.
  - rewrite Hseq. apply NoDup_seq.
  - intros p Hp. rewrite Hseq in Hp. apply elem_of_seq in Hp. lia.
  - intros Hrun. right; right; left.
    by apply (run_loop_raises Q random fuel 0 s3 e s).
Qed.

Lemma main_exceptions_witness :
  KeyError = IndexError ∧ one_way_topology = [] ∨
  KeyError = AttributeError ∧
    (∃ line, first_unheaded (tail one_way_topology) = Some line ∧
             match_digits line = None) ∨
  KeyError = KeyError ∨ KeyError = ValueError.
Proof.
  apply (main_exceptions 0 no_loss one_way_topology line_scenario_file 40
           KeyError one_way_final).
  vm_compute. reflexivity.
Defined.
(** ** The numbers that [read_routers] converts *)


Lemma read_packets_result_witness :
  created_packets line_packets line_read line_loaded ∧
  length line_packets = length line_scenario_file ∧ NoDup line_packets ∧
  ∀ k line, line_scenario_file !! k = Some line →
    line_packets !! k = Some (pnext line_read + k)%nat ∧
    packet_of line_dict line = Some (pheap line_loaded !!! (pnext line_read + k)%nat).
Proof.
  apply (read_packets_result line_dict line_scenario_file line_read
           line_packets line_loaded).
  vm_compute. reflexivity.
Defined.

(** * Termination *)

(** ** Properties of the packets by container *)

Lemma holding_ext Φ q q' h : (∀ pl, q' pl = q pl) → holding Φ q h → holding Φ q' h.
Proof. intros Hq H pl p. rewrite Hq. apply H. Qed.

Lemma holding_mono (Φ Ψ : place → Packet → Prop) q h :
  (∀ pl pk, Φ pl pk → Ψ pl pk) → holding Φ q h → holding Ψ q h.
Proof. intros HΦ H pl p Hp. by apply HΦ, H. Qed.

Lemma holding_sublist Φ q q' h :
  (∀ pl, q' pl `sublist_of` q pl) → holding Φ q h → holding Φ q' h.
Proof.
  intros Hq H pl p Hp. apply H. eapply elem_of_sublist; [exact Hp|apply Hq].
Qed.

Lemma holding_pop Φ q h pl p rest :
  holding Φ q h → q pl = p :: rest →
  holding Φ (with_queue q pl rest) h ∧ Φ pl (h !!! p).
Proof.
  intros H Hq. split.
  - eapply holding_sublist; [|done]. apply with_queue_sublist.
    rewrite Hq. by apply sublist_cons.
  - apply H. rewrite Hq. by left.
Qed.

Lemma holding_push Φ q h pl p :
  holding Φ q h → Φ pl (h !!! p) → holding Φ (with_queue q pl (q pl ++ [p])) h.
Proof.
  intros H Hp pl' x Hx.
  destruct (elem_of_with_queue_push _ _ _ _ _ Hx) as [Hx'|[-> ->]];
    [by apply H|done].
Qed.

Lemma holding_write Φ q h p pk :
  holding Φ q h → nowhere q p → holding Φ q (<[p := pk]> h).
Proof.
  intros H Hno pl x Hx.
  rewrite lookup_total_insert_ne; [by apply H|].
  intros ->. by apply (Hno pl).
Qed.

(** The same along the steps of the program. *)
Lemma keeps_pop Φ pl s s0 p rest :
  holding Φ (queue s) (pheap s) →
  queue s pl = p :: rest →
  (∀ pl', queue s0 pl' = with_queue (queue s) pl rest pl') →
  pheap s0 = pheap s →
  holding Φ (queue s0) (pheap s0) ∧ Φ pl (pheap s !!! p).
Proof.
  intros H Hq Hq0 Hh. rewrite Hh.
  destruct (holding_pop Φ _ _ _ _ _ H Hq) as (H' & Hp).
  split; [by apply (holding_ext _ _ _ _ Hq0)|done].
Qed.

Lemma keeps_push Φ pl s s1 p :
  holding Φ (queue s) (pheap s) →
  Φ pl (pheap s !!! p) →
  (∀ pl', queue s1 pl' = with_queue (queue s) pl (queue s pl ++ [p]) pl') →
  pheap s1 = pheap s →
  holding Φ (queue s1) (pheap s1).
Proof.
  intros H Hp Hq1 Hh. rewrite Hh.
  apply (holding_ext _ _ _ _ Hq1). by apply holding_push.
Qed.

Lemma keeps_write Φ p f s :
  holding Φ (queue s) (pheap s) → nowhere (queue s) p →
  holding Φ (queue (upd_packet p f s)) (pheap (upd_packet p f s)).
Proof. intros H Hno. by apply holding_write. Qed.

Lemma keeps_alloc Φ pk s :
  holding Φ (queue s) (pheap s) → nowhere (queue s) (pnext s) →
  holding Φ (queue (alloc_packet pk s)) (pheap (alloc_packet pk s)).
Proof. intros H Hno. by apply holding_write. Qed.

(** ** The routing stays *)

Lemma routing_of_frame T s s' : rheap s' = rheap s → routing_of T s → routing_of T s'.
Proof. intros Hh H r. rewrite Hh. apply H. Qed.

Lemma routing_of_upd_router T s r f :
  (∀ x, connections (f x) = connections x ∧ routes (f x) = routes x) →
  routing_of T s → routing_of T (upd_router r f s).
Proof.
  intros Hf H r'. cbn. destruct (decide (r = r')) as [<-|?]; heap_simpl; [|apply H].
  destruct (Hf (rheap s !!! r)) as (-> & ->). apply H.
Qed.

Lemma get_route_for_routing T s r dst :
  routing_of T s → get_route_for (rheap s !!! r) dst = get_route_for (T r) dst.
Proof. intros H. unfold get_route_for. by destruct (H r) as (-> & ->). Qed.

(** ** The time that a packet still needs *)














(** ** The invariant along the phases *)



(** The part of the invariant that only reads the state. *)
Lemma settling_intro T Φ rs s :
  well_formed s → routing_of T s → routers s = rs →
  holding Φ (queue s) (pheap s) → settling T Φ rs s.
Proof. unfold settling. auto. Qed.


Lemma report_dropped_settling T Φ rs i p s :
  p ∈ packets s →
  settling T Φ rs s →
  wp (report_dropped i p)
     (λ _ s', settling T Φ rs s' ∧ packets s' = packets s) any_exn s.
Proof.
  intros Hp (Hwf & Hrt & Hrs & Hb). unfold wp. rewrite report_dropped_unfold.
  destruct (via (pheap s !!! p)) as [v|]; [|done].
  split; [by apply settling_intro|done].
Qed.

Lemma drop_packets_settling Q random T Φ rs i s :
  settling T Φ rs s →
  wp (Network_drop_packets Q random i) (λ _, settling T Φ rs) any_exn s.
Proof.
  intros HS. unfold Network_drop_packets.
  apply wp_bind, wp_gets. apply wp_bind, wp_gets. cbn zeta.
  apply wp_bind, wp_modify. cbn beta.
  set (dropped := draw_dropped Q random (packets s) (drawn s)).
  wp_seq (λ s', settling T Φ rs s' ∧ packets s' = packets s)
    ltac:(apply wp_forM_inv; [|by split]).
  - apply wp_modify. destruct HK as (((Hpl & Hsend) & Hrt & Hrs & Hb) & Hps).
    apply settling_intro; [split| | |]; try done.
    + eapply placed_ext; [apply queue_set_packets|].
      eapply placed_sublist; [|exact Hpl].
      apply with_queue_sublist, sublist_filter.
    + eapply sendable_ext; [apply queue_set_packets|].
      eapply sendable_sublist; [|exact Hsend].
      apply with_queue_sublist, sublist_filter.
    + eapply holding_ext; [apply queue_set_packets|].
      eapply holding_sublist; [|exact Hb].
      apply with_queue_sublist, sublist_filter.
  - intros p s' Hp (HS' & Hps). eapply wp_mono;
      [|apply report_dropped_settling; [|done]].
    + intros ? s'' (? & ?). split; [done|congruence].
    + rewrite Hps. by apply (draw_dropped_sublist Q random _ (drawn s)).
Qed.








(** ** The run ends *)







(** * The reports of a run *)

(** ** Packets on their way *)

Lemma leads_here T rs f r : leads T rs f r r = true.
Proof. destruct f; cbn; by rewrite Nat.eqb_refl. Qed.

(** One hop of a packet that is on its way. *)
Lemma leads_step T rs f r dst :
  r ≠ dst → leads T rs f r dst = true →
  ∃ f', f = S f' ∧
    match connections (T r) !! dst with
    | Some _ => dst ∈ rs
    | None =>
        match routes (T r) !! dst with
        | Some v =>
            match connections (T r) !! v with
            | Some _ => v ∈ rs ∧ leads T rs f' v dst = true
            | None => True
            end
        | None => False
        end
    end.
Proof.
  intros Hne. destruct f as [|f']; cbn.
  - by destruct (Nat.eqb_spec r dst).
  - destruct (Nat.eqb_spec r dst) as [|_]; [done|]. intros H. exists f'.
    split; [done|].
    destruct (connections (T r) !! dst) as [D|].
    + by apply bool_decide_eq_true in H.
    + destruct (routes (T r) !! dst) as [v|]; [|done].
      destruct (connections (T r) !! v) as [D|]; [|done].
      apply andb_true_iff in H as (Hv%bool_decide_eq_true & Hl). done.
Qed.

Lemma on_way_reply T rs self pk v D d :
  destination pk = self → is_reply pk = false →
  on_way T rs self pk →
  get_route_for (T self) (source pk) = Some v →
  connections (T self) !! v = Some D →
  sent_on T rs (reply_to self pk (Some v) d).
Proof.
  intros Hdst Hrep (f & g & _ & [Hr|Hr]) Hv HD; [congruence|].
  rewrite Hdst in Hr. unfold reply_leads in Hr. rewrite Hv, HD in Hr.
  apply andb_true_iff in Hr as (Hin%bool_decide_eq_true & Hl).
  exists v. split; [done|]. split; [done|]. exists g, 0%nat. split; [done|by left].
Qed.

Lemma on_way_neighbour T rs r pk D d :
  destination pk ≠ r → on_way T rs r pk →
  connections (T r) !! destination pk = Some D →
  sent_on T rs (set_delay d (set_via (Some (destination pk)) pk)).
Proof.
  intros Hne (f & g & Hl & Hr) HD.
  apply leads_step in Hl as (f' & -> & Hstep); [|done]. rewrite HD in Hstep.
  exists (destination pk). split; [done|]. split; [done|].
  exists f', g. split; [apply leads_here|done].
Qed.

Lemma on_way_distant T rs r pk v D d :
  destination pk ≠ r → on_way T rs r pk →
  connections (T r) !! destination pk = None →
  routes (T r) !! destination pk = Some v →
  connections (T r) !! v = Some D →
  sent_on T rs (set_delay d (set_via (Some v) pk)).
Proof.
  intros Hne (f & g & Hl & Hr) Hnone Hv HD.
  apply leads_step in Hl as (f' & -> & Hstep); [|done].
  rewrite Hnone, Hv, HD in Hstep. destruct Hstep as (Hin & Hl).
  exists v. split; [done|]. split; [done|]. by exists f', g.
Qed.

Lemma on_way_dead_end T rs r pk :
  destination pk ≠ r → on_way T rs r pk →
  connections (T r) !! destination pk = None →
  routes (T r) !! destination pk = None → False.
Proof.
  intros Hne (f & g & Hl & Hr) Hnone Hnone'.
  apply leads_step in Hl as (f' & -> & Hstep); [|done].
  by rewrite Hnone, Hnone' in Hstep.
Qed.

Lemma sent_on_arrives T rs pk v :
  via pk = Some v → sent_on T rs pk →
  v ∈ rs ∧ on_way T rs v (set_via None (tick_lifetime (tick_delay pk))).
Proof.
  intros Hv (v' & Hv' & Hin & Hw). assert (v' = v) as -> by congruence. done.
Qed.

Lemma sent_on_stays T rs pk :
  sent_on T rs pk → sent_on T rs (tick_lifetime (tick_delay pk)).
Proof. intros (v & Hv & Hin & Hw). by exists v. Qed.

(** ** The live packets *)

Lemma queues_of_ext q q' L :
  (∀ r, r ∈ L → q' (in_input r) = q (in_input r) ∧
                q' (in_output r) = q (in_output r)) →
  queues_of q' L = queues_of q L.
Proof.
  unfold queues_of. induction L as [|a L IH]; intros H; [done|]. cbn.
  destruct (H a) as (-> & ->); [apply list_elem_of_here|]. f_equal.
  apply IH. intros r Hr. by apply H, list_elem_of_further.
Qed.

Lemma live_of_ext rs q q' : (∀ pl, q' pl = q pl) → live_of rs q' = live_of rs q.
Proof.
  intros Hq. unfold live_of. rewrite Hq. f_equal.
  apply queues_of_ext. intros r _. by rewrite !Hq.
Qed.

Lemma live_of_elem rs q p : p ∈ live_of rs q → ∃ pl, p ∈ q pl.
Proof.
  unfold live_of, queues_of. rewrite elem_of_app.
  intros [Hp|Hp]; [by exists in_transit|].
  apply list_elem_of_bind in Hp as (r & Hp & _).
  apply elem_of_app in Hp as [Hp|Hp]; [by exists (in_input r)|by exists (in_output r)].
Qed.

(** The queues of the routers, with those of the router [r] first. *)
Lemma queues_of_router (rs : list rref) r :
  NoDup rs → r ∈ rs →
  ∃ L, (r ∉ L) ∧ (∀ q' : place → list pref,
    queues_of q' rs ≡ₚ (q' (in_input r) ++ q' (in_output r)) ++ queues_of q' L).
Proof.
  intros Hnd (L & HL)%elem_of_Permutation. exists L. split.
  - rewrite HL in Hnd. by apply list.NoDup_cons in Hnd as (? & _).
  - intros q'. unfold queues_of. by rewrite HL.
Qed.

(** The queues of routers other than the one of the container [pl]. *)
Lemma queues_of_with_queue q pl l L :
  (∀ r, r ∈ L → pl ≠ in_input r ∧ pl ≠ in_output r) →
  queues_of (with_queue q pl l) L = queues_of q L.
Proof.
  intros H. apply queues_of_ext. intros r Hr. destruct (H r Hr) as (H1 & H2).
  unfold with_queue. by rewrite !decide_False by done.
Qed.

(** The live packets, with the container [pl] set apart. *)
Lemma live_of_with_queue rs q pl l :
  NoDup rs → listed rs pl →
  live_of rs (with_queue q pl l) ≡ₚ l ++ live_of rs (with_queue q pl []).
Proof.
  intros Hnd Hpl. unfold live_of. destruct pl as [|r|r]; cbn in Hpl.
  - rewrite !queues_of_with_queue by done.
    unfold with_queue. by rewrite !decide_True by done.
  - destruct (queues_of_router rs r Hnd Hpl) as (L & HL & Hq).
    rewrite !Hq.
    rewrite !queues_of_with_queue by (intros r' Hr'; split; congruence).
    unfold with_queue. repeat (case_decide; try congruence).
    cbn. solve_Permutation.
  - destruct (queues_of_router rs r Hnd Hpl) as (L & HL & Hq).
    rewrite !Hq.
    rewrite !queues_of_with_queue by (intros r' Hr'; split; congruence).
    unfold with_queue. repeat (case_decide; try congruence).
    cbn. solve_Permutation.
Qed.

(** Taking a packet from a container of the network, and putting one
    there. *)
Lemma live_of_pop rs q q' pl p rest :
  NoDup rs → listed rs pl → q pl = p :: rest →
  (∀ pl', q' pl' = with_queue q pl rest pl') →
  live_of rs q ≡ₚ p :: live_of rs q'.
Proof.
  intros Hnd Hpl Hq Hq'.
  rewrite (live_of_ext rs _ q' Hq').
  rewrite (live_of_with_queue rs q pl rest) by done.
  rewrite (live_of_ext rs (with_queue q pl (q pl)) q).
  - rewrite (live_of_with_queue rs q pl (q pl)) by done. by rewrite Hq.
  - intros pl'. unfold with_queue. case_decide; by subst.
Qed.

Lemma live_of_push rs q q' pl p :
  NoDup rs → listed rs pl →
  (∀ pl', q' pl' = with_queue q pl (q pl ++ [p]) pl') →
  live_of rs q' ≡ₚ p :: live_of rs q.
Proof.
  intros Hnd Hpl Hq'.
  rewrite (live_of_ext rs _ q' Hq').
  rewrite (live_of_with_queue rs q pl (q pl ++ [p])) by done.
  rewrite (live_of_ext rs (with_queue q pl (q pl)) q).
  - rewrite (live_of_with_queue rs q pl (q pl)) by done. solve_Permutation.
  - intros pl'. unfold with_queue. case_decide; by subst.
Qed.

(** ** The connection tags *)

Lemma conns_ext h h' l :
  (∀ p, p ∈ l → connection (h' !!! p) = connection (h !!! p)) →
  conns h' l = conns h l.
Proof.
  unfold conns. induction l as [|a l IH]; intros H; [done|]. cbn.
  rewrite (H a) by apply list_elem_of_here. f_equal.
  apply IH. intros p Hp. by apply H, list_elem_of_further.
Qed.

Lemma tally_pop rs pl s s0 p rest :
  NoDup rs → routers s = rs → listed rs pl →
  queue s pl = p :: rest →
  (∀ pl', queue s0 pl' = with_queue (queue s) pl rest pl') →
  pheap s0 = pheap s → stdout s0 = stdout s → routers s0 = routers s →
  tally s ≡ₚ connection (pheap s !!! p) :: tally s0.
Proof.
  intros Hnd Hrs Hpl Hq Hq0 Hh Ho Hr. unfold tally, conns.
  rewrite Hh, Ho, Hr, Hrs.
  rewrite (live_of_pop rs (queue s) (queue s0) pl p rest) by done.
  cbn. by rewrite Permutation_middle.
Qed.

Lemma tally_push rs pl s s1 p :
  NoDup rs → routers s = rs → listed rs pl →
  (∀ pl', queue s1 pl' = with_queue (queue s) pl (queue s pl ++ [p]) pl') →
  pheap s1 = pheap s → stdout s1 = stdout s → routers s1 = routers s →
  tally s1 ≡ₚ connection (pheap s !!! p) :: tally s.
Proof.
  intros Hnd Hrs Hpl Hq1 Hh Ho Hr. unfold tally, conns.
  rewrite Hh, Ho, Hr, Hrs.
  rewrite (live_of_push rs (queue s) (queue s1) pl p) by done.
  cbn. by rewrite Permutation_middle.
Qed.

Lemma tally_write p f s :
  (∀ pk, connection (f pk) = connection pk) →
  tally (upd_packet p f s) = tally s.
Proof.
  intros Hf. unfold tally. f_equal.
  change (queue (upd_packet p f s)) with (queue s).
  change (routers (upd_packet p f s)) with (routers s).
  apply conns_ext. intros x _. cbn.
  destruct (decide (p = x)) as [->|?]; heap_simpl; [apply Hf|done].
Qed.

Lemma tally_alloc pk s :
  well_formed s → tally (alloc_packet pk s) = tally s.
Proof.
  intros ((_ & Hal) & _). unfold tally. f_equal.
  change (queue (alloc_packet pk s)) with (queue s).
  change (routers (alloc_packet pk s)) with (routers s).
  apply conns_ext. intros x (pl & Hx%Hal)%live_of_elem. cbn.
  rewrite lookup_total_insert_ne; [done|lia].
Qed.

Lemma tally_log_out line s : tally (log_out line s) ≡ₚ rep_conn line :: tally s.
Proof.
  unfold tally. cbn [stdout log_out set_stdout]. rewrite fmap_app. cbn.
  change (queue (log_out line s)) with (queue s).
  change (pheap (log_out line s)) with (pheap s).
  change (routers (log_out line s)) with (routers s).
  rewrite <- app_assoc. cbn. by rewrite Permutation_middle.
Qed.

(** ** The invariant of the reports along the phases *)

Lemma tracked_intro T rs K s :
  well_formed s → routing_of T s → routers s = rs →
  holding (on_route T rs) (queue s) (pheap s) → NoDup rs → tally s ≡ₚ K →
  tracked T rs K s.
Proof. unfold tracked, settling. auto 10. Qed.

Lemma process_packet_tracked T rs K self i s :
  self ∈ rs →
  tracked T rs K s →
  wp (process_packet self i) (λ _, tracked T rs K) any_exn s.
Proof.
  intros Hself ((Hwf & Hrt & Hrs & Hb) & Hnd & Ht). unfold wp.
  destruct (input (rheap s !!! self)) as [|p rest] eqn:Hin.
  { by rewrite process_packet_empty. }
  rewrite (process_packet_unfold self i s p rest Hin). cbn zeta.
  set (s0 := upd_router self (set_input rest) s).
  destruct (well_formed_pop (in_input self) s s0 p rest Hwf Hin
              (queue_set_input self rest s) eq_refl eq_refl)
    as (Hwf0 & Hno0 & Hlt0 & _).
  destruct (keeps_pop _ (in_input self) s s0 p rest Hb Hin
              (queue_set_input self rest s) eq_refl) as (Hb0 & Hw).
  specialize (Hw Hself).
  pose proof (tally_pop rs (in_input self) s s0 p rest Hnd Hrs Hself Hin
                (queue_set_input self rest s) eq_refl eq_refl eq_refl) as Ht0.
  rewrite Ht in Ht0.
  assert (Hrt0 : routing_of T s0) by (by apply routing_of_upd_router).
  destruct (Hrt self) as (HcT & HrT).
  destruct (Nat.eqb_spec (destination (pheap s !!! p)) self) as [Hdst|Hdst].
  - destruct (is_reply (pheap s !!! p)) eqn:Hrep.
    { apply tracked_intro; try done. rewrite tally_log_out. by rewrite Ht0. }
    destruct (get_route_for (rheap s !!! self) (source (pheap s !!! p)))
      as [v|] eqn:Hv; [|done]. cbn.
    destruct (connections (rheap s !!! self) !! v) as [d|] eqn:Hd; [|done].
    rewrite (get_route_for_routing T s self _ Hrt) in Hv. rewrite HcT in Hd.
    rewrite bool_decide_eq_true_2 by eauto.
    pose proof (on_way_reply T rs self _ v d (d + NEIGHBOUR_DELAY)
                  Hdst Hrep Hw Hv Hd) as Hfl.
    match goal with |- tracked _ _ _ (upd_router _ _ (alloc_packet ?pk ?s1)) =>
      destruct (well_formed_alloc pk s1 Hwf0) as (Hwf1 & Hno1);
      pose proof (keeps_alloc _ pk s1 Hb0 (placed_fresh _ _ (proj1 Hwf0))) as Hb1;
      pose proof (tally_alloc pk s1 Hwf0) as Ht1;
      pose proof (tally_push rs (in_output self) (alloc_packet pk s1)
                    (upd_router self (push_output (pnext s1)) (alloc_packet pk s1))
                    (pnext s1) Hnd Hrs Hself
                    (queue_push_output self (pnext s1) (alloc_packet pk s1))
                    eq_refl eq_refl eq_refl) as Ht2;
      apply tracked_intro;
      [ apply (well_formed_push (in_output self) (alloc_packet pk s1) _ (pnext s1))
      | by apply routing_of_upd_router
      | done
      | apply (keeps_push _ (in_output self) (alloc_packet pk s1) _ (pnext s1))
      | done
      | etrans; [exact Ht2|]; rewrite Ht1, pheap_alloc_packet_eq; by rewrite Ht0 ]
    end; try done.
    + cbn. lia.
    + intros _. rewrite pheap_alloc_packet_eq. apply routed_reply.
    + intros pl'. apply queue_push_output.
    + intros _. by rewrite pheap_alloc_packet_eq.
    + intros pl'. apply queue_push_output.
  - destruct (connections (rheap s !!! self) !! destination (pheap s !!! p))
      as [d|] eqn:Hd.
    + rewrite HcT in Hd.
      pose proof (on_way_neighbour T rs self _ d (Some (d + NEIGHBOUR_DELAY))
                    Hdst Hw Hd) as Hfl.
      destruct (well_formed_write p (set_via (Some (destination (pheap s !!! p))))
                  s0 Hwf0 Hno0) as (Hwf1 & Hno1).
      pose proof (keeps_write _ p (set_via (Some (destination (pheap s !!! p))))
                    s0 Hb0 Hno0) as Hb1.
      destruct (well_formed_write p (set_delay (Some (d + NEIGHBOUR_DELAY)))
                  _ Hwf1 Hno1) as (Hwf2 & Hno2).
      pose proof (keeps_write _ p (set_delay (Some (d + NEIGHBOUR_DELAY)))
                    _ Hb1 Hno1) as Hb2.
      apply tracked_intro; try done.
      * eapply (well_formed_push (in_output self) _ _ p Hwf2 Hno2); try done.
        -- intros _. rewrite !pheap_upd_packet_eq. split; eauto.
        -- intros pl'. apply queue_push_output.
      * by apply routing_of_upd_router.
      * eapply (keeps_push _ (in_output self) _ _ p Hb2); try done.
        -- intros _. by rewrite !pheap_upd_packet_eq.
        -- intros pl'. apply queue_push_output.
      * match goal with |- tally (upd_router _ _ ?s2) ≡ₚ _ =>
          rewrite (tally_push rs (in_output self) s2 _ p Hnd Hrs Hself
                     (queue_push_output self p s2) eq_refl eq_refl eq_refl) end.
        rewrite !pheap_upd_packet_eq, !tally_write by done. cbn.
        by rewrite Ht0.
    + destruct (routes (rheap s !!! self) !! destination (pheap s !!! p))
        as [next|] eqn:Hnext.
      2:{ rewrite HcT in Hd. rewrite HrT in Hnext.
          destruct (on_way_dead_end T rs self _ Hdst Hw Hd Hnext). }
      destruct (connections (rheap s !!! self) !! next) as [d|] eqn:Hd'; [|done].
      rewrite HcT in Hd, Hd'. rewrite HrT in Hnext.
      pose proof (on_way_distant T rs self _ next d (Some (d + DISTANT_DELAY))
                    Hdst Hw Hd Hnext Hd') as Hfl.
      destruct (well_formed_write p (set_via (Some next)) s0 Hwf0 Hno0)
        as (Hwf1 & Hno1).
      pose proof (keeps_write _ p (set_via (Some next)) s0 Hb0 Hno0) as Hb1.
      destruct (well_formed_write p (set_delay (Some (d + DISTANT_DELAY)))
                  _ Hwf1 Hno1) as (Hwf2 & Hno2).
      pose proof (keeps_write _ p (set_delay (Some (d + DISTANT_DELAY)))
                    _ Hb1 Hno1) as Hb2.
      apply tracked_intro; try done.
      * eapply (well_formed_push (in_output self) _ _ p Hwf2 Hno2); try done.
        -- intros _. rewrite !pheap_upd_packet_eq. split; eauto.
        -- intros pl'. apply queue_push_output.
      * by apply routing_of_upd_router.
      * eapply (keeps_push _ (in_output self) _ _ p Hb2); try done.
        -- intros _. by rewrite !pheap_upd_packet_eq.
        -- intros pl'. apply queue_push_output.
      * match goal with |- tally (upd_router _ _ ?s2) ≡ₚ _ =>
          rewrite (tally_push rs (in_output self) s2 _ p Hnd Hrs Hself
                     (queue_push_output self p s2) eq_refl eq_refl eq_refl) end.
        rewrite !pheap_upd_packet_eq, !tally_write by done. cbn.
        by rewrite Ht0.
Qed.

Lemma transmit_packet_tracked T rs K r s :
  r ∈ rs →
  tracked T rs K s →
  wp (transmit_packet r) (λ _, tracked T rs K) any_exn s.
Proof.
  intros Hr ((Hwf & Hrt & Hrs & Hb) & Hnd & Ht). unfold wp.
  destruct (output (rheap s !!! r)) as [|p rest] eqn:Ho.
  { by rewrite transmit_packet_empty. }
  rewrite (transmit_packet_unfold r s p rest Ho).
  set (s0 := upd_router r (set_output rest) s).
  destruct (well_formed_pop (in_output r) s s0
              p rest Hwf Ho (queue_set_output r rest s) eq_refl eq_refl)
    as (Hwf0 & Hno0 & Hlt0 & Hrouted).
  destruct (keeps_pop _ (in_output r) s s0
              p rest Hb Ho (queue_set_output r rest s) eq_refl) as (Hb0 & Hfl).
  specialize (Hfl Hr).
  pose proof (tally_pop rs (in_output r) s s0 p rest Hnd Hrs Hr Ho
                (queue_set_output r rest s) eq_refl eq_refl eq_refl) as Ht0.
  rewrite Ht in Ht0.
  apply tracked_intro; try done.
  - eapply (well_formed_push in_transit _ _ p Hwf0 Hno0); try done.
    intros pl'. exact (queue_set_packets (packets s ++ [p]) s0 pl').
  - by apply routing_of_upd_router.
  - eapply (keeps_push _ in_transit _ _ p Hb0); try done.
    intros pl'. exact (queue_set_packets (packets s ++ [p]) s0 pl').
  - rewrite (tally_push rs in_transit s0 _ p Hnd Hrs I
               (queue_set_packets (packets s ++ [p]) s0) eq_refl eq_refl eq_refl).
    by rewrite Ht0.
Qed.

Lemma deliver_packet_tracked T rs K s :
  tracked T rs K s →
  wp deliver_packet (λ _, tracked T rs K) any_exn s.
Proof.
  intros ((Hwf & Hrt & Hrs & Hb) & Hnd & Ht). unfold wp.
  destruct (packets s) as [|p rest] eqn:Hp.
  { by rewrite deliver_packet_empty. }
  rewrite (deliver_packet_unfold s p rest Hp). cbn zeta.
  set (s0 := set_packets rest s).
  destruct (well_formed_pop in_transit s s0 p rest Hwf Hp
              (queue_set_packets rest s) eq_refl eq_refl)
    as (Hwf0 & Hno0 & Hlt0 & Hrouted).
  destruct (keeps_pop _ in_transit s s0 p rest Hb Hp
              (queue_set_packets rest s) eq_refl) as (Hb0 & Hfl).
  pose proof (tally_pop rs in_transit s s0 p rest Hnd Hrs I Hp
                (queue_set_packets rest s) eq_refl eq_refl eq_refl) as Ht0.
  rewrite Ht in Ht0.
  specialize (Hrouted I). cbn in Hrouted, Hfl.
  set (s1 := upd_packet p tick_delay s0).
  set (s2 := upd_packet p tick_lifetime s1).
  destruct (well_formed_write p tick_delay s0 Hwf0 Hno0) as (Hwf1 & Hno1).
  pose proof (keeps_write _ p tick_delay s0 Hb0 Hno0) as Hb1.
  destruct (well_formed_write p tick_lifetime s1 Hwf1 Hno1) as (Hwf2 & Hno2).
  pose proof (keeps_write _ p tick_lifetime s1 Hb1 Hno1) as Hb2.
  assert (Ht2 : tally s2 = tally s0).
  { unfold s2, s1. by rewrite !tally_write. }
  assert (Hc2 : connection (pheap s2 !!! p) = connection (pheap s !!! p)).
  { unfold s2, s1. by rewrite !pheap_upd_packet_eq. }
  destruct Hrouted as ([v Hv] & [d Hd]). rewrite Hd, Hv.
  destruct (sent_on_arrives T rs _ v Hv Hfl) as (Hvin & Hon).
  destruct (d - 1 <=? 0).
  - set (s3 := upd_packet p (set_via None) s2).
    destruct (well_formed_write p (set_via None) s2 Hwf2 Hno2) as (Hwf3 & Hno3).
    pose proof (keeps_write _ p (set_via None) s2 Hb2 Hno2) as Hb3.
    assert (Hq : ∀ pl', queue (upd_packet p (set_via None)
                                 (upd_router v (push_input p) s2)) pl' =
                        with_queue (queue s3) (in_input v)
                          (queue s3 (in_input v) ++ [p]) pl').
    { intros pl'. exact (queue_push_input v p s3 pl'). }
    apply tracked_intro; try done.
    + by eapply (well_formed_push (in_input v) s3 _ p Hwf3 Hno3).
    + apply (routing_of_frame T (upd_router v (push_input p) s)); [done|].
      by apply routing_of_upd_router.
    + eapply (keeps_push _ (in_input v) s3 _ p Hb3); try done.
      intros _. unfold s3, s2, s1. by rewrite !pheap_upd_packet_eq.
    + rewrite (tally_push rs (in_input v) s3 _ p Hnd Hrs Hvin Hq
                 eq_refl eq_refl eq_refl).
      unfold s3. rewrite pheap_upd_packet_eq, tally_write by done.
      cbn [connection set_via]. by rewrite Hc2, Ht2, Ht0.
  - assert (Hq : ∀ pl', queue (set_packets (rest ++ [p]) s2) pl' =
                        with_queue (queue s2) in_transit
                          (queue s2 in_transit ++ [p]) pl').
    { intros pl'. exact (queue_set_packets (rest ++ [p]) s2 pl'). }
    apply tracked_intro; try done.
    + eapply (well_formed_push in_transit s2 _ p Hwf2 Hno2); try done.
      intros _. unfold s2, s1. rewrite !pheap_upd_packet_eq. cbn.
      apply routed_tick. split; eauto.
    + eapply (keeps_push _ in_transit s2 _ p Hb2); try done.
      unfold s2, s1. rewrite !pheap_upd_packet_eq. by apply sent_on_stays.
    + rewrite (tally_push rs in_transit s2 _ p Hnd Hrs I Hq
                 eq_refl eq_refl eq_refl).
      by rewrite Hc2, Ht2, Ht0.
Qed.

(** ** The reports of the loss phase *)

Lemma draw_dropped_sublist_of (Q : QArith_base.Q) random l k :
  draw_dropped Q random l k `sublist_of` l.
Proof.
  revert k. induction l as [|p l IH]; intros k; cbn; [done|].
  destruct (Qle_bool (random k) Q); [by apply sublist_skip|by apply sublist_cons].
Qed.

(** The dropped packets and the packets that stay are the packets in
    transit. *)
Lemma draw_dropped_split (Q : QArith_base.Q) random l k :
  NoDup l →
  l ≡ₚ draw_dropped Q random l k ++
       filter (λ p, p ∉ draw_dropped Q random l k) l.
Proof.
  intros Hnd. set (d := draw_dropped Q random l k).
  rewrite <- (filter_app_complement (λ p, p ∈ d) l) at 1.
  f_equiv.
  apply NoDup_Permutation.
  - by apply list.NoDup_filter.
  - eapply sublist_NoDup; [exact Hnd|apply draw_dropped_sublist_of].
  - intros x. rewrite list_elem_of_filter. split; [tauto|]. intros Hx.
    split; [done|]. by apply (draw_dropped_sublist Q random l k).
Qed.

Lemma queues_of_frame s s' L :
  rheap s' = rheap s → queues_of (queue s') L = queues_of (queue s) L.
Proof. intros Hh. apply queues_of_ext. intros r _. cbn. by rewrite Hh. Qed.

Lemma tally_unfold s :
  tally s = (rep_conn <$> stdout s) ++
            conns (pheap s) (packets s ++ queues_of (queue s) (routers s)).
Proof. done. Qed.

Lemma drop_packets_tally Q random K i s :
  well_formed s → tally s ≡ₚ K →
  wp (Network_drop_packets Q random i) (λ _ s', tally s' ≡ₚ K) any_exn s.
Proof.
  intros Hwf Ht. unfold wp. rewrite drop_packets_unfold. cbn zeta.
  set (dropped := draw_dropped Q random (packets s) (drawn s)).
  set (s0 := set_drawn (drawn s + length (packets s)) s).
  assert (Hnd : NoDup (packets s)).
  { destruct Hwf as (((Hnd & _) & _) & _). apply (Hnd in_transit). }
  assert (Hd : Forall (λ p, is_Some (via (pheap s0 !!! p))) dropped).
  { rewrite list.Forall_forall. intros p Hp. destruct Hwf as (_ & Hsend).
    destruct (Hsend in_transit p I) as (Hv & _); [|done].
    by apply (draw_dropped_sublist Q random _ (drawn s)). }
  rewrite drop_reports_ok by done.
  destruct (lost_reports_frame i dropped s0) as (Eh & Er & _ & Ep & Ers & _).
  pose proof (draw_dropped_split Q random (packets s) (drawn s) Hnd) as Hsplit.
  fold dropped in Hsplit.
  rewrite tally_unfold. cbn [stdout pheap packets routers set_packets].
  rewrite Ep, Eh, Ers, lost_reports_stdout by done.
  rewrite (queues_of_frame s) by done.
  rewrite <- Ht, tally_unfold.
  change (stdout s0) with (stdout s). change (pheap s0) with (pheap s).
  change (packets s0) with (packets s). change (routers s0) with (routers s).
  set (kept := filter (λ p, p ∉ dropped) (packets s)) in *.
  unfold conns. rewrite !fmap_app, <- list_fmap_compose.
  rewrite Hsplit, fmap_app, <- !app_assoc. done.
Qed.

Lemma drop_packets_tracked Q random T rs K i s :
  tracked T rs K s →
  wp (Network_drop_packets Q random i) (λ _, tracked T rs K) any_exn s.
Proof.
  intros (HS & Hnd & Ht).
  pose proof (wp_and _ _ _ _ _ _
                (drop_packets_settling Q random T _ rs i s HS)
                (drop_packets_tally Q random K i s (proj1 HS) Ht)) as H.
  eapply wp_conseq; [| |exact H]; [|done].
  intros [] s' (HS' & Ht'). by split.
Qed.

Lemma print_state_tracked T rs K (line : State → ErrLine) s :
  tracked T rs K s →
  wp (s' ← gets (λ s', s'); print_err (line s')) (λ _, tracked T rs K) any_exn s.
Proof. intros H. by apply wp_bind, wp_gets, wp_modify. Qed.

Lemma deliver_packets_tracked T rs K i s :
  tracked T rs K s →
  wp (Network_deliver_packets i) (λ _, tracked T rs K) any_exn s.
Proof.
  intros HS. unfold Network_deliver_packets. apply wp_bind, wp_gets.
  apply wp_repeatM_inv; [|done]. intros. by apply deliver_packet_tracked.
Qed.

Lemma process_incoming_packets_tracked T rs K i s :
  tracked T rs K s →
  wp (Network_process_incoming_packets i) (λ _, tracked T rs K) any_exn s.
Proof.
  intros HS. unfold Network_process_incoming_packets. apply wp_bind, wp_gets.
  assert (Hrs : routers s = rs) by (by destruct HS as ((_ & _ & ? & _) & _)).
  rewrite Hrs.
  apply wp_forM_inv; [|done]. intros r s' Hr HS'.
  unfold Router_process_incoming_packets. apply wp_bind, wp_gets.
  apply wp_repeatM_inv; [|done]. intros. by apply process_packet_tracked.
Qed.

Lemma transmit_packets_tracked T rs K i s :
  tracked T rs K s →
  wp (Network_transmit_packets i) (λ _, tracked T rs K) any_exn s.
Proof.
  intros HS. unfold Network_transmit_packets. apply wp_bind, wp_gets.
  assert (Hrs : routers s = rs) by (by destruct HS as ((_ & _ & ? & _) & _)).
  rewrite Hrs.
  apply wp_forM_inv; [|done]. intros r s' Hr HS'.
  apply wp_bind, wp_gets.
  apply wp_repeatM_inv; [|done]. intros. by apply transmit_packet_tracked.
Qed.

Lemma tick_tracked Q random T rs K i s :
  tracked T rs K s →
  wp (Network_tick Q random i) (λ _, tracked T rs K) any_exn s.
Proof.
  intros HS. unfold Network_tick.
  wp_seq (tracked T rs K) ltac:(by apply wp_modify).
  wp_seq (tracked T rs K)
    ltac:(by apply (print_state_tracked T rs K
                 (λ s, err_pre_deliver (Packet_str s <$> packets s)))).
  wp_seq (tracked T rs K) ltac:(by apply drop_packets_tracked).
  wp_seq (tracked T rs K) ltac:(by apply deliver_packets_tracked).
  wp_seq (tracked T rs K)
    ltac:(by apply (print_state_tracked T rs K
                 (λ s, err_post_deliver (Router_str s <$> routers s)))).
  wp_seq (tracked T rs K) ltac:(by apply process_incoming_packets_tracked).
  wp_seq (tracked T rs K)
    ltac:(by apply (print_state_tracked T rs K
                 (λ s, err_pre_transmit (Router_str s <$> routers s)))).
  wp_seq (tracked T rs K) ltac:(by apply transmit_packets_tracked).
  by apply (print_state_tracked T rs K
              (λ s, err_post_transmit (Packet_str s <$> packets s))).
Qed.

(** ** The reports of a run that returns *)

Lemma run_loop_tracked Q random T rs K fuel i s s' :
  tracked T rs K s →
  run_loop Q random fuel i s = Some (Ok tt s') →
  tracked T rs K s' ∧ Network_finished s' = true.
Proof.
  revert i s. induction fuel as [|fuel IH]; intros i s HS; [done|].
  cbn [run_loop].
  pose proof (tick_tracked Q random T rs K (i + 1) s HS) as Htick.
  unfold wp in Htick.
  destruct (Network_tick Q random (i + 1) s) as [[] s1|e s1]; [|done].
  destruct (Network_finished s1) eqn:Hfin.
  - intros [= <-]. done.
  - by apply IH.
Qed.

Lemma queues_of_idle s L :
  (∀ r, r ∈ L → input (rheap s !!! r) = [] ∧ output (rheap s !!! r) = []) →
  queues_of (queue s) L = [].
Proof.
  unfold queues_of. induction L as [|a L IH]; intros H; [done|]. cbn.
  destruct (H a) as (-> & ->); [apply list_elem_of_here|]. cbn.
  apply IH. intros r Hr. by apply H, list_elem_of_further.
Qed.

(** When the run is over, the tally holds the lines of the standard output
    only. *)
Lemma tally_finished s :
  Network_finished s = true → tally s = rep_conn <$> stdout s.
Proof.
  intros (Hp & Hidle)%finished_spec. rewrite tally_unfold, Hp.
  rewrite queues_of_idle by done. cbn. by rewrite app_nil_r.
Qed.

(** The constructor keeps the tally: it moves every packet to the input
    queue of its source. *)
Lemma inject_packet_tally rs K s :
  NoDup rs →
  routers s = rs ∧ (∀ p, p ∈ packets s → source (pheap s !!! p) ∈ rs) ∧
  tally s ≡ₚ K →
  wp inject_packet
     (λ _ s', routers s' = rs ∧
              (∀ p, p ∈ packets s' → source (pheap s' !!! p) ∈ rs) ∧
              tally s' ≡ₚ K) any_exn s.
Proof.
  intros Hnd (Hrs & Hsrc & Ht). unfold wp.
  destruct (packets s) as [|p rest] eqn:Hp.
  { by rewrite inject_packet_empty. }
  rewrite (inject_packet_unfold s p rest Hp).
  set (s0 := set_packets rest s).
  pose proof (tally_pop rs in_transit s s0 p rest Hnd Hrs I Hp
                (queue_set_packets rest s) eq_refl eq_refl eq_refl) as Ht0.
  rewrite Ht in Ht0.
  split; [done|]. split.
  - intros x Hx. apply Hsrc. by apply list_elem_of_further.
  - rewrite (tally_push rs (in_input (source (pheap s !!! p))) s0 _ p Hnd Hrs
               (Hsrc p (list_elem_of_here _ _))
               (queue_push_input _ p s0) eq_refl eq_refl eq_refl).
    by rewrite Ht0.
Qed.

Lemma init_tally rs ps s :
  queues_empty s → NoDup rs →
  (∀ p, p ∈ ps → source (pheap s !!! p) ∈ rs) →
  wp (Network_init rs ps)
     (λ _ s', tally s' ≡ₚ (rep_conn <$> stdout s) ++ conns (pheap s) ps) any_exn s.
Proof.
  intros Hempty Hnd Hsrc. unfold Network_init.
  apply wp_bind, wp_modify. apply wp_bind, wp_modify. apply wp_bind, wp_gets.
  eapply wp_mono;
    [|apply (wp_repeatM_inv _ _
        (λ s', routers s' = rs ∧
               (∀ p, p ∈ packets s' → source (pheap s' !!! p) ∈ rs) ∧
               tally s' ≡ₚ (rep_conn <$> stdout s) ++ conns (pheap s) ps))].
  - by intros ? s' (_ & _ & Ht).
  - intros s' HI. by apply inject_packet_tally.
  - split; [done|]. split; [done|].
    rewrite tally_unfold. cbn [stdout pheap packets routers set_packets set_routers].
    rewrite (queues_of_idle _ rs) by (intros r _; apply Hempty).
    by rewrite app_nil_r.
Qed.

Lemma init_tracked rs ps s :
  queues_empty s → NoDup rs → NoDup ps → (∀ p, p ∈ ps → (p < pnext s)%nat) →
  (∀ p, p ∈ ps →
        source (pheap s !!! p) ∈ rs ∧
        on_way (topology_of s) rs (source (pheap s !!! p)) (pheap s !!! p)) →
  ∃ s1, Network_init rs ps s = Ok tt s1 ∧
        tracked (topology_of s) rs
          ((rep_conn <$> stdout s) ++ conns (pheap s) ps) s1.
Proof.
  intros Hempty Hndr Hnd Hlt Hw.
  destruct (init_well_formed rs ps s Hempty Hnd Hlt) as (s1 & Hinit & Hwf & Hp).
  pose proof (Network_init_loop rs ps s) as H. unfold wp in H. rewrite Hinit in H.
  destruct H as (Hrs & _ & Hr & Hh & _).
  pose proof (init_tally rs ps s Hempty Hndr (λ p Hp', proj1 (Hw p Hp'))) as Ht.
  unfold wp in Ht. rewrite Hinit in Ht.
  exists s1. split; [done|]. apply tracked_intro; try done.
  - intros r. destruct (Hr r) as (_ & _ & _ & Hc & Hroutes). done.
  - intros pl p Hpl. destruct pl as [|r|r]; cbn in *.
    + rewrite Hp in Hpl. by apply not_elem_of_nil in Hpl.
    + intros _. destruct (Hr r) as (Hin & _). rewrite Hin in Hpl.
      destruct (Hempty r) as (Hi & _). rewrite Hi in Hpl. cbn in Hpl.
      apply list_elem_of_filter in Hpl as (<- & Hpl). rewrite Hh. by apply Hw.
    + destruct (Hr r) as (_ & Hout & _). rewrite Hout in Hpl.
      destruct (Hempty r) as (_ & Ho). rewrite Ho in Hpl.
      by apply not_elem_of_nil in Hpl.
Qed.

(** X24, one report for every packet of the scenario: in a network of
    pairwise distinct routers, when from the source of every packet the
    forwarding rule leads to the destination through routers of the
    network, or to a lookup that raises [KeyError], and the same holds
    for the reply to every request, then whatever the loss, a run that
    returns has written to the standard output as many lines as the
    scenario has packets, and, up to their order, the connection tags of
    these lines are those of the packets: every packet is reported once,
    as delivered or as lost, and nothing else is reported. *)
Theorem run_reports Q random rs ps fuel s s1 s' :
  queues_empty s → NoDup rs → NoDup ps → (∀ p, p ∈ ps → (p < pnext s)%nat) →
  (∀ p, p ∈ ps →
        source (pheap s !!! p) ∈ rs ∧
        on_way (topology_of s) rs (source (pheap s !!! p)) (pheap s !!! p)) →
  Network_init rs ps s = Ok tt s1 →
  Network_run Q random fuel s1 = Some (Ok tt s') →
  rep_conn <$> stdout s' ≡ₚ (rep_conn <$> stdout s) ++ conns (pheap s) ps.
Proof.
  intros Hempty Hndr Hnd Hlt Hw Hinit Hrun.
  destruct (init_tracked rs ps s Hempty Hndr Hnd Hlt Hw) as (s1' & Hinit' & HS).
  assert (s1' = s1) as -> by congruence.
  destruct (run_loop_tracked Q random _ rs _ fuel 0 s1 s' HS Hrun)
    as ((_ & _ & Ht) & Hfin).
  by rewrite <- (tally_finished s' Hfin).
Qed.

Lemma run_reports_witness :
  rep_conn <$> stdout line_final ≡ₚ
    (rep_conn <$> stdout (line_world None)) ++
    conns (pheap (line_world None)) [0%nat].
Proof.
  apply (run_reports 0 no_loss [1; 2; 3]%nat [0%nat] 40 (line_world None)
           (line_network None) line_final).
  - apply queues_empty_world. repeat constructor.
  - apply (bool_decide_unpack _). vm_compute. exact I.
  - apply NoDup_singleton.
  - intros p Hp. apply list_elem_of_singleton in Hp as ->. vm_compute. lia.
  - intros p Hp. apply list_elem_of_singleton in Hp as ->. split.
    + apply (bool_decide_unpack _). vm_compute. exact I.
    + exists 2%nat, 2%nat. split; [vm_compute; reflexivity|].
      right. vm_compute. reflexivity.
  - vm_compute. reflexivity.
  - vm_compute. reflexivity.
Defined.

(** ** Without loss every line reports a delivery *)

Lemma delivered_since_refl s : delivered_since s s.
Proof. exists []. by rewrite app_nil_r. Qed.

Lemma delivered_since_frame s s' s'' :
  stdout s'' = stdout s' → delivered_since s s' → delivered_since s s''.
Proof. intros Heq (l & Hl & HP). exists l. by rewrite Heq. Qed.

Lemma delivered_since_log_out s s' line :
  rep_status line = delivered → delivered_since s s' →
  delivered_since s (log_out line s').
Proof.
  intros Hline (l & Hl & HP). exists (l ++ [line]). split.
  - cbn. by rewrite Hl, app_assoc.
  - apply Forall_app. split; [done|]. by apply Forall_singleton.
Qed.

Lemma process_packet_delivered s0 self i s :
  delivered_since s0 s →
  wp (process_packet self i) (λ _, delivered_since s0) any_exn s.
Proof.
  intros HR. unfold wp.
  destruct (input (rheap s !!! self)) as [|p rest] eqn:Hin.
  { by rewrite process_packet_empty. }
  rewrite (process_packet_unfold self i s p rest Hin). cbn zeta.
  destruct (Nat.eqb_spec (destination (pheap s !!! p)) self) as [Hdst|_].
  - destruct (is_reply (pheap s !!! p)).
    + apply delivered_since_log_out; [done|by eapply delivered_since_frame].
    + destruct (get_route_for (rheap s !!! self) (source (pheap s !!! p))
                  ≫= (connections (rheap s !!! self) !!.)) as [d|]; [|done].
      by eapply delivered_since_frame.
  - destruct (connections (rheap s !!! self) !! destination (pheap s !!! p)) as [d|];
      [by eapply delivered_since_frame|].
    destruct (routes (rheap s !!! self) !! destination (pheap s !!! p)) as [next|];
      [|by eapply delivered_since_frame].
    destruct (connections (rheap s !!! self) !! next) as [d|]; [|done].
    by eapply delivered_since_frame.
Qed.

Lemma deliver_packet_delivered s0 s :
  delivered_since s0 s →
  wp deliver_packet (λ _, delivered_since s0) any_exn s.
Proof.
  intros HR. unfold wp.
  destruct (packets s) as [|p rest] eqn:Hp.
  { by rewrite deliver_packet_empty. }
  rewrite (deliver_packet_unfold s p rest Hp). cbn zeta.
  destruct (delay (pheap s !!! p)) as [d|]; [|by eapply delivered_since_frame].
  destruct (d - 1 <=? 0); [|by eapply delivered_since_frame].
  destruct (via (pheap s !!! p)) as [v|]; [|done].
  by eapply delivered_since_frame.
Qed.

Lemma transmit_packet_delivered s0 r s :
  delivered_since s0 s →
  wp (transmit_packet r) (λ _, delivered_since s0) any_exn s.
Proof.
  intros HR. unfold wp.
  destruct (output (rheap s !!! r)) as [|p rest] eqn:Ho.
  { by rewrite transmit_packet_empty. }
  rewrite (transmit_packet_unfold r s p rest Ho). by eapply delivered_since_frame.
Qed.

Lemma tick_delivered Q random i s0 s :
  (∀ n, Qlt Q (random n)) →
  delivered_since s0 s →
  wp (Network_tick Q random i) (λ _, delivered_since s0) any_exn s.
Proof.
  intros Hno HR.
  assert (Hlog : ∀ s' line, delivered_since s0 s' →
                            delivered_since s0 (log_err line s')).
  { intros s' line H. by eapply delivered_since_frame. }
  unfold Network_tick.
  wp_seq (delivered_since s0) ltac:(apply wp_modify; by apply Hlog).
  wp_seq (delivered_since s0)
    ltac:(by apply (print_state_inv (delivered_since s0) any_exn Hlog
                      (λ s, err_pre_deliver (Packet_str s <$> packets s)))).
  wp_seq (delivered_since s0)
    ltac:(unfold wp; rewrite drop_packets_none by done;
          by eapply delivered_since_frame).
  wp_seq (delivered_since s0)
    ltac:(apply (deliver_packets_inv i (delivered_since s0) any_exn); [|done];
          intros; by apply deliver_packet_delivered).
  wp_seq (delivered_since s0)
    ltac:(by apply (print_state_inv (delivered_since s0) any_exn Hlog
                      (λ s, err_post_deliver (Router_str s <$> routers s)))).
  wp_seq (delivered_since s0)
    ltac:(apply (process_incoming_packets_inv i (delivered_since s0) any_exn);
          [|done]; intros; by apply process_packet_delivered).
  wp_seq (delivered_since s0)
    ltac:(by apply (print_state_inv (delivered_since s0) any_exn Hlog
                      (λ s, err_pre_transmit (Router_str s <$> routers s)))).
  wp_seq (delivered_since s0)
    ltac:(apply (transmit_packets_inv i (delivered_since s0) any_exn); [|done];
          intros; by apply transmit_packet_delivered).
  by apply (print_state_inv (delivered_since s0) any_exn Hlog
              (λ s, err_post_transmit (Packet_str s <$> packets s))).
Qed.

Lemma run_loop_delivered Q random s0 fuel i s s' :
  (∀ n, Qlt Q (random n)) →
  delivered_since s0 s →
  run_loop Q random fuel i s = Some (Ok tt s') →
  delivered_since s0 s'.
Proof.
  intros Hno. revert i s. induction fuel as [|fuel IH]; intros i s HR; [done|].
  cbn [run_loop].
  pose proof (tick_delivered Q random (i + 1) s0 s Hno HR) as Htick.
  unfold wp in Htick.
  destruct (Network_tick Q random (i + 1) s) as [[] s1|e s1]; [|done].
  destruct (Network_finished s1).
  - by intros [= <-].
  - by apply IH.
Qed.

(** X25, without loss every packet is answered: in a network of pairwise
    distinct routers, when from the source of every packet the forwarding
    rule leads to the destination through routers of the network, or to a
    lookup that raises [KeyError], and the same holds for the reply, and
    no draw of [random.random()] is at most [Q], a run that returns has
    only appended [status=delivered] lines to the standard output, and,
    up to their order, the connection tags of these lines are those of the
    packets of the scenario: one delivery is reported for every packet. *)
Theorem run_delivers Q random rs ps fuel s s1 s' :
  (∀ n, Qlt Q (random n)) →
  queues_empty s → NoDup rs → NoDup ps → (∀ p, p ∈ ps → (p < pnext s)%nat) →
  (∀ p, p ∈ ps →
        source (pheap s !!! p) ∈ rs ∧
        on_way (topology_of s) rs (source (pheap s !!! p)) (pheap s !!! p)) →
  Network_init rs ps s = Ok tt s1 →
  Network_run Q random fuel s1 = Some (Ok tt s') →
  ∃ l, stdout s' = stdout s ++ l ∧
       Forall (λ line, rep_status line = delivered) l ∧
       rep_conn <$> l ≡ₚ conns (pheap s) ps.
Proof.
  intros Hno Hempty Hndr Hnd Hlt Hw Hinit Hrun.
  destruct (init_tracked rs ps s Hempty Hndr Hnd Hlt Hw) as (s1' & Hinit' & HS).
  assert (s1' = s1) as -> by congruence.
  destruct (run_loop_tracked Q random _ rs _ fuel 0 s1 s' HS Hrun)
    as ((_ & _ & Ht) & Hfin).
  rewrite (tally_finished s' Hfin) in Ht.
  destruct (run_loop_delivered Q random s1 fuel 0 s1 s' Hno
              (delivered_since_refl s1) Hrun) as (l & Hl & Hdel).
  pose proof (Network_init_loop rs ps s) as H. unfold wp in H. rewrite Hinit in H.
  destruct H as (_ & _ & _ & _ & _ & Hout & _).
  rewrite Hout in Hl. exists l. split; [done|]. split; [done|].
  rewrite Hl, fmap_app in Ht. by apply Permutation_app_inv_l in Ht.
Qed.

Lemma run_delivers_witness :
  ∃ l, stdout line_final = stdout (line_world None) ++ l ∧
       Forall (λ line, rep_status line = delivered) l ∧
       rep_conn <$> l ≡ₚ conns (pheap (line_world None)) [0%nat].
Proof.
  apply (run_delivers 0 no_loss [1; 2; 3]%nat [0%nat] 40 (line_world None)
           (line_network None) line_final).
  - intros n. reflexivity.
  - apply queues_empty_world. repeat constructor.
  - apply (bool_decide_unpack _). vm_compute. exact I.
  - apply NoDup_singleton.
  - intros p Hp. apply list_elem_of_singleton in Hp as ->. vm_compute. lia.
  - intros p Hp. apply list_elem_of_singleton in Hp as ->. split.
    + apply (bool_decide_unpack _). vm_compute. exact I.
    + exists 2%nat, 2%nat. split; [vm_compute; reflexivity|].
      right. vm_compute. reflexivity.
  - vm_compute. reflexivity.
  - vm_compute. reflexivity.
Defined.
